(** * The 15445 bootcamp demos

    ** Concurrency: mutex.cpp, scoped_lock.cpp, condition_variable.cpp and
    rwlock.cpp

    Every demo is a handful of threads over one shared [int count] and one
    lock.  Each thread function is embedded as a step function on its program
    counter: one step is one atomic action of the source (a lock operation, a
    read or a write of [count], a notification).  A program is the
    interleaving of its threads' steps; properties of "every execution" are
    invariants of the reachable states, and "the program always ends with
    ..." is inevitability along every interleaving.

    The locks themselves ([std::mutex], [std::condition_variable],
    [std::shared_mutex]) are the standard library's; their states and
    operations are those of the specification's Mutex, ConditionVariable and
    SharedExclusiveLock.  The specification's MultiLock, which no file of the
    repository implements, comes after them.

    ** Memory: iterator.cpp, wrapper_class.cpp and move_constructors.cpp

    The heap is a finite map from addresses to what is allocated there, and
    a pointer is an [option] of an address.  A function that dereferences a
    pointer returns [None] (or [Faults]) where the source has undefined
    behaviour: a null or dangling pointer, a second [delete]. *)

From stdpp Require Import base tactics decidable option list relations numbers.
From stdpp Require Import gmap strings.

(** Thread identifiers: the index of the thread in its pool. *)
Abbreviation tid := nat (only parsing).

(** ** Interleaving semantics *)

Section transition_system.
Context {state : Type} (step : relation state).

(** [always_reaches P s]: along every interleaving from [s], a state
    satisfying [P] is reached after finitely many steps, and no interleaving
    gets stuck before it. *)
Inductive always_reaches (P : state → Prop) : state → Prop :=
| reaches_now s : P s → always_reaches P s
| reaches_later s :
    (∃ s', step s s') →
    (∀ s', step s s' → always_reaches P s') →
    always_reaches P s.

(** [reaches_within P b s]: along every interleaving from [s], a state
    satisfying [P] is reached after at most [b] steps. *)
Inductive reaches_within (P : state → Prop) : nat → state → Prop :=
| within_now b s : P s → reaches_within P b s
| within_later b s :
    (∃ s', step s s') →
    (∀ s', step s s' → reaches_within P b s') →
    reaches_within P (S b) s.

End transition_system.

(** Sum of a per-thread quantity over a thread pool. *)
Definition total {A} (f : A → nat) (l : list A) : nat := sum_list (f <$> l).

(** ** std::mutex

    The mutex is the standard library's; its state is what the specification
    gives it ([locked], here together with the holder, which the contract of
    [unlock] refers to). *)
Module Mutex.

(** Modelled from the spec: the state of a Mutex, [{locked: bool}], "owned, at
    any instant, by at most one thread": [None] is unlocked, [Some i] is
    locked by thread [i]. *)
Abbreviation t := (option tid) (only parsing).

(** [TryLock()]: never blocks, reports whether the lock was taken. *)
Definition try_lock (i : tid) (m : t) : bool * t :=
  match m with
  | None => (true, Some i)
  | Some _ => (false, m)
  end.

(** [Lock()]: the caller proceeds only once the lock is free; [None] means
    the calling thread cannot take this step now (it stays blocked). *)
Definition lock (i : tid) (m : t) : option t :=
  match m with
  | None => Some (Some i)
  | Some _ => None
  end.

(** [Unlock()]: releases; only the holder may call it (anything else is a
    contract violation and has no defined step). *)
Definition unlock (i : tid) (m : t) : option t :=
  match m with
  | Some j => if decide (j = i) then Some None else None
  | None => None
  end.

End Mutex.

(** ** The C++ [int] *)

Definition int_min : Z := - 2 ^ 31.
Definition int_max : Z := 2 ^ 31 - 1.

(** [a + b] on [int]; signed overflow is undefined behaviour. *)
Definition int_add (a b : Z) : option Z :=
  if decide (int_min ≤ a + b ≤ int_max)%Z then Some (a + b)%Z else None.

(** ** mutex.cpp and scoped_lock.cpp: [add_count] *)
Module Counter.

(** How [add_count] brackets its critical section: [m.lock(); ...;
    m.unlock();] (mutex.cpp) or [std::scoped_lock slk(m); ...] whose
    destructor unlocks when the scope is left (scoped_lock.cpp). *)
Inductive guard_style := Manual | Scoped.

(** The ways control can leave the guarded region. *)
Inductive exit_path := NormalExit | EarlyReturn | Failure.

(** What evaluating the guarded statement does with the value of [count] it
    read: store a new value, return from [add_count] early, raise, or have no
    defined behaviour. *)
Inductive outcome :=
| Value (v : Z)
| Returns
| Raises
| Undefined.

(** The statement of both files: [count += 1]. *)
Definition incr (v : Z) : outcome :=
  match int_add v 1 with
  | Some v' => Value v'
  | None => Undefined
  end.

(** Program counter of a thread running [add_count]. *)
Inductive pc :=
| Idle                      (* not inside add_count *)
| Locked                    (* after m.lock() (mutex.cpp:25) / after slk is
                               constructed (scoped_lock.cpp:25) *)
| Loaded (v : Z)            (* count += 1 (line 26): count has been read,
                               not yet written *)
| Leaving (e : exit_path)   (* statement done, mutex still held: before
                               m.unlock() (mutex.cpp:28) / before slk's
                               destructor (scoped_lock.cpp:29) *)
| Escaped.                  (* an exception has left add_count *)

(** A thread: where it is, and how many calls of [add_count] it still has to
    make (one, in both [main]s). *)
Record thread := Thread { at_pc : pc; todo : nat }.

Record state := State {
  count : Z;                (* int count = 0; *)
  mtx : Mutex.t;            (* std::mutex m; *)
  workers : list thread;    (* t1, t2 *)
  printed : option Z        (* what main has written to std::cout *)
}.

#[global] Instance exit_path_eq_dec : EqDecision exit_path.
Proof. solve_decision. Defined.
#[global] Instance pc_eq_dec : EqDecision pc.
Proof. solve_decision. Defined.
#[global] Instance thread_eq_dec : EqDecision thread.
Proof. solve_decision. Defined.

(** Inside the locked region: between acquiring and releasing. *)
Definition in_critical_section (t : thread) : Prop :=
  match at_pc t with
  | Locked | Loaded _ | Leaving _ => True
  | Idle | Escaped => False
  end.

#[global] Instance in_critical_section_dec t : Decision (in_critical_section t).
Proof. unfold in_critical_section. destruct (at_pc t); apply _. Defined.

(** The thread has returned from its last [add_count]. *)
Definition finished (t : thread) : Prop := at_pc t = Idle ∧ todo t = 0.

#[global] Instance finished_dec t : Decision (finished t).
Proof. unfold finished. apply _. Defined.

(** Where a thread is once it has left [add_count] by path [e]: an exception
    propagates out of the thread function, the other two paths return to the
    caller. *)
Definition after_exit (e : exit_path) (t : thread) : thread :=
  match e with
  | Failure => Thread Escaped (todo t)
  | NormalExit | EarlyReturn => Thread Idle (pred (todo t))
  end.

(** The path by which the guarded statement's outcome leaves the region. *)
Definition exit_of (o : outcome) : option exit_path :=
  match o with
  | Value _ => Some NormalExit
  | Returns => Some EarlyReturn
  | Raises => Some Failure
  | Undefined => None
  end.

Section program.
Context (style : guard_style) (body : Z → outcome).

(** One step of worker [i], in state [s], being at [t]: the new shared
    [count] and mutex and the thread's new position. *)
Definition worker_step (i : tid) (s : state) (t : thread)
    : option (Z * Mutex.t * thread) :=
  match at_pc t with
  | Idle =>
      match todo t with
      | 0 => None
      | S _ =>
          m' ← Mutex.lock i (mtx s);
          Some (count s, m', Thread Locked (todo t))
      end
  | Locked => Some (count s, mtx s, Thread (Loaded (count s)) (todo t))
  | Loaded v =>
      match body v with
      | Value v' => Some (v', mtx s, Thread (Leaving NormalExit) (todo t))
      | Returns =>
          match style with
          | Scoped => Some (count s, mtx s, Thread (Leaving EarlyReturn) (todo t))
          | Manual => Some (count s, mtx s, after_exit EarlyReturn t)
          end
      | Raises =>
          match style with
          | Scoped => Some (count s, mtx s, Thread (Leaving Failure) (todo t))
          | Manual => Some (count s, mtx s, after_exit Failure t)
          end
      | Undefined => None
      end
  | Leaving e =>
      m' ← Mutex.unlock i (mtx s);
      Some (count s, m', after_exit e t)
  | Escaped => None
  end.

(** Who moves: one of the workers, or [main], which after [t1.join()] and
    [t2.join()] prints [count] (mutex.cpp:37-40). *)
Inductive actor := Worker (i : tid) | Main.

Definition step_by (a : actor) (s : state) : option state :=
  match a with
  | Worker i =>
      t ← workers s !! i;
      '(c, m, t') ← worker_step i s t;
      Some (State c m (<[i := t']> (workers s)) (printed s))
  | Main =>
      match printed s with
      | Some _ => None
      | None =>
          if decide (Forall finished (workers s))
          then Some (State (count s) (mtx s) (workers s) (Some (count s)))
          else None
      end
  end.

Definition step (s s' : state) : Prop := ∃ a, step_by a s = Some s'.

End program.

(** [n] workers, each calling [add_count] [k] times. *)
Definition init (n k : nat) : state :=
  State 0 None (replicate n (Thread Idle k)) None.

(** The two programs: two threads, one call each. *)
Definition mutex_cpp : relation state := step Manual incr.
Definition scoped_lock_cpp : relation state := step Scoped incr.
Definition main_init : state := init 2 1.

End Counter.

(** ** condition_variable.cpp *)
Module CondVar.

(** Program counter of a thread running [add_count_and_notify]. *)
Inductive adder :=
| A_start            (* before std::scoped_lock slk(m) (line 36) *)
| A_locked           (* slk constructed: mutex held *)
| A_loaded (v : Z)   (* count += 1 (line 37): count has been read *)
| A_stored           (* count += 1: written; before if (count == 2) (line 38) *)
| A_notify           (* the test was true: before cv.notify_one() (line 39) *)
| A_leave            (* before slk's destructor (line 41) *)
| A_done.

(** Program counter of the thread running [waiter_thread]. *)
Inductive waiter :=
| W_start            (* before std::unique_lock lk(m) (line 48) *)
| W_check            (* in cv.wait(lk, pred) (line 49), mutex held: pred is
                        evaluated next *)
| W_asleep           (* in cv.wait: mutex released, blocked on cv *)
| W_woken            (* in cv.wait: unblocked, re-acquiring the mutex *)
| W_print            (* cv.wait has returned; before std::cout << count
                        (line 52) *)
| W_leave            (* before lk's destructor (line 53) *)
| W_done.

#[global] Instance adder_eq_dec : EqDecision adder.
Proof. solve_decision. Defined.
#[global] Instance waiter_eq_dec : EqDecision waiter.
Proof. solve_decision. Defined.

(** The only thread that ever blocks on [cv] is the waiter, so the set of
    threads blocked on [cv] is read off its program counter: it is
    [{waiter}] at [W_asleep] and empty otherwise. *)
Record state := State {
  count : Z;               (* int count = 0; *)
  mtx : Mutex.t;           (* std::mutex m; *)
  adders : list adder;     (* t1, t2 *)
  the_waiter : waiter;     (* t3 *)
  printed : option Z;      (* what the waiter has written to std::cout *)
  spurious : nat           (* wake-ups without a notification still to come *)
}.

(** Thread identifiers, for the mutex. *)
Definition waiter_tid : tid := 0.
Definition adder_tid (i : nat) : tid := S i.

Definition adder_inside (a : adder) : Prop :=
  match a with
  | A_start | A_done => False
  | _ => True
  end.

Definition waiter_inside (w : waiter) : Prop :=
  match w with
  | W_check | W_print | W_leave => True
  | _ => False
  end.

(** [cv.wait(lk, pred)] has returned. *)
Definition waiter_returned (w : waiter) : Prop :=
  match w with
  | W_print | W_leave | W_done => True
  | _ => False
  end.

#[global] Instance waiter_returned_dec w : Decision (waiter_returned w).
Proof. destruct w; apply _. Defined.

(** Modelled from the spec: [NotifyOne()] "wakes exactly one blocked thread";
    with nobody blocked it does nothing. *)
Definition notify_one (w : waiter) : waiter :=
  match w with
  | W_asleep => W_woken
  | _ => w
  end.

Section program.
(** The number the source compares [count] with: 2. *)
Context (target : Z).

Definition adder_step (i : nat) (s : state) (a : adder)
    : option (Z * Mutex.t * waiter * adder) :=
  match a with
  | A_start =>
      m' ← Mutex.lock (adder_tid i) (mtx s);
      Some (count s, m', the_waiter s, A_locked)
  | A_locked => Some (count s, mtx s, the_waiter s, A_loaded (count s))
  | A_loaded v =>
      v' ← int_add v 1;
      Some (v', mtx s, the_waiter s, A_stored)
  | A_stored =>
      Some (count s, mtx s, the_waiter s,
            if decide (count s = target) then A_notify else A_leave)
  | A_notify => Some (count s, mtx s, notify_one (the_waiter s), A_leave)
  | A_leave =>
      m' ← Mutex.unlock (adder_tid i) (mtx s);
      Some (count s, m', the_waiter s, A_done)
  | A_done => None
  end.

(** Modelled from the spec: [Wait(guard, predicate)] "must internally loop:
    re-acquire, re-check predicate, and re-suspend if false"; suspending
    releases the mutex in the same atomic step. *)
Definition waiter_step (s : state) : option state :=
  match the_waiter s with
  | W_start | W_woken =>
      m' ← Mutex.lock waiter_tid (mtx s);
      Some (State (count s) m' (adders s) W_check (printed s) (spurious s))
  | W_check =>
      if decide (count s = target)
      then Some (State (count s) (mtx s) (adders s) W_print (printed s) (spurious s))
      else
        m' ← Mutex.unlock waiter_tid (mtx s);
        Some (State (count s) m' (adders s) W_asleep (printed s) (spurious s))
  | W_asleep => None
  | W_print =>
      Some (State (count s) (mtx s) (adders s) W_leave (Some (count s)) (spurious s))
  | W_leave =>
      m' ← Mutex.unlock waiter_tid (mtx s);
      Some (State (count s) m' (adders s) W_done (printed s) (spurious s))
  | W_done => None
  end.

(** A spurious wake-up: the waiter is unblocked although nobody notified. *)
Definition spurious_step (s : state) : option state :=
  match the_waiter s, spurious s with
  | W_asleep, S b =>
      Some (State (count s) (mtx s) (adders s) W_woken (printed s) b)
  | _, _ => None
  end.

Inductive actor := Adder (i : nat) | Waiter | Spurious.

Definition step_by (a : actor) (s : state) : option state :=
  match a with
  | Adder i =>
      p ← adders s !! i;
      '(c, m, w, p') ← adder_step i s p;
      Some (State c m (<[i := p']> (adders s)) w (printed s) (spurious s))
  | Waiter => waiter_step s
  | Spurious => spurious_step s
  end.

Definition step (s s' : state) : Prop := ∃ a, step_by a s = Some s'.

End program.

(** [n] incrementing threads, one waiter, at most [b] spurious wake-ups. *)
Definition init (n b : nat) : state :=
  State 0 None (replicate n A_start) W_start None b.

(** The program: two incrementing threads, and the comparison with 2. *)
Definition condition_variable_cpp : relation state := step 2.
Definition main_init (b : nat) : state := init 2 b.

(** Everything has run: all three threads can be joined. *)
Definition all_done (s : state) : Prop :=
  Forall (λ a, a = A_done) (adders s) ∧ the_waiter s = W_done.

End CondVar.

(** ** The shared-exclusive lock

    rwlock.cpp takes its lock from the standard library
    ([std::shared_mutex]); what is known of it is the specification's
    SharedExclusiveLock. *)
Module SharedMutex.

(** Modelled from the spec: the state of a SharedExclusiveLock,
    [{reader_count: integer ≥ 0, writer_active: bool}], and the writers that
    are queued ("once a writer is waiting ..."). *)
Record t := Lock {
  reader_count : nat;
  writer_active : bool;
  writers_waiting : nat
}.

Definition free : t := Lock 0 false 0.

(** Whether a reader that arrives while a writer is queued is let in.
    [std::shared_mutex], the lock rwlock.cpp declares, promises nothing
    about it: a reader may be admitted whenever no writer holds the lock
    ([Unspecified], what the code has).  The specification asks for more
    ([WriterPreference]: such a reader waits).  What is proved of rwlock.cpp
    is proved for both, so it does not depend on which the platform's lock
    does. *)
Inductive policy := Unspecified | WriterPreference.

Definition admits_reader (p : policy) (l : t) : bool :=
  negb (writer_active l) &&
  match p with
  | Unspecified => true
  | WriterPreference => bool_decide (writers_waiting l = 0)
  end.

(** Modelled from the spec: [AcquireShared()] "increments reader_count,
    blocking only while writer_active is true or a writer is queued". *)
Definition acquire_shared (p : policy) (l : t) : option t :=
  if admits_reader p l
  then Some (Lock (S (reader_count l)) (writer_active l) (writers_waiting l))
  else None.

(** Modelled from the spec: [ReleaseShared()] "decrements reader_count";
    releasing what is not held is a contract violation. *)
Definition release_shared (l : t) : option t :=
  match reader_count l with
  | 0 => None
  | S r => Some (Lock r (writer_active l) (writers_waiting l))
  end.

(** A writer that calls [AcquireExclusive()] is queued from then on. *)
Definition enqueue_writer (l : t) : t :=
  Lock (reader_count l) (writer_active l) (S (writers_waiting l)).

(** Modelled from the spec: [AcquireExclusive()] "blocks until
    reader_count == 0 && !writer_active, then sets writer_active = true". *)
Definition acquire_exclusive (l : t) : option t :=
  match reader_count l, writer_active l, writers_waiting l with
  | 0, false, S q => Some (Lock 0 true q)
  | _, _, _ => None
  end.

(** Modelled from the spec: [ReleaseExclusive()] "clears writer_active". *)
Definition release_exclusive (l : t) : option t :=
  if writer_active l
  then Some (Lock (reader_count l) false (writers_waiting l))
  else None.

End SharedMutex.

(** ** rwlock.cpp *)
Module RWLock.

(** Program counter of a thread running [read_value]. *)
Inductive reader :=
| R_start            (* before std::shared_lock lk(m) (line 35) *)
| R_locked           (* lk constructed: shared lock held *)
| R_printed          (* count read and written to std::cout (line 36) *)
| R_done.            (* lk destroyed (line 37) *)

(** Program counter of a thread running [write_value]. *)
Inductive writer :=
| Wr_start           (* before std::unique_lock lk(m) (line 41) *)
| Wr_waiting         (* in lk's constructor: queued for the exclusive lock *)
| Wr_locked          (* lk constructed: exclusive lock held *)
| Wr_loaded (v : Z)  (* count += 3 (line 42): count has been read *)
| Wr_stored          (* count += 3: written; before lk's destructor (line 43) *)
| Wr_done.

Inductive thread := Reader (r : reader) | Writer (w : writer).

#[global] Instance reader_eq_dec : EqDecision reader.
Proof. solve_decision. Defined.
#[global] Instance writer_eq_dec : EqDecision writer.
Proof. solve_decision. Defined.
#[global] Instance thread_eq_dec : EqDecision thread.
Proof. solve_decision. Defined.

Record state := State {
  count : Z;                 (* int count = 0; *)
  lock : SharedMutex.t;      (* std::shared_mutex m; *)
  pool : list thread;        (* t1 .. t6 *)
  output : list Z            (* the values written to std::cout, in order *)
}.

Definition finished (t : thread) : Prop :=
  t = Reader R_done ∨ t = Writer Wr_done.

#[global] Instance finished_dec t : Decision (finished t).
Proof. unfold finished. apply _. Defined.

Section program.
Context (p : SharedMutex.policy).

Definition reader_step (s : state) (r : reader)
    : option (Z * SharedMutex.t * list Z * thread) :=
  match r with
  | R_start =>
      l' ← SharedMutex.acquire_shared p (lock s);
      Some (count s, l', output s, Reader R_locked)
  | R_locked => Some (count s, lock s, output s ++ [count s], Reader R_printed)
  | R_printed =>
      l' ← SharedMutex.release_shared (lock s);
      Some (count s, l', output s, Reader R_done)
  | R_done => None
  end.

Definition writer_step (s : state) (w : writer)
    : option (Z * SharedMutex.t * list Z * thread) :=
  match w with
  | Wr_start =>
      Some (count s, SharedMutex.enqueue_writer (lock s), output s, Writer Wr_waiting)
  | Wr_waiting =>
      l' ← SharedMutex.acquire_exclusive (lock s);
      Some (count s, l', output s, Writer Wr_locked)
  | Wr_locked => Some (count s, lock s, output s, Writer (Wr_loaded (count s)))
  | Wr_loaded v =>
      v' ← int_add v 3;
      Some (v', lock s, output s, Writer Wr_stored)
  | Wr_stored =>
      l' ← SharedMutex.release_exclusive (lock s);
      Some (count s, l', output s, Writer Wr_done)
  | Wr_done => None
  end.

Definition thread_step (s : state) (t : thread)
    : option (Z * SharedMutex.t * list Z * thread) :=
  match t with
  | Reader r => reader_step s r
  | Writer w => writer_step s w
  end.

(** Thread [i] moves. *)
Definition step_by (i : nat) (s : state) : option state :=
  t ← pool s !! i;
  '(c, l, o, t') ← thread_step s t;
  Some (State c l (<[i := t']> (pool s)) o).

Definition step (s s' : state) : Prop := ∃ i, step_by i s = Some s'.

End program.

(** Where a thread is, as 0 or 1, so that the threads at a place can be
    counted: holding the shared lock, holding the exclusive lock, queued for
    it, having written, being a writer at all. *)
Definition reading (t : thread) : nat :=
  match t with Reader R_locked | Reader R_printed => 1 | _ => 0 end.

Definition writing (t : thread) : nat :=
  match t with
  | Writer Wr_locked | Writer (Wr_loaded _) | Writer Wr_stored => 1
  | _ => 0
  end.

Definition waiting (t : thread) : nat :=
  match t with Writer Wr_waiting => 1 | _ => 0 end.

Definition wrote (t : thread) : nat :=
  match t with Writer Wr_stored | Writer Wr_done => 1 | _ => 0 end.

Definition is_writer (t : thread) : nat :=
  match t with Writer _ => 1 | Reader _ => 0 end.

(** What a thread was created to run. *)
Inductive role := Reads | Writes.

Definition spawn (r : role) : thread :=
  match r with
  | Reads => Reader R_start
  | Writes => Writer Wr_start
  end.

Definition init (roles : list role) : state :=
  State 0 SharedMutex.free (spawn <$> roles) [].

(** How many of the threads write. *)
Definition writers (roles : list role) : nat :=
  total (λ r, match r with Writes => 1 | Reads => 0 end) roles.

(** [main] (lines 48-53): t1, t3, t4, t6 read, t2 and t5 write. *)
Definition main_roles : list role := [Reads; Writes; Reads; Reads; Writes; Reads].
Definition main_init : state := init main_roles.

End RWLock.

(** ** MultiLock

    The repository has no code that locks several resources at once; the
    algorithm is the specification's (§4.4). *)
Module MultiLock.

(** Where the caller is in one request. *)
Inductive pc :=
| Start               (* next: blocking Lock(R0) *)
| Trying (i : nat)    (* R0..R(i-1) taken; next: TryLock(Ri), or return if none is left *)
| Releasing (i : nat) (* a TryLock failed; next: Unlock(R(i-1)) *)
| BackOff             (* everything released; yield, then retry from R0 *)
| Held                (* the operation has returned; the guard is alive *)
| Dropping (i : nat)  (* the guard's scope has ended; next: Unlock(R(i-1)) *)
| Released.

#[global] Instance pc_eq_dec : EqDecision pc.
Proof. solve_decision. Defined.

Record state := State {
  locks : list Mutex.t;   (* the lockable resources, by handle *)
  at_pc : pc
}.

Section request.
(** The caller and the resources [R0..Rn-1] it asks for, as handles into
    the table. *)
Context (me : tid) (rs : list nat).

(** Modelled from the spec: "1. Blockingly Lock(R0). 2. For each subsequent
    Ri, attempt TryLock(Ri). 3. If any TryLock fails, release all resources
    acquired so far in reverse order, back off, and retry the full sequence
    starting again from R0. 4. Repeat until all N resources are held
    simultaneously"; they are "released together when the owning guard's
    scope ends". *)
Definition caller_step (s : state) : option state :=
  match at_pc s with
  | Start =>
      match head rs with
      | None => Some (State (locks s) Held)
      | Some r0 =>
          m ← locks s !! r0;
          m' ← Mutex.lock me m;
          Some (State (<[r0 := m']> (locks s)) (Trying 1))
      end
  | Trying i =>
      match rs !! i with
      | None => Some (State (locks s) Held)
      | Some r =>
          m ← locks s !! r;
          match Mutex.try_lock me m with
          | (true, m') => Some (State (<[r := m']> (locks s)) (Trying (S i)))
          | (false, _) => Some (State (locks s) (Releasing i))
          end
      end
  | Releasing 0 => Some (State (locks s) BackOff)
  | Releasing (S j) =>
      r ← rs !! j;
      m ← locks s !! r;
      m' ← Mutex.unlock me m;
      Some (State (<[r := m']> (locks s)) (Releasing j))
  | BackOff => Some (State (locks s) Start)
  | Held => Some (State (locks s) (Dropping (length rs)))
  | Dropping 0 => Some (State (locks s) Released)
  | Dropping (S j) =>
      r ← rs !! j;
      m ← locks s !! r;
      m' ← Mutex.unlock me m;
      Some (State (<[r := m']> (locks s)) (Dropping j))
  | Released => None
  end.

(** [k] steps of the caller in a row. *)
Fixpoint caller_run (k : nat) (s : state) : option state :=
  match k with
  | 0 => Some s
  | S k' => s' ← caller_step s; caller_run k' s'
  end.

(** Another thread [j] takes resource [r] if it is free, or gives it back
    if it holds it. *)
Definition other_step (j : tid) (r : nat) (s : state) : option state :=
  if decide (j = me) then None
  else
    m ← locks s !! r;
    match m with
    | None => Some (State (<[r := Some j]> (locks s)) (at_pc s))
    | Some k =>
        if decide (k = j)
        then Some (State (<[r := None]> (locks s)) (at_pc s))
        else None
    end.

Inductive actor := Caller | Other (j : tid) (r : nat).

Definition step_by (a : actor) (s : state) : option state :=
  match a with
  | Caller => caller_step s
  | Other j r => other_step j r s
  end.

Definition step (s s' : state) : Prop := ∃ a, step_by a s = Some s'.

(** Resource [r] is held by the caller. *)
Definition held (s : state) (r : nat) : Prop := locks s !! r = Some (Some me).



End request.

Definition init (l : list Mutex.t) : state := State l Start.

End MultiLock.

(** ** iterator.cpp: a doubly linked list and its iterator *)
Module Dll.

(** [struct Node]: pointers are [option nat], [None] being [nullptr]. *)
Record Node := MkNode {
  next_ : option nat;
  prev_ : option nat;
  value_ : Z
}.

(** The nodes that are allocated, by address. *)
Abbreviation heap := (gmap nat Node) (only parsing).

(** [class DLL]: [size_] is a [size_t], here of 64 bits. *)
Record DLL := MkDLL {
  head_ : option nat;
  size_ : Z
}.

Definition size_modulus : Z := 2 ^ 64.

(** [class DLLIterator] *)
Record DLLIterator := MkIter { curr_ : option nat }.

#[global] Instance Node_eq_dec : EqDecision Node.
Proof. solve_decision. Defined.
#[global] Instance DLLIterator_eq_dec : EqDecision DLLIterator.
Proof. solve_decision. Defined.

(** How a loop ends: with a result, in undefined behaviour (a null or
    dangling pointer is dereferenced), or not within the steps allowed. *)
Inductive run (A : Type) :=
| Returns (a : A)
| Faults
| OutOfFuel.
Arguments Returns {A} a.
Arguments Faults {A}.
Arguments OutOfFuel {A}.

(** [p->next_ = q] and [p->prev_ = q]; [None] when [p] is not a live node. *)
Definition set_next (p : nat) (q : option nat) (h : heap) : option heap :=
  n ← h !! p; Some (<[p := MkNode q (prev_ n) (value_ n)]> h).

Definition set_prev (p : nat) (q : option nat) (h : heap) : option heap :=
  n ← h !! p; Some (<[p := MkNode (next_ n) q (value_ n)]> h).

(** [DLL()] (line 88) *)
Definition empty : DLL := MkDLL None 0.

Section allocator.
(** The address [new] returns for a node, given what is allocated. *)
Context (alloc : gmap nat Node → nat).

(** [InsertAtHead] (lines 102-112) *)
Definition InsertAtHead (val : Z) (h : heap) (d : DLL) : option (heap * DLL) :=
  let new_node := alloc h in
  let h := <[new_node := MkNode None None val]> h in
  h ← set_next new_node (head_ d) h;
  h ← match head_ d with
      | Some hd => set_prev hd (Some new_node) h
      | None => Some h
      end;
  Some (h, MkDLL (Some new_node) ((size_ d + 1) `mod` size_modulus)).

(** A run of [InsertAtHead] calls, as in [main] (lines 134-139). *)
Fixpoint insert_all (vals : list Z) (h : heap) (d : DLL) : option (heap * DLL) :=
  match vals with
  | [] => Some (h, d)
  | v :: vals' => '(h', d') ← InsertAtHead v h d; insert_all vals' h' d'
  end.

End allocator.

(** [Begin] and [End] (lines 116-124) *)
Definition Begin (d : DLL) : DLLIterator := MkIter (head_ d).
Definition End_ (d : DLL) : DLLIterator := MkIter None.

(** [operator++()] (lines 48-51): the iterator after the increment *)
Definition pre_incr (h : heap) (it : DLLIterator) : option DLLIterator :=
  c ← curr_ it; n ← h !! c; Some (MkIter (next_ n)).

(** [operator++(int)] (lines 55-59): the iterator returned (the old one) and
    the iterator after the increment *)
Definition post_incr (h : heap) (it : DLLIterator)
    : option (DLLIterator * DLLIterator) :=
  let temp := it in
  it' ← pre_incr h it;
  Some (temp, it').

(** [operator==] and [operator!=] (lines 63-71) *)
Definition iter_eq (this itr : DLLIterator) : bool :=
  bool_decide (curr_ itr = curr_ this).
Definition iter_ne (this itr : DLLIterator) : bool :=
  bool_decide (curr_ itr ≠ curr_ this).

(** [operator*] (lines 75-77) *)
Definition deref (h : heap) (it : DLLIterator) : option Z :=
  c ← curr_ it; n ← h !! c; Some (value_ n).

(** [for (iter = ...; iter != end; ++iter) std::cout << *iter] (lines
    143-145): what is printed, appended to [out]. *)
Fixpoint print_prefix (fuel : nat) (h : heap) (iter end_ : DLLIterator)
    (out : list Z) : run (list Z) :=
  if iter_ne iter end_ then
    match fuel with
    | 0 => OutOfFuel
    | S fuel' =>
        match deref h iter with
        | None => Faults
        | Some v =>
            match pre_incr h iter with
            | None => Faults
            | Some iter' => print_prefix fuel' h iter' end_ (out ++ [v])
            end
        end
    end
  else Returns out.

(** The same loop with [iter++] (lines 149-151). *)
Fixpoint print_postfix (fuel : nat) (h : heap) (iter end_ : DLLIterator)
    (out : list Z) : run (list Z) :=
  if iter_ne iter end_ then
    match fuel with
    | 0 => OutOfFuel
    | S fuel' =>
        match deref h iter with
        | None => Faults
        | Some v =>
            match post_incr h iter with
            | None => Faults
            | Some (_, iter') => print_postfix fuel' h iter' end_ (out ++ [v])
            end
        end
    end
  else Returns out.

(** [~DLL()] (lines 91-99): the loop deletes one node per round, so it
    makes at most as many rounds as there are nodes allocated. *)
Fixpoint delete_nodes (fuel : nat) (h : heap) (current : option nat) : run heap :=
  match current with
  | None => Returns h
  | Some c =>
      match h !! c with
      | None => Faults
      | Some n =>
          match fuel with
          | 0 => OutOfFuel
          | S fuel' => delete_nodes fuel' (delete c h) (next_ n)
          end
      end
  end.

Definition destructor (h : heap) (d : DLL) : run (heap * DLL) :=
  match delete_nodes (size h) h (head_ d) with
  | Returns h' => Returns (h', MkDLL None (size_ d))
  | Faults => Faults
  | OutOfFuel => OutOfFuel
  end.

(** An allocator: the least address not in use. *)
Definition first_free (h : gmap nat Node) : nat := fresh (dom h).

End Dll.

(** ** wrapper_class.cpp: a class that owns an [int] on the heap *)
Module IntPtrManager.

(** The [int]s allocated with [new], by address, and the [IntPtrManager]
    objects alive, each with its [ptr_] ([None] being [nullptr]).  An object
    is named by a number, which stands for where it is stored. *)
Record state := MkState {
  mem : gmap nat Z;
  objs : gmap nat (option nat)
}.

(** [if (ptr_) { delete ptr_; }] (lines 46-48 and 63-65); deleting what is
    not allocated is undefined. *)
Definition release (ptr_ : option nat) (m : gmap nat Z) : option (gmap nat Z) :=
  match ptr_ with
  | None => Some m
  | Some a => match m !! a with
              | Some _ => Some (delete a m)
              | None => None
              end
  end.

Section allocator.
(** The address [new int] returns, given what is allocated. *)
Context (alloc : gmap nat Z → nat).

(** [IntPtrManager(int val)] (lines 37-40), for the new object [this] *)
Definition construct (this : nat) (val : Z) (s : state) : state :=
  let ptr_ := alloc (mem s) in
  MkState (<[ptr_ := val]> (mem s)) (<[this := Some ptr_]> (objs s)).

(** [IntPtrManager()] (lines 31-34) *)
Definition construct_default (this : nat) (s : state) : state :=
  construct this 0 s.

End allocator.

(** [~IntPtrManager()] (lines 43-49); the object is gone afterwards. *)
Definition destroy (this : nat) (s : state) : option state :=
  ptr_ ← objs s !! this;
  m ← release ptr_ (mem s);
  Some (MkState m (delete this (objs s))).

(** [IntPtrManager(IntPtrManager&& other)] (lines 53-56), for the new object
    [this] *)
Definition move_construct (this other : nat) (s : state) : option state :=
  other_ptr ← objs s !! other;
  let os := <[this := other_ptr]> (objs s) in
  Some (MkState (mem s) (<[other := None]> os)).

(** [operator=(IntPtrManager&& other)] (lines 59-69) *)
Definition move_assign (this other : nat) (s : state) : option state :=
  ptr_ ← objs s !! this;
  other_ptr ← objs s !! other;
  if decide (ptr_ = other_ptr) then Some s
  else
    m ← release ptr_ (mem s);
    let os := <[this := other_ptr]> (objs s) in
    Some (MkState m (<[other := None]> os)).

(** [SetVal] (lines 76-78) and [GetVal] (lines 81-83): [*ptr_] is undefined
    when [ptr_] is null or dangling. *)
Definition SetVal (this : nat) (val : Z) (s : state) : option state :=
  ptr_ ← objs s !! this;
  a ← ptr_;
  _ ← mem s !! a;
  Some (MkState (<[a := val]> (mem s)) (objs s)).

Definition GetVal (this : nat) (s : state) : option Z :=
  ptr_ ← objs s !! this;
  a ← ptr_;
  mem s !! a.

(** An allocator: the least address not in use. *)
Definition lowest_free (m : gmap nat Z) : nat := fresh (dom m).

End IntPtrManager.

(** ** move_constructors.cpp: a class that can be moved but not copied *)
Module Person.

(** [class Person] *)
Record t := MkPerson {
  age_ : Z;
  nicknames_ : list string;
  valid_ : bool
}.

(** The [Person] objects alive; an object is named by a number, which
    stands for where it is stored. *)
Abbreviation store := (gmap nat t) (only parsing).

(** Assignments to one member of the object [this]. *)
Definition set_age (this : nat) (a : Z) (s : store) : option store :=
  p ← s !! this; Some (<[this := MkPerson a (nicknames_ p) (valid_ p)]> s).
Definition set_nicknames (this : nat) (ns : list string) (s : store) : option store :=
  p ← s !! this; Some (<[this := MkPerson (age_ p) ns (valid_ p)]> s).
Definition set_valid (this : nat) (v : bool) (s : store) : option store :=
  p ← s !! this; Some (<[this := MkPerson (age_ p) (nicknames_ p) v]> s).

(** [Person()] (line 31) and [Person(age, nicknames)] (lines 35-36), for the
    new object [this] *)
Definition construct_default (this : nat) (s : store) : store :=
  <[this := MkPerson 0 [] true]> s.
Definition construct (this : nat) (age : Z) (nicknames : list string) (s : store)
    : store :=
  <[this := MkPerson age nicknames true]> s.

Section vector.
(** What a [std::vector] holds after it has been the source of a move
    assignment: the standard leaves it unspecified. *)
Context (moved_from : list string → list string).

(** [Person(Person &&person)] (lines 43-49), for the new object [this]; a
    vector that was the source of a move construction is empty. *)
Definition move_construct (this person : nat) (s : store) : option store :=
  p ← s !! person;
  let s := <[this := MkPerson (age_ p) (nicknames_ p) true]> s in
  s ← set_nicknames person [] s;
  set_valid person false s.

(** [operator=(Person &&other)] (lines 52-63), statement by statement *)
Definition move_assign (this other : nat) (s : store) : option store :=
  o ← s !! other;
  s ← set_age this (age_ o) s;
  o ← s !! other;
  s ← set_nicknames this (nicknames_ o) s;
  s ← set_nicknames other (moved_from (nicknames_ o)) s;
  s ← set_valid this true s;
  set_valid other false s.

End vector.

(** [GetAge] (line 69), [GetNicknameAtI] (line 73: [nicknames_[i]] is
    undefined out of range) and what [PrintValid] (lines 75-81) prints:
    [true] for "Object is valid.". *)
Definition GetAge (this : nat) (s : store) : option Z :=
  p ← s !! this; Some (age_ p).
Definition GetNicknameAtI (this : nat) (i : nat) (s : store) : option string :=
  p ← s !! this; nicknames_ p !! i.
Definition PrintValid (this : nat) (s : store) : option bool :=
  p ← s !! this; Some (valid_ p).

End Person.

(** * Proofs *)

(** ** Interleavings: invariants and inevitability *)

Section transition_facts.
Context {state : Type} (step : relation state).

Lemma invariant_rtc (I : state → Prop) s0 :
  I s0 → (∀ s s', I s → step s s' → I s') → ∀ s, rtc step s0 s → I s.
Proof.
  intros H0 Hstep s Hr. induction Hr as [|s1 s2 s3 H12 _ IH]; [done|].
  apply IH. by eapply Hstep.
Qed.

Lemma always_reaches_mono (P Q : state → Prop) s :
  (∀ s, P s → Q s) → always_reaches step P s → always_reaches step Q s.
Proof.
  intros HPQ. induction 1 as [s HP|s Hex _ IH].
  - apply reaches_now. auto.
  - apply reaches_later; auto.
Qed.

(** Inevitability from an invariant, a measure every step decreases, and
    progress outside the goal. *)
Lemma always_reaches_measure (I P : state → Prop) (μ : state → nat) :
  (∀ s s', I s → step s s' → I s') →
  (∀ s s', I s → step s s' → μ s' < μ s) →
  (∀ s, I s → P s ∨ ∃ s', step s s') →
  ∀ s, I s → always_reaches step P s.
Proof.
  intros Hinv Hdec Hprog s.
  remember (μ s) as n eqn:Hn. revert s Hn.
  induction n as [n IH] using lt_wf_ind. intros s -> HI.
  destruct (Hprog s HI) as [HP|Hex].
  - by apply reaches_now.
  - apply reaches_later; [done|]. intros s' Hs'.
    eapply IH; [by eapply Hdec| done | by eapply Hinv].
Qed.

End transition_facts.

Section total_facts.
Context {A : Type} (f : A → nat).

Lemma total_lookup_le (l : list A) i x : l !! i = Some x → f x ≤ total f l.
Proof.
  unfold total. revert i. induction l as [|y l IH]; intros [|i] Hi; simplify_eq/=.
  - lia.
  - specialize (IH _ Hi). lia.
Qed.

Lemma total_insert (l : list A) i x y :
  l !! i = Some x → total f (<[i := y]> l) + f x = total f l + f y.
Proof.
  unfold total. revert i. induction l as [|z l IH]; intros [|i] Hi; simplify_eq/=.
  - lia.
  - specialize (IH _ Hi). lia.
Qed.

Lemma total_replicate n x : total f (replicate n x) = n * f x.
Proof. unfold total. induction n as [|n IH]; [done|]. simpl. f_equal. exact IH. Qed.

Lemma total_positive (l : list A) :
  0 < total f l → ∃ i x, l !! i = Some x ∧ 0 < f x.
Proof.
  unfold total. induction l as [|y l IH]; [simpl; lia|].
  change (0 < f y + sum_list (f <$> l) → ∃ i x, (y :: l) !! i = Some x ∧ 0 < f x).
  intros Hpos. destruct (decide (0 < f y)) as [Hy|Hy].
  - by exists 0, y.
  - destruct IH as (i & x & Hi & Hx); [lia|]. by exists (S i), x.
Qed.

Lemma total_le (g : A → nat) (l : list A) :
  (∀ x, f x ≤ g x) → total f l ≤ total g l.
Proof.
  intros Hfg. unfold total. induction l as [|y l IH]; [done|].
  change (f y + sum_list (f <$> l) ≤ g y + sum_list (g <$> l)).
  specialize (Hfg y). lia.
Qed.

Lemma total_lt (g : A → nat) (l : list A) i x :
  (∀ x, f x ≤ g x) → l !! i = Some x → f x < g x → total f l < total g l.
Proof.
  intros Hfg. unfold total. revert i.
  induction l as [|y l IH]; intros [|i] Hi Hx; simplify_eq/=.
  - change (f x + sum_list (f <$> l) < g x + sum_list (g <$> l)).
    pose proof (total_le g l Hfg). unfold total in *. lia.
  - change (f y + sum_list (f <$> l) < g y + sum_list (g <$> l)).
    specialize (IH _ Hi Hx). specialize (Hfg y). lia.
Qed.

Lemma total_ext (g : A → nat) (l : list A) :
  Forall (λ x, f x = g x) l → total f l = total g l.
Proof.
  unfold total. induction 1 as [|y l Hy _ IH]; [done|].
  change (f y + sum_list (f <$> l) = g y + sum_list (g <$> l)). lia.
Qed.

End total_facts.

(** What a thread pool holds at [i] after the thread at [j] has moved. *)
Lemma lookup_update {A} (l : list A) j y i x :
  <[j := y]> l !! i = Some x →
  (i = j ∧ x = y) ∨ (i ≠ j ∧ l !! i = Some x).
Proof. rewrite list_lookup_insert_Some. intros [(-> & -> & _)|[? ?]]; auto. Qed.

(** ** mutex.cpp and scoped_lock.cpp *)
Module CounterFacts.
Import Counter.

(** Case analysis of one worker step. *)
Ltac worker_cases Hw :=
  match type of Hw with
  | worker_step ?style ?body _ ?s ?t = Some _ =>
      unfold worker_step, Mutex.lock, Mutex.unlock, after_exit in Hw;
      let p := fresh "p" in let n := fresh "n" in
      let v := fresh "v" in let e := fresh "e" in
      destruct t as [p n]; simpl in Hw;
      destruct p as [| |v|e|];
      [ destruct n; [done|]; destruct (mtx s) eqn:?; simplify_eq/=
      | simplify_eq/=
      | destruct (body v) eqn:?;
        (tryif is_var style then destruct style else idtac); simplify_eq/=
      | destruct (mtx s) eqn:?; simplify_eq/=; case_decide; simplify_eq/=;
        destruct e; simplify_eq/=
      | done ]
  end.

Section any_program.
Context (style : guard_style) (body : Z → outcome).

Lemma step_by_worker i s s' :
  step_by style body (Worker i) s = Some s' →
  ∃ t c m t',
    workers s !! i = Some t ∧
    worker_step style body i s t = Some (c, m, t') ∧
    s' = State c m (<[i := t']> (workers s)) (printed s).
Proof.
  simpl. intros H.
  destruct (workers s !! i) as [t|] eqn:Ht; simplify_eq/=.
  destruct (worker_step style body i s t) as [[[c m] t']|] eqn:Hw; simplify_eq/=.
  eauto 10.
Qed.

Lemma step_by_main s s' :
  step_by style body Main s = Some s' →
  printed s = None ∧ Forall finished (workers s) ∧
  s' = State (count s) (mtx s) (workers s) (Some (count s)).
Proof.
  simpl. intros H. destruct (printed s); [done|].
  case_decide; by simplify_eq.
Qed.

(** A thread inside the locked region is the holder of the mutex. *)
Definition holder_inside (s : state) : Prop :=
  ∀ i t, workers s !! i = Some t → in_critical_section t → mtx s = Some i.

(** The value a thread has read is still the value of [count] when it
    writes: nobody wrote in between. *)
Definition load_fresh (s : state) : Prop :=
  ∀ i t v, workers s !! i = Some t → at_pc t = Loaded v → count s = v.

Lemma holder_inside_init n k : holder_inside (init n k).
Proof.
  intros i t Ht Hin. apply lookup_replicate in Ht as [-> _]. done.
Qed.

Lemma holder_inside_step s s' :
  holder_inside s → step style body s s' → holder_inside s'.
Proof.
  intros Hex [[j|] Hs].
  - apply step_by_worker in Hs as (t & c & m & t' & Ht & Hw & ->).
    intros i ti Hi Hin. simpl in *.
    apply lookup_update in Hi as [[-> ->]|[Hne Hi]].
    + specialize (Hex _ _ Ht). worker_cases Hw; simpl in *; auto; done.
    + specialize (Hex _ _ Hi Hin).
      worker_cases Hw; simpl in *; congruence.
  - apply step_by_main in Hs as (_ & _ & ->). exact Hex.
Qed.

Lemma load_fresh_init n k : load_fresh (init n k).
Proof.
  intros i t v Ht Hin. apply lookup_replicate in Ht as [-> _]. done.
Qed.

Lemma load_fresh_step s s' :
  holder_inside s → load_fresh s → step style body s s' → load_fresh s'.
Proof.
  intros Hex Hfr [[j|] Hs].
  - apply step_by_worker in Hs as (t & c & m & t' & Ht & Hw & ->).
    intros i ti v Hi Hat. simpl in *.
    apply lookup_update in Hi as [[-> ->]|[Hne Hi]].
    + worker_cases Hw; simpl in *; congruence.
    + pose proof (Hfr _ _ _ Hi Hat) as Hv.
      assert (mtx s = Some i) as Hm.
      { apply (Hex _ _ Hi). unfold in_critical_section. by rewrite Hat. }
      pose proof (Hex _ _ Ht) as Hj.
      worker_cases Hw; simpl in *; try done.
      (* the write: its author [j] is inside, so it holds the mutex *)
      all: specialize (Hj I); congruence.
  - apply step_by_main in Hs as (_ & _ & ->). exact Hfr.
Qed.

(** Both, in every state an execution can reach. *)
Lemma exclusion_reachable n k s :
  rtc (step style body) (init n k) s → holder_inside s ∧ load_fresh s.
Proof.
  apply (invariant_rtc _ (λ s, holder_inside s ∧ load_fresh s)).
  - split; [apply holder_inside_init|apply load_fresh_init].
  - intros s1 s2 [H1 H2] Hs. split.
    + by eapply holder_inside_step.
    + by eapply load_fresh_step.
Qed.

Lemma mutual_exclusion n k s i j ti tj :
  rtc (step style body) (init n k) s →
  i ≠ j → workers s !! i = Some ti → workers s !! j = Some tj →
  in_critical_section ti → in_critical_section tj → False.
Proof.
  intros Hr Hne Hi Hj Hini Hinj.
  apply exclusion_reachable in Hr as [Hex _].
  pose proof (Hex _ _ Hi Hini). pose proof (Hex _ _ Hj Hinj). congruence.
Qed.

(** *** Every execution is finite *)

(** Steps a thread can still take. *)
Definition steps_left (t : thread) : nat :=
  match at_pc t with
  | Idle => 4 * todo t
  | Locked => 4 * pred (todo t) + 3
  | Loaded _ => 4 * pred (todo t) + 2
  | Leaving _ => 4 * pred (todo t) + 1
  | Escaped => 0
  end.

Definition fuel (s : state) : nat :=
  total steps_left (workers s) + (match printed s with Some _ => 0 | None => 1 end).

Lemma counter_step_fuel s s' : step style body s s' → fuel s' < fuel s.
Proof.
  intros [[j|] Hs].
  - apply step_by_worker in Hs as (t & c & m & t' & Ht & Hw & ->).
    unfold fuel; cbn [workers printed].
    pose proof (total_insert steps_left _ _ _ t' Ht) as Htot.
    assert (steps_left t' < steps_left t); [|lia].
    worker_cases Hw; unfold steps_left; simpl; lia.
  - apply step_by_main in Hs as (Hp & _ & ->). unfold fuel; cbn [workers printed].
    rewrite Hp. lia.
Qed.

(** *** A mutex left locked stays locked *)

(** Thread [i] has left [add_count] on an exception while holding [m]. *)
Definition leaked (i : tid) (s : state) : Prop :=
  mtx s = Some i ∧ ∃ t, workers s !! i = Some t ∧ at_pc t = Escaped.

Lemma leaked_step i s s' : leaked i s → step style body s s' → leaked i s'.
Proof.
  intros (Hm & t & Ht & Hat) [[j|] Hs].
  - apply step_by_worker in Hs as (tj & c & m & t' & Htj & Hw & ->).
    destruct (decide (j = i)) as [->|Hne].
    + simplify_eq. worker_cases Hw; simpl in *; done.
    + split; simpl.
      * worker_cases Hw; simpl in *; congruence.
      * exists t. by rewrite list_lookup_insert_ne.
  - apply step_by_main in Hs as (_ & _ & ->). split; simpl; eauto.
Qed.

Lemma leaked_forever i s s' :
  leaked i s → rtc (step style body) s s' → leaked i s'.
Proof.
  intros Hl. apply (invariant_rtc _ (leaked i)); [done|].
  intros ???. by apply leaked_step.
Qed.

(** Nobody else enters once the mutex has been leaked. *)
Lemma leaked_blocks i s j t :
  leaked i s → workers s !! j = Some t → at_pc t = Idle →
  step_by style body (Worker j) s = None.
Proof.
  intros (Hm & _) Ht Hat. simpl. rewrite Ht. simpl.
  unfold worker_step. rewrite Hat, Hm. by destruct (todo t).
Qed.

End any_program.

(** *** The scoped guard: whoever holds the mutex is inside the scope *)

Definition owner_inside (s : state) : Prop :=
  ∀ i, mtx s = Some i → ∃ t, workers s !! i = Some t ∧ in_critical_section t.

Lemma owner_inside_step body s s' :
  owner_inside s → step Scoped body s s' → owner_inside s'.
Proof.
  intros Hown [[j|] Hs].
  - apply step_by_worker in Hs as (t & c & m & t' & Ht & Hw & ->).
    assert (j < length (workers s)) as Hlen by by eapply lookup_lt_Some.
    intros i Hm. simpl in *. destruct (decide (i = j)) as [->|Hne].
    + exists t'. split; [by apply list_lookup_insert_eq|].
      worker_cases Hw; simpl in *; done.
    + rewrite list_lookup_insert_ne by congruence.
      apply Hown. worker_cases Hw; simpl in *; congruence.
  - apply step_by_main in Hs as (_ & _ & ->). exact Hown.
Qed.

Lemma owner_inside_reachable body n k s :
  rtc (step Scoped body) (init n k) s → owner_inside s.
Proof.
  apply (invariant_rtc _ owner_inside); [done|].
  intros ???. by apply owner_inside_step.
Qed.

(** Leaving the scope, by whichever path, is the destructor's step. *)
Lemma scoped_exit_step body i s t c m t' :
  worker_step Scoped body i s t = Some (c, m, t') →
  in_critical_section t → ¬ in_critical_section t' →
  m = None ∧ ∃ e, at_pc t = Leaving e ∧ t' = after_exit e t.
Proof.
  intros Hw Hin Hout. destruct t as [p n]. unfold worker_step in Hw.
  destruct p as [| |v|e|]; simpl in *; try done.
  - simplify_eq. by destruct Hout.
  - destruct (body v); simplify_eq; by destruct Hout.
  - unfold Mutex.unlock in Hw. destruct (mtx s); simplify_eq/=.
    case_decide; simplify_eq/=. eauto.
Qed.

(** *** Counting: the statement is [count += 1] *)

Lemma incr_Value v c : incr v = Value c → c = (v + 1)%Z ∧ (v + 1 ≤ int_max)%Z.
Proof.
  unfold incr, int_add. case_decide; intros; simplify_eq. split; [done|lia].
Qed.

Lemma incr_defined v : (0 ≤ v)%Z → (v + 1 ≤ int_max)%Z → incr v = Value (v + 1).
Proof.
  intros. unfold incr, int_add. rewrite decide_True; [done|].
  unfold int_min. lia.
Qed.

Lemma incr_not_Returns v : incr v ≠ Returns.
Proof. unfold incr. by destruct (int_add v 1). Qed.

Lemma incr_not_Raises v : incr v ≠ Raises.
Proof. unfold incr. by destruct (int_add v 1). Qed.

(** Increments a thread has still to perform. *)
Definition remaining (t : thread) : nat :=
  match at_pc t with
  | Leaving _ => pred (todo t)
  | _ => todo t
  end.

Lemma finished_remaining l : Forall finished l → total remaining l = 0.
Proof.
  unfold total. induction 1 as [|t l [Hat Htodo] _ IH]; [done|].
  change (remaining t + sum_list (remaining <$> l) = 0).
  rewrite IH. unfold remaining. by rewrite Hat, Htodo.
Qed.

(** The steps of a worker whose statement is [count += 1]. *)
Inductive incr_move (i : tid) (s : state) : thread → Z → Mutex.t → thread → Prop :=
| move_lock n :
    mtx s = None →
    incr_move i s (Thread Idle (S n)) (count s) (Some i) (Thread Locked (S n))
| move_load n :
    incr_move i s (Thread Locked n) (count s) (mtx s) (Thread (Loaded (count s)) n)
| move_store v n :
    (v + 1 ≤ int_max)%Z →
    incr_move i s (Thread (Loaded v) n) (v + 1) (mtx s)
      (Thread (Leaving NormalExit) n)
| move_unlock e n :
    mtx s = Some i →
    incr_move i s (Thread (Leaving e) n) (count s) None
      (after_exit e (Thread (Leaving e) n)).

Lemma worker_step_incr style i s t c m t' :
  worker_step style incr i s t = Some (c, m, t') → incr_move i s t c m t'.
Proof.
  intros Hw. destruct t as [p n]. unfold worker_step in Hw. simpl in Hw.
  destruct p as [| |v|e|]; simplify_eq/=.
  - destruct n; [done|]. unfold Mutex.lock in Hw.
    destruct (mtx s) eqn:Hm; simplify_eq/=. by constructor.
  - constructor.
  - destruct (incr v) eqn:Hv; try done.
    + apply incr_Value in Hv as [-> ?]. simplify_eq. by constructor.
    + by apply incr_not_Returns in Hv.
    + by apply incr_not_Raises in Hv.
  - unfold Mutex.unlock in Hw. destruct (mtx s) eqn:Hm; simplify_eq/=.
    case_decide; simplify_eq/=. by constructor.
Qed.

(** Where a thread of these programs can be: no exception escapes, and a
    thread inside [add_count] is making one of its calls. *)
Definition well_placed (t : thread) : Prop :=
  match at_pc t with
  | Idle => True
  | Locked | Loaded _ => 1 ≤ todo t
  | Leaving e => e = NormalExit ∧ 1 ≤ todo t
  | Escaped => False
  end.

Section counting.
Context (style : guard_style) (n k : nat).

Record counted (s : state) : Prop := {
  c_holder : holder_inside s;
  c_fresh : load_fresh s;
  c_owner : ∀ i, mtx s = Some i →
            ∃ t, workers s !! i = Some t ∧ in_critical_section t;
  c_shape : ∀ i t, workers s !! i = Some t → well_placed t;
  c_sum : (count s + Z.of_nat (total remaining (workers s)) = Z.of_nat (n * k))%Z;
  c_nonneg : (0 ≤ count s)%Z;
  c_printed : ∀ v, printed s = Some v →
              v = Z.of_nat (n * k) ∧ Forall finished (workers s)
}.

Lemma counted_init : counted (init n k).
Proof.
  split; simpl.
  - apply holder_inside_init.
  - apply load_fresh_init.
  - done.
  - intros i t Ht. apply lookup_replicate in Ht as [-> _]. done.
  - rewrite total_replicate. unfold remaining; simpl. lia.
  - done.
  - done.
Qed.

Lemma counted_step s s' : counted s → step style incr s s' → counted s'.
Proof.
  intros [Hex Hfr Hown Hsh Hsum Hnn Hpr] Hstep.
  pose proof (holder_inside_step _ _ _ _ Hex Hstep) as Hex'.
  pose proof (load_fresh_step _ _ _ _ Hex Hfr Hstep) as Hfr'.
  destruct Hstep as [[j|] Hs].
  - apply step_by_worker in Hs as (t & c & m & t' & Ht & Hw & ->).
    pose proof (total_insert remaining _ _ _ t' Ht) as Htot.
    pose proof (Hsh _ _ Ht) as Hwp. unfold well_placed in Hwp.
    pose proof (λ v, Hfr _ _ v Ht) as Hld.
    assert (j < length (workers s)) as Hlen by by eapply lookup_lt_Some.
    apply worker_step_incr in Hw.
    split; cbn [count mtx workers printed] in *; try done.
    + (* whoever holds the mutex is inside *)
      intros i Hm. destruct (decide (i = j)) as [->|Hne].
      * exists t'. split; [by apply list_lookup_insert_eq|].
        destruct Hw; simpl in *; done.
      * rewrite list_lookup_insert_ne by congruence.
        apply Hown. destruct Hw; simpl in *; congruence.
    + intros i ti Hi.
      apply lookup_update in Hi as [[-> ->]|[Hne Hi]]; [|by eapply Hsh].
      destruct Hw as [n0 _| | |e n0 _]; unfold well_placed; simpl in *;
        try done; try lia.
      by destruct Hwp as [-> _].
    + destruct Hw as [n0 _| |v n0 _|e n0 _]; unfold remaining in *; simpl in *;
        try lia.
      * specialize (Hld _ eq_refl). lia.
      * destruct Hwp as [-> _]. simpl in *. lia.
    + destruct Hw; simpl in *; try lia.
      specialize (Hld _ eq_refl). lia.
    + intros v Hv. destruct (Hpr _ Hv) as [_ Hfin].
      rewrite Forall_lookup in Hfin. destruct (Hfin _ _ Ht) as [Hat Hz].
      destruct Hw; simpl in *; done.
  - apply step_by_main in Hs as (Hnone & Hfin & ->).
    split; cbn [count mtx workers printed]; try done.
    intros v [= <-]. split; [|done].
    apply finished_remaining in Hfin. lia.
Qed.

(** The state every execution ends in: both workers joined, [count] holding
    one increment per call, and that value printed. *)
Definition completed (s : state) : Prop :=
  Forall finished (workers s) ∧
  count s = Z.of_nat (n * k) ∧
  printed s = Some (Z.of_nat (n * k)).

Lemma worker_can_step i s t c m t' :
  workers s !! i = Some t →
  worker_step style incr i s t = Some (c, m, t') →
  ∃ s', step style incr s s'.
Proof.
  intros Ht Hw. eexists. exists (Worker i). simpl. rewrite Ht. simpl.
  rewrite Hw. done.
Qed.

Lemma counted_progress s :
  (Z.of_nat (n * k) ≤ int_max)%Z →
  counted s → completed s ∨ ∃ s', step style incr s s'.
Proof.
  intros Hrange [Hex Hfr Hown Hsh Hsum Hnn Hpr].
  destruct (printed s) as [v|] eqn:Hp.
  { left. destruct (Hpr _ eq_refl) as [-> Hfin]. split; [done|]. split; [|done].
    apply finished_remaining in Hfin. lia. }
  right. destruct (decide (Forall finished (workers s))) as [Hfin|Hnot].
  { eexists. exists Main. simpl. rewrite Hp. by rewrite decide_True. }
  destruct (mtx s) as [h|] eqn:Hm.
  - (* the holder can move *)
    destruct (Hown _ eq_refl) as (t & Ht & Hin).
    pose proof (Hsh _ _ Ht) as Hwp. pose proof (λ v, Hfr _ _ v Ht) as Hld.
    pose proof (total_lookup_le remaining _ _ _ Ht) as Hle.
    destruct t as [p m]. unfold well_placed, remaining in *. simpl in *.
    destruct p as [| |v|e|]; try done.
    + eapply (worker_can_step h); [done|]. unfold worker_step. simpl. done.
    + eapply (worker_can_step h); [done|]. unfold worker_step. simpl.
      rewrite incr_defined; [done| |].
      * specialize (Hld _ eq_refl). lia.
      * specialize (Hld _ eq_refl). lia.
    + eapply (worker_can_step h); [done|]. unfold worker_step. simpl.
      rewrite Hm. simpl. by rewrite decide_True.
  - (* the mutex is free: a thread with calls left can take it *)
    apply not_Forall_Exists in Hnot; [|apply _].
    apply list.Exists_exists in Hnot as (t & Hel & Hnf).
    apply list_elem_of_lookup in Hel as [i Ht].
    pose proof (Hsh _ _ Ht) as Hwp. pose proof (Hex _ _ Ht) as Hin.
    destruct t as [p m]. unfold well_placed, in_critical_section, finished in *.
    simpl in *.
    destruct p as [| |v|e|]; try done; try (specialize (Hin I); congruence).
    destruct m as [|m]; [by destruct Hnf|].
    eapply (worker_can_step i); [done|]. unfold worker_step. simpl.
    rewrite Hm. simpl. done.
Qed.

(** Every execution of [n] workers making [k] calls each ends, and ends
    [completed]. *)
Lemma counter_completes :
  (Z.of_nat (n * k) ≤ int_max)%Z →
  always_reaches (step style incr) completed (init n k).
Proof.
  intros Hrange.
  apply (always_reaches_measure _ counted completed fuel).
  - apply counted_step.
  - intros s s' _. apply counter_step_fuel.
  - intros s. by apply counted_progress.
  - apply counted_init.
Qed.

End counting.
End CounterFacts.

(** ** The claims about mutex.cpp and scoped_lock.cpp *)
Module CounterClaims.
Import Counter.

(** C1 (mutual exclusion). In every state an execution of [add_count]
    threads can reach, whatever the guard style, the guarded statement and the
    number of threads and calls (mutex.cpp is [Manual], [incr], two threads,
    one call; scoped_lock.cpp is [Scoped], [incr], two threads, one call), no
    two distinct threads are inside the locked region together, and the value
    a thread has read from [count] is still the value of [count] when it
    writes it back: the increments do not interleave. *)
Theorem C1_mutual_exclusion style body n k s :
  rtc (step style body) (init n k) s →
  (∀ i j ti tj,
      i ≠ j → workers s !! i = Some ti → workers s !! j = Some tj →
      ¬ (in_critical_section ti ∧ in_critical_section tj)) ∧
  (∀ i t v, workers s !! i = Some t → at_pc t = Loaded v → count s = v).
Proof.
  intros Hr. split.
  - intros i j ti tj Hne Hi Hj [Hini Hinj].
    by eapply (CounterFacts.mutual_exclusion style body n k s i j).
  - by apply CounterFacts.exclusion_reachable in Hr as [_ Hfr].
Qed.

(** A state of mutex.cpp: t1 has locked and read [count], t2 has not
    started. *)
Definition t1_inside : state :=
  State 0 (Some 0) [Thread (Loaded 0) 1; Thread Idle 1] None.

Lemma t1_inside_reachable : rtc mutex_cpp main_init t1_inside.
Proof.
  eapply rtc_l; [exists (Worker 0); vm_compute; reflexivity|].
  eapply rtc_l; [exists (Worker 0); vm_compute; reflexivity|].
  done.
Qed.

Lemma C1_mutual_exclusion_witness :
  rtc mutex_cpp main_init t1_inside ∧
  (∀ i j ti tj,
      i ≠ j → workers t1_inside !! i = Some ti → workers t1_inside !! j = Some tj →
      ¬ (in_critical_section ti ∧ in_critical_section tj)) ∧
  (∀ i t v, workers t1_inside !! i = Some t → at_pc t = Loaded v →
            count t1_inside = v).
Proof.
  split; [exact t1_inside_reachable|].
  exact (C1_mutual_exclusion Manual incr 2 1 t1_inside t1_inside_reachable).
Defined.

(** C2 (end to end). Two threads, each calling [add_count] 1000 times, under
    either guard style: every interleaving ends, with both threads finished,
    [count] equal to 2000 and 2000 printed by [main]. *)
Theorem C2_two_threads_thousand_each style :
  always_reaches (step style incr)
    (λ s, Forall finished (workers s) ∧ count s = 2000%Z ∧ printed s = Some 2000%Z)
    (init 2 1000).
Proof.
  eapply always_reaches_mono; [|apply (CounterFacts.counter_completes style 2 1000)].
  - intros s (Hfin & Hc & Hp). done.
  - unfold int_max. lia.
Qed.

(** The [main] of both files as it stands (one call per thread) always ends
    printing 2. *)
Lemma main_prints_two :
  let two := λ s, Forall finished (workers s) ∧ count s = 2%Z ∧ printed s = Some 2%Z in
  always_reaches mutex_cpp two main_init ∧
  always_reaches scoped_lock_cpp two main_init.
Proof.
  assert (∀ style,
    always_reaches (step style incr)
      (λ s, Forall finished (workers s) ∧ count s = 2%Z ∧ printed s = Some 2%Z)
      main_init) as Hboth.
  { intros style.
    eapply always_reaches_mono; [|apply (CounterFacts.counter_completes style 2 1)].
    - intros s (Hfin & Hc & Hp). done.
    - unfold int_max. lia. }
  split; apply Hboth.
Qed.

(** C5 (scoped release). With the scoped guard, whatever the guarded
    statement does, in every reachable state and for every thread: outside
    the guard's scope the thread does not hold the mutex; whichever way the
    statement ends (normal completion, early return, exception) the thread
    comes to the guard's destructor still holding the mutex; the destructor's
    step can always be taken and leaves the mutex free; and no other step
    takes a thread out of the scope.  scoped_lock.cpp's [add_count] is the
    instance [body = incr]. *)
Theorem C5_scoped_guard_releases body n k s i t :
  rtc (step Scoped body) (init n k) s →
  workers s !! i = Some t →
  (¬ in_critical_section t → mtx s ≠ Some i) ∧
  (∀ v e,
      at_pc t = Loaded v → exit_of (body v) = Some e →
      ∃ s', step_by Scoped body (Worker i) s = Some s' ∧
            workers s' !! i = Some (Thread (Leaving e) (todo t)) ∧
            mtx s' = Some i) ∧
  (∀ e,
      at_pc t = Leaving e →
      ∃ s', step_by Scoped body (Worker i) s = Some s' ∧
            workers s' !! i = Some (after_exit e t) ∧
            mtx s' = None) ∧
  (∀ s' t',
      step_by Scoped body (Worker i) s = Some s' →
      workers s' !! i = Some t' →
      in_critical_section t → ¬ in_critical_section t' →
      mtx s' = None ∧ ∃ e, at_pc t = Leaving e ∧ t' = after_exit e t).
Proof.
  intros Hr Ht.
  assert (i < length (workers s)) as Hlen by by eapply lookup_lt_Some.
  assert (in_critical_section t → mtx s = Some i) as Hheld.
  { apply CounterFacts.exclusion_reachable in Hr as [Hex _]. by apply Hex. }
  split; [|split; [|split]].
  - intros Hout Hm.
    apply CounterFacts.owner_inside_reachable in Hr.
    destruct (Hr _ Hm) as (t0 & Ht0 & Hin). by simplify_eq.
  - intros v e Hat He. destruct t as [p m]. simpl in *. subst p.
    specialize (Hheld I).
    destruct (body v) eqn:Hb; simplify_eq/=.
    all: eexists; unfold worker_step; rewrite Ht; simpl; rewrite Hb; simpl.
    all: split; [done|]; split; [by apply list_lookup_insert_eq|done].
  - intros e Hat. destruct t as [p m]. simpl in *. subst p.
    specialize (Hheld I).
    eexists. unfold worker_step. rewrite Ht. simpl. rewrite Hheld. simpl.
    rewrite decide_True by done. simpl.
    split; [done|]. split; [by apply list_lookup_insert_eq|done].
  - intros s' t' Hs Ht' Hin Hout.
    apply CounterFacts.step_by_worker in Hs as (t0 & c & m & t1 & Ht0 & Hw & ->).
    simplify_eq. simpl in *.
    rewrite list_lookup_insert_eq in Ht' by done.
    simplify_eq. by eapply CounterFacts.scoped_exit_step.
Qed.

(** A guarded statement that raises, and the state in which t1 is unwinding
    out of the scope. *)
Definition raising (v : Z) : outcome := Raises.

Definition t1_unwinding : state :=
  State 0 (Some 0) [Thread (Leaving Failure) 1; Thread Idle 1] None.

Lemma t1_unwinding_reachable : rtc (step Scoped raising) main_init t1_unwinding.
Proof.
  do 3 (eapply rtc_l; [exists (Worker 0); vm_compute; reflexivity|]). done.
Qed.

Lemma C5_scoped_guard_releases_witness :
  rtc (step Scoped raising) main_init t1_unwinding ∧
  workers t1_unwinding !! 0 = Some (Thread (Leaving Failure) 1) ∧
  (¬ in_critical_section (Thread (Leaving Failure) 1) → mtx t1_unwinding ≠ Some 0) ∧
  (∀ v e,
      at_pc (Thread (Leaving Failure) 1) = Loaded v → exit_of (raising v) = Some e →
      ∃ s', step_by Scoped raising (Worker 0) t1_unwinding = Some s' ∧
            workers s' !! 0 = Some (Thread (Leaving e) 1) ∧
            mtx s' = Some 0) ∧
  (∀ e,
      at_pc (Thread (Leaving Failure) 1) = Leaving e →
      ∃ s', step_by Scoped raising (Worker 0) t1_unwinding = Some s' ∧
            workers s' !! 0 = Some (after_exit e (Thread (Leaving Failure) 1)) ∧
            mtx s' = None) ∧
  (∀ s' t',
      step_by Scoped raising (Worker 0) t1_unwinding = Some s' →
      workers s' !! 0 = Some t' →
      in_critical_section (Thread (Leaving Failure) 1) →
      ¬ in_critical_section t' →
      mtx s' = None ∧
      ∃ e, at_pc (Thread (Leaving Failure) 1) = Leaving e ∧
           t' = after_exit e (Thread (Leaving Failure) 1)).
Proof.
  split; [exact t1_unwinding_reachable|]. split; [reflexivity|].
  exact (C5_scoped_guard_releases raising 2 1 t1_unwinding 0
           (Thread (Leaving Failure) 1) t1_unwinding_reachable eq_refl).
Defined.

(** C8 (manual unlock is skipped on failure). In mutex.cpp's style, if the
    statement between [m.lock()] and [m.unlock()] raises, the thread leaves
    [add_count] with the mutex still locked by it, and in every state
    reachable afterwards the mutex is still locked by that thread and no
    thread waiting to enter [add_count] can take a step. *)
Theorem C8_manual_unlock_skipped body n k s i t v :
  rtc (step Manual body) (init n k) s →
  workers s !! i = Some t → at_pc t = Loaded v → body v = Raises →
  ∃ s',
    step_by Manual body (Worker i) s = Some s' ∧
    workers s' !! i = Some (Thread Escaped (todo t)) ∧
    ∀ s'', rtc (step Manual body) s' s'' →
      mtx s'' = Some i ∧
      ∀ j tj, workers s'' !! j = Some tj → at_pc tj = Idle →
              step_by Manual body (Worker j) s'' = None.
Proof.
  intros Hr Ht Hat Hv.
  assert (mtx s = Some i) as Hm.
  { apply CounterFacts.exclusion_reachable in Hr as [Hex _].
    apply (Hex _ _ Ht). unfold in_critical_section. by rewrite Hat. }
  assert (i < length (workers s)) as Hlen by by eapply lookup_lt_Some.
  eexists. split; [|split].
  - simpl. rewrite Ht. simpl. unfold worker_step. rewrite Hat, Hv. simpl. done.
  - simpl. by apply list_lookup_insert_eq.
  - intros s'' Hr''.
    assert (CounterFacts.leaked i s'') as Hl.
    { eapply CounterFacts.leaked_forever; [|exact Hr''].
      split; [done|]. eexists. split; [by apply list_lookup_insert_eq|done]. }
    split; [apply Hl|].
    intros j tj Hj Hidle. by eapply CounterFacts.leaked_blocks.
Qed.

Definition t1_loaded : state :=
  State 0 (Some 0) [Thread (Loaded 0) 1; Thread Idle 1] None.

Lemma t1_loaded_reachable : rtc (step Manual raising) main_init t1_loaded.
Proof.
  do 2 (eapply rtc_l; [exists (Worker 0); vm_compute; reflexivity|]). done.
Qed.

Lemma C8_manual_unlock_skipped_witness :
  rtc (step Manual raising) main_init t1_loaded ∧
  ∃ s',
    step_by Manual raising (Worker 0) t1_loaded = Some s' ∧
    workers s' !! 0 = Some (Thread Escaped 1) ∧
    ∀ s'', rtc (step Manual raising) s' s'' →
      mtx s'' = Some 0 ∧
      ∀ j tj, workers s'' !! j = Some tj → at_pc tj = Idle →
              step_by Manual raising (Worker j) s'' = None.
Proof.
  split; [exact t1_loaded_reachable|].
  exact (C8_manual_unlock_skipped raising 2 1 t1_loaded 0 (Thread (Loaded 0) 1) 0%Z
           t1_loaded_reachable eq_refl eq_refl eq_refl).
Defined.

End CounterClaims.

(** ** condition_variable.cpp *)
Module CondVarFacts.
Import CondVar.

(** The steps of an incrementing thread. *)
Inductive adder_move (target : Z) (i : nat) (s : state)
    : adder → Z → Mutex.t → waiter → adder → Prop :=
| am_lock :
    mtx s = None →
    adder_move target i s A_start (count s) (Some (adder_tid i)) (the_waiter s) A_locked
| am_load :
    adder_move target i s A_locked (count s) (mtx s) (the_waiter s) (A_loaded (count s))
| am_store v :
    (v + 1 ≤ int_max)%Z →
    adder_move target i s (A_loaded v) (v + 1) (mtx s) (the_waiter s) A_stored
| am_test_yes :
    count s = target →
    adder_move target i s A_stored (count s) (mtx s) (the_waiter s) A_notify
| am_test_no :
    count s ≠ target →
    adder_move target i s A_stored (count s) (mtx s) (the_waiter s) A_leave
| am_notify :
    adder_move target i s A_notify (count s) (mtx s) (notify_one (the_waiter s)) A_leave
| am_unlock :
    mtx s = Some (adder_tid i) →
    adder_move target i s A_leave (count s) None (the_waiter s) A_done.

Lemma adder_step_move target i s a c m w a' :
  adder_step target i s a = Some (c, m, w, a') → adder_move target i s a c m w a'.
Proof.
  intros Hs. destruct a; simpl in Hs.
  - unfold Mutex.lock in Hs. destruct (mtx s) eqn:Hm; simplify_eq/=. by constructor.
  - simplify_eq. constructor.
  - unfold int_add in Hs. case_decide; simplify_eq/=. constructor. lia.
  - case_decide; simplify_eq; by constructor.
  - simplify_eq. constructor.
  - unfold Mutex.unlock in Hs. destruct (mtx s) eqn:Hm; simplify_eq/=.
    case_decide; simplify_eq/=. by constructor.
  - done.
Qed.

Lemma step_by_adder target i s s' :
  step_by target (Adder i) s = Some s' →
  ∃ a c m w a',
    adders s !! i = Some a ∧
    adder_move target i s a c m w a' ∧
    s' = State c m (<[i := a']> (adders s)) w (printed s) (spurious s).
Proof.
  simpl. intros H.
  destruct (adders s !! i) as [a|] eqn:Ha; simplify_eq/=.
  destruct (adder_step target i s a) as [[[[c m] w] a']|] eqn:Hs; simplify_eq/=.
  apply adder_step_move in Hs. eauto 10.
Qed.

(** The steps of the waiter. *)
Inductive waiter_move (target : Z) (s : state) : state → Prop :=
| wm_lock :
    the_waiter s = W_start ∨ the_waiter s = W_woken →
    mtx s = None →
    waiter_move target s
      (State (count s) (Some waiter_tid) (adders s) W_check (printed s) (spurious s))
| wm_return :
    the_waiter s = W_check → count s = target →
    waiter_move target s
      (State (count s) (mtx s) (adders s) W_print (printed s) (spurious s))
| wm_sleep :
    the_waiter s = W_check → count s ≠ target → mtx s = Some waiter_tid →
    waiter_move target s
      (State (count s) None (adders s) W_asleep (printed s) (spurious s))
| wm_print :
    the_waiter s = W_print →
    waiter_move target s
      (State (count s) (mtx s) (adders s) W_leave (Some (count s)) (spurious s))
| wm_unlock :
    the_waiter s = W_leave → mtx s = Some waiter_tid →
    waiter_move target s
      (State (count s) None (adders s) W_done (printed s) (spurious s)).

Lemma waiter_step_move target s s' :
  waiter_step target s = Some s' → waiter_move target s s'.
Proof.
  unfold waiter_step, Mutex.lock, Mutex.unlock, waiter_tid. intros Hs.
  destruct (the_waiter s) eqn:Hw; try done.
  - destruct (mtx s) eqn:Hm; simplify_eq/=. apply wm_lock; auto.
  - case_decide.
    + simplify_eq. by apply wm_return.
    + destruct (mtx s) eqn:Hm; simplify_eq/=. case_decide; simplify_eq/=.
      by apply wm_sleep.
  - destruct (mtx s) eqn:Hm; simplify_eq/=. apply wm_lock; auto.
  - simplify_eq. by apply wm_print.
  - destruct (mtx s) eqn:Hm; simplify_eq/=. case_decide; simplify_eq/=.
    by apply wm_unlock.
Qed.

Lemma spurious_step_inv s s' :
  spurious_step s = Some s' →
  the_waiter s = W_asleep ∧
  ∃ b, spurious s = S b ∧
       s' = State (count s) (mtx s) (adders s) W_woken (printed s) b.
Proof.
  unfold spurious_step. intros Hs.
  destruct (the_waiter s); try done. destruct (spurious s); simplify_eq. eauto.
Qed.

(** *** Every execution is finite *)

Definition adder_left (a : adder) : nat :=
  match a with
  | A_start => 6 | A_locked => 5 | A_loaded _ => 4 | A_stored => 3
  | A_notify => 2 | A_leave => 1 | A_done => 0
  end.

Definition waiter_left (w : waiter) : nat :=
  match w with
  | W_start | W_woken => 6
  | W_check => 5 | W_asleep => 4 | W_print => 2 | W_leave => 1 | W_done => 0
  end.

(** A wake-up sends the waiter round its loop once more; it is paid for by
    the notifying step or by the spurious budget. *)
Definition fuel (s : state) : nat :=
  3 * total adder_left (adders s) + 3 * spurious s + waiter_left (the_waiter s).

Lemma notify_one_left w : waiter_left (notify_one w) ≤ waiter_left w + 2.
Proof. destruct w; simpl; lia. Qed.

Lemma cv_step_fuel target s s' : step target s s' → fuel s' < fuel s.
Proof.
  intros [[j| |] Hs].
  - apply step_by_adder in Hs as (a & c & m & w & a' & Ha & Hmv & ->).
    unfold fuel; cbn [adders spurious the_waiter].
    pose proof (total_insert adder_left _ _ _ a' Ha) as Htot.
    pose proof (notify_one_left (the_waiter s)).
    destruct Hmv; simpl in *; lia.
  - apply waiter_step_move in Hs. unfold fuel.
    destruct Hs as [[Hw|Hw] _|Hw _|Hw _ _|Hw|Hw _]; cbn [adders spurious the_waiter];
      rewrite Hw; simpl; lia.
  - apply spurious_step_inv in Hs as (Hw & b & Hb & ->). unfold fuel.
    cbn [adders spurious the_waiter]. rewrite Hw, Hb. simpl. lia.
Qed.

(** *** The invariant *)

(** 1 once the thread has written its increment. *)
Definition stored (a : adder) : nat :=
  match a with
  | A_stored | A_notify | A_leave | A_done => 1
  | _ => 0
  end.

Lemma stored_le_length l : total stored l ≤ length l.
Proof.
  unfold total. induction l as [|a l IH]; [done|].
  change (stored a + sum_list (stored <$> l) ≤ S (length l)).
  destruct a; simpl; lia.
Qed.

Lemma stored_lt_length l i a :
  l !! i = Some a → stored a = 0 → total stored l < length l.
Proof.
  unfold total. revert i. induction l as [|b l IH]; intros [|i] Hi Hz; simplify_eq/=.
  - change (stored a + sum_list (stored <$> l) < S (length l)).
    pose proof (stored_le_length l). unfold total in *. lia.
  - change (stored b + sum_list (stored <$> l) < S (length l)).
    specialize (IH _ Hi Hz). destruct b; simpl; lia.
Qed.

Lemma all_done_stored l :
  Forall (λ a, a = A_done) l → total stored l = length l.
Proof.
  unfold total. induction 1 as [|a l -> _ IH]; [done|].
  change (1 + sum_list (stored <$> l) = S (length l)). lia.
Qed.

(** The increment that makes [count] reach the target has been written and
    its author has not yet passed [cv.notify_one()]. *)
Definition notifier_pending (s : state) : Prop :=
  ∃ i, adders s !! i = Some A_stored ∨ adders s !! i = Some A_notify.

Section invariant.
Context (n : nat).
#[local] Abbreviation target := (Z.of_nat n).

Record inv (s : state) : Prop := {
  i_len : length (adders s) = n;
  i_adder_in : ∀ i a, adders s !! i = Some a → adder_inside a →
               mtx s = Some (adder_tid i);
  i_waiter_in : waiter_inside (the_waiter s) → mtx s = Some waiter_tid;
  i_owner : ∀ h, mtx s = Some h →
            match h with
            | 0 => waiter_inside (the_waiter s)
            | S i => ∃ a, adders s !! i = Some a ∧ adder_inside a
            end;
  i_count : count s = Z.of_nat (total stored (adders s));
  i_fresh : ∀ i v, adders s !! i = Some (A_loaded v) → v = count s;
  i_notify : ∀ i, adders s !! i = Some A_notify → count s = target;
  i_returned : waiter_returned (the_waiter s) → count s = target;
  i_printed : ∀ v, printed s = Some v → v = target;
  i_left : the_waiter s = W_leave ∨ the_waiter s = W_done →
           printed s = Some target;
  i_asleep : the_waiter s = W_asleep →
             (count s < target)%Z ∨ notifier_pending s
}.

Lemma cv_inv_init b : inv (init n b).
Proof.
  split; simpl; try done.
  - apply length_replicate.
  - intros i a Ha. apply lookup_replicate in Ha as [-> _]. done.
  - rewrite total_replicate. simpl. lia.
  - intros i v Ha. by apply lookup_replicate in Ha as [? _].
  - intros i Ha. by apply lookup_replicate in Ha as [? _].
  - by intros [?|?].
Qed.

Lemma inv_count_le s : inv s → (count s ≤ target)%Z.
Proof.
  intros H. rewrite (i_count _ H), <-(i_len _ H).
  pose proof (stored_le_length (adders s)). lia.
Qed.

Lemma notify_one_inside w : waiter_inside (notify_one w) → waiter_inside w.
Proof. by destruct w. Qed.

Lemma notify_one_inside_id w : waiter_inside w → notify_one w = w.
Proof. by destruct w. Qed.

Lemma notify_one_returned w : waiter_returned (notify_one w) → waiter_returned w.
Proof. by destruct w. Qed.

Lemma notify_one_left_or_done w :
  notify_one w = W_leave ∨ notify_one w = W_done → w = W_leave ∨ w = W_done.
Proof. destruct w; simpl; intros [?|?]; simplify_eq; auto. Qed.

Lemma notify_one_not_asleep w : notify_one w ≠ W_asleep.
Proof. by destruct w. Qed.

Lemma inv_adder_step s j a c m w a' :
  inv s →
  adders s !! j = Some a →
  adder_move target j s a c m w a' →
  inv (State c m (<[j := a']> (adders s)) w (printed s) (spurious s)).
Proof.
  intros Hinv Ha Hmv.
  pose proof (inv_count_le _ Hinv) as Hle.
  destruct Hinv as [Hlen Hain Hwin Hown Hcnt Hfr Hnot Hret Hpr Hlf Has].
  assert (j < length (adders s)) as Hj by by eapply lookup_lt_Some.
  pose proof (total_insert stored _ _ _ a' Ha) as Htot.
  pose proof (Hain _ _ Ha) as Hjin.
  split; cbn [count mtx adders the_waiter printed spurious].
  - by rewrite length_insert.
  - intros i b Hi Hin.
    apply lookup_update in Hi as [[-> ->]|[Hne Hi]].
    + destruct Hmv; simpl in *; auto; done.
    + specialize (Hain _ _ Hi Hin).
      destruct Hmv; simpl in *; try done; try congruence.
      specialize (Hjin I). unfold adder_tid in *. congruence.
  - intros Hin. destruct Hmv; simpl in *; auto.
    + specialize (Hwin Hin). congruence.
    + by apply Hwin, notify_one_inside.
    + specialize (Hwin Hin). unfold adder_tid, waiter_tid in *. congruence.
  - intros h Hm.
    assert (mtx s = Some h →
            match h with
            | 0 => waiter_inside w
            | S i => ∃ b, <[j:=a']> (adders s) !! i = Some b ∧ adder_inside b
            end) as Hsame.
    { intros Hm'. specialize (Hown _ Hm'). destruct h as [|i].
      - destruct Hmv; simpl in *; try done.
        by rewrite notify_one_inside_id.
      - destruct Hown as (b & Hb & Hbin).
        destruct (decide (i = j)) as [->|Hne].
        + exists a'. split; [by apply list_lookup_insert_eq|].
          simplify_eq. destruct Hmv; simpl in *; try done; congruence.
        + exists b. by rewrite list_lookup_insert_ne by congruence. }
    destruct Hmv; simpl in *; try (by apply Hsame); try done.
    simplify_eq. unfold adder_tid. exists A_locked.
    split; [by apply list_lookup_insert_eq|done].
  - destruct Hmv; simpl in *; try lia.
    specialize (Hfr _ _ Ha). lia.
  - intros i v Hi.
    apply lookup_update in Hi as [[-> Heq]|[Hne Hi]].
    + destruct Hmv; simpl in *; congruence.
    + pose proof (Hfr _ _ Hi) as Hv.
      destruct Hmv; simpl in *; try done.
      specialize (Hain _ _ Hi I). specialize (Hjin I).
      unfold adder_tid in *. congruence.
  - intros i Hi.
    apply lookup_update in Hi as [[-> Heq]|[Hne Hi]].
    + destruct Hmv; simpl in *; congruence.
    + pose proof (Hnot _ Hi) as Hv.
      destruct Hmv; simpl in *; try done.
      specialize (Hain _ _ Hi I). specialize (Hjin I).
      unfold adder_tid in *. congruence.
  - intros Hr.
    destruct Hmv; simpl in *; auto.
    + specialize (Hret Hr).
      pose proof (stored_lt_length _ _ _ Ha eq_refl). lia.
    + by apply Hret, notify_one_returned.
  - done.
  - intros Hw. apply Hlf. destruct Hmv; simpl in *; auto.
    by apply notify_one_left_or_done.
  - intros Hw.
    assert (notifier_pending s → a ≠ A_stored → a ≠ A_notify →
            notifier_pending
              (State c m (<[j:=a']> (adders s)) w (printed s) (spurious s))) as Hkeep.
    { intros [i Hi] H1 H2. exists i. simpl.
      rewrite list_lookup_insert_ne; [done|]. intros ->. destruct Hi; congruence. }
    destruct Hmv; simpl in *.
    + destruct (Has Hw) as [?|?]; [by left|right; by apply Hkeep].
    + destruct (Has Hw) as [?|?]; [by left|right; by apply Hkeep].
    + right. exists j. left. simpl. by apply list_lookup_insert_eq.
    + right. exists j. right. simpl. by apply list_lookup_insert_eq.
    + left. lia.
    + by apply notify_one_not_asleep in Hw.
    + destruct (Has Hw) as [?|?]; [by left|right; by apply Hkeep].
Qed.

Lemma inv_waiter_step s s' : inv s → waiter_move target s s' → inv s'.
Proof.
  intros Hinv Hmv.
  pose proof (inv_count_le _ Hinv) as Hle.
  destruct Hinv as [Hlen Hain Hwin Hown Hcnt Hfr Hnot Hret Hpr Hlf Has].
  destruct Hmv as [Hw Hm|Hw Hc|Hw Hc Hm|Hw|Hw Hm];
    split; cbn [count mtx adders the_waiter printed spurious]; try done;
    try (intros [?|?]; congruence).
  - intros i a Hi Hin. specialize (Hain _ _ Hi Hin). congruence.
  - by intros h [= <-].
  - intros _. apply Hwin. by rewrite Hw.
  - intros h Hh. specialize (Hown _ Hh). by destruct h.
  - intros i a Hi Hin. specialize (Hain _ _ Hi Hin).
    unfold adder_tid, waiter_tid in *. congruence.
  - intros _. left. lia.
  - intros _. apply Hwin. by rewrite Hw.
  - intros h Hh. specialize (Hown _ Hh). by destruct h.
  - intros _. apply Hret. by rewrite Hw.
  - intros v [= <-]. apply Hret. by rewrite Hw.
  - intros _. f_equal. apply Hret. by rewrite Hw.
  - intros i a Hi Hin. specialize (Hain _ _ Hi Hin).
    unfold adder_tid, waiter_tid in *. congruence.
  - intros _. apply Hret. by rewrite Hw.
  - intros _. apply Hlf. auto.
Qed.

Lemma inv_spurious_step s s' : inv s → spurious_step s = Some s' → inv s'.
Proof.
  intros [Hlen Hain Hwin Hown Hcnt Hfr Hnot Hret Hpr Hlf Has] Hs.
  apply spurious_step_inv in Hs as (Hw & b & Hb & ->).
  split; cbn [count mtx adders the_waiter printed spurious]; try done.
  - intros h Hh. specialize (Hown _ Hh). destruct h; [|done].
    by rewrite Hw in Hown.
  - intros [?|?]; congruence.
Qed.

Lemma cv_inv_step s s' : inv s → step target s s' → inv s'.
Proof.
  intros Hinv [[j| |] Hs].
  - apply step_by_adder in Hs as (a & c & m & w & a' & Ha & Hmv & ->).
    by eapply inv_adder_step.
  - apply waiter_step_move in Hs. by eapply inv_waiter_step.
  - by eapply inv_spurious_step.
Qed.

Lemma cv_inv_reachable b s : rtc (step target) (init n b) s → inv s.
Proof.
  apply (invariant_rtc _ inv); [apply cv_inv_init|]. intros ???. by apply cv_inv_step.
Qed.

(** *** Progress *)

Lemma adder_can_step i s a r :
  adders s !! i = Some a →
  adder_step target i s a = Some r →
  ∃ s', step target s s'.
Proof.
  intros Ha Hs. destruct r as [[[c m] w] a'].
  eexists. exists (Adder i). simpl. rewrite Ha. simpl. rewrite Hs. done.
Qed.

Lemma waiter_can_step s s' : waiter_step target s = Some s' → ∃ s', step target s s'.
Proof. intros Hs. exists s', Waiter. done. Qed.

Lemma cv_inv_progress s :
  (target ≤ int_max)%Z →
  inv s → all_done s ∨ ∃ s', step target s s'.
Proof.
  intros Hrange Hinv.
  pose proof (inv_count_le _ Hinv) as Hle.
  destruct Hinv as [Hlen Hain Hwin Hown Hcnt Hfr Hnot Hret Hpr Hlf Has].
  destruct (mtx s) as [[|h]|] eqn:Hm.
  - (* the waiter holds the mutex *)
    right. specialize (Hown _ eq_refl). simpl in Hown.
    destruct (the_waiter s) eqn:Hw; try done.
    + destruct (decide (count s = target)) as [Hc|Hc].
      * eapply waiter_can_step. unfold waiter_step. rewrite Hw.
        by rewrite decide_True.
      * eapply waiter_can_step. unfold waiter_step. rewrite Hw.
        rewrite decide_False by done. rewrite Hm. simpl. done.
    + eapply waiter_can_step. unfold waiter_step. by rewrite Hw.
    + eapply waiter_can_step. unfold waiter_step. rewrite Hw, Hm. simpl. done.
  - (* an incrementing thread holds the mutex *)
    right. destruct (Hown _ eq_refl) as (a & Ha & Hin).
    destruct a; try done.
    + by eapply (adder_can_step h _ A_locked).
    + eapply (adder_can_step h); [done|]. simpl.
      specialize (Hfr _ _ Ha). subst v.
      pose proof (stored_lt_length _ _ _ Ha eq_refl).
      unfold int_add. rewrite decide_True; [done|]. unfold int_min. lia.
    + by eapply (adder_can_step h _ A_stored).
    + by eapply (adder_can_step h _ A_notify).
    + eapply (adder_can_step h); [done|]. simpl. rewrite Hm. simpl.
      unfold adder_tid. by rewrite decide_True.
  - (* the mutex is free *)
    destruct (decide (Forall (λ a, a = A_done) (adders s))) as [Hall|Hnot_all].
    + destruct (the_waiter s) eqn:Hw.
      * right. eapply waiter_can_step. unfold waiter_step. rewrite Hw, Hm. done.
      * by specialize (Hwin I).
      * (* asleep with everything written and notified: impossible *)
        exfalso. destruct (Has eq_refl) as [Hlt|[i Hi]].
        -- apply all_done_stored in Hall. lia.
        -- rewrite Forall_lookup in Hall. destruct Hi as [Hi|Hi];
             by specialize (Hall _ _ Hi).
      * right. eapply waiter_can_step. unfold waiter_step. rewrite Hw, Hm. done.
      * by specialize (Hwin I).
      * by specialize (Hwin I).
      * by left.
    + right. apply not_Forall_Exists in Hnot_all; [|apply _].
      apply list.Exists_exists in Hnot_all as (a & Hel & Hnd).
      apply list_elem_of_lookup in Hel as [i Ha].
      pose proof (Hain _ _ Ha) as Hin.
      destruct a; try (specialize (Hin I); congruence).
      * eapply (adder_can_step i); [done|]. simpl. rewrite Hm. done.
      * by destruct Hnd.
Qed.

(** Every execution ends, with the three threads finished and 2 (the
    target) printed. *)
Definition finished_printing (s : state) : Prop :=
  all_done s ∧ count s = target ∧ printed s = Some target.

Lemma inv_all_done s : inv s → all_done s → finished_printing s.
Proof.
  intros Hinv [Hall Hw]. split; [done|]. split.
  - apply (i_returned _ Hinv). by rewrite Hw.
  - apply (i_left _ Hinv). auto.
Qed.

Lemma always_finishes s :
  (target ≤ int_max)%Z →
  inv s → always_reaches (step target) finished_printing s.
Proof.
  intros Hrange.
  apply (always_reaches_measure _ inv finished_printing fuel).
  - apply cv_inv_step.
  - intros s1 s2 _. apply cv_step_fuel.
  - intros s1 H1. destruct (cv_inv_progress s1 Hrange H1) as [Hd|?]; [|by right].
    left. by apply inv_all_done.
Qed.

(** From wherever an execution has got to, [cv.wait] returns. *)
Lemma always_returns s :
  (target ≤ int_max)%Z →
  inv s → always_reaches (step target) (λ s, waiter_returned (the_waiter s)) s.
Proof.
  intros Hrange Hinv. eapply always_reaches_mono; [|by apply always_finishes].
  intros s1 ((_ & Hw) & _). by rewrite Hw.
Qed.

End invariant.
End CondVarFacts.

(** ** The claims about condition_variable.cpp *)
Module CondVarClaims.
Import CondVar.

Lemma cv_reachable_inv b s :
  rtc condition_variable_cpp (main_init b) s → CondVarFacts.inv 2 s.
Proof. apply (CondVarFacts.cv_inv_reachable 2 b s). Qed.

Lemma two_in_range : (Z.of_nat 2 ≤ int_max)%Z.
Proof. unfold int_max. lia. Qed.

(** Only the waiter's own evaluation of the predicate makes [cv.wait]
    return. *)
Lemma wait_return_step target a s s' :
  step_by target a s = Some s' →
  ¬ waiter_returned (the_waiter s) → waiter_returned (the_waiter s') →
  a = Waiter ∧ the_waiter s = W_check ∧ count s = target.
Proof.
  intros Hs Hbefore Hafter. destruct a as [j| |].
  - apply CondVarFacts.step_by_adder in Hs as (p & c & m & w & p' & Hp & Hmv & ->).
    simpl in *. destruct Hmv; try done.
    by apply CondVarFacts.notify_one_returned in Hafter.
  - apply CondVarFacts.waiter_step_move in Hs.
    destruct Hs as [[Hw|Hw] _|Hw Hc|Hw _ _|Hw|Hw _]; simpl in *; try done.
    + by rewrite Hw in Hbefore.
    + by rewrite Hw in Hbefore.
  - by apply CondVarFacts.spurious_step_inv in Hs as (_ & b & _ & ->).
Qed.

(** C3 (condition correctness). In every state an execution of
    condition_variable.cpp can reach, whatever the number of spurious
    wake-ups: if [cv.wait(lk, pred)] has returned then [count] is 2, and
    anything printed is 2; the step by which [cv.wait] returns is the
    waiter's own evaluation of the predicate, made with [count == 2] and with
    the mutex held by the waiter; and from that state on, along every
    interleaving, [cv.wait] does return. *)
Theorem C3_wait_returns_exactly_when_count_is_two b s :
  rtc condition_variable_cpp (main_init b) s →
  (waiter_returned (the_waiter s) → count s = 2%Z) ∧
  (∀ v, printed s = Some v → v = 2%Z) ∧
  (∀ a s',
      step_by 2 a s = Some s' →
      ¬ waiter_returned (the_waiter s) → waiter_returned (the_waiter s') →
      a = Waiter ∧ the_waiter s = W_check ∧ count s = 2%Z ∧
      mtx s = Some waiter_tid) ∧
  always_reaches condition_variable_cpp (λ s, waiter_returned (the_waiter s)) s.
Proof.
  intros Hr. apply cv_reachable_inv in Hr. split; [|split; [|split]].
  - apply (CondVarFacts.i_returned _ _ Hr).
  - apply (CondVarFacts.i_printed _ _ Hr).
  - intros a s' Hs Hbefore Hafter.
    destruct (wait_return_step _ _ _ _ Hs Hbefore Hafter) as (-> & Hw & Hc).
    repeat split; try done.
    apply (CondVarFacts.i_waiter_in _ _ Hr). by rewrite Hw.
  - apply (CondVarFacts.always_returns 2 s two_in_range Hr).
Qed.

(** The waiter went to sleep first; t1 and t2 have both written, and t2 is
    about to notify. *)
Definition t2_about_to_notify : state :=
  State 2 (Some (adder_tid 1)) [A_done; A_notify] W_asleep None 0.

Lemma t2_about_to_notify_reachable :
  rtc condition_variable_cpp (main_init 0) t2_about_to_notify.
Proof.
  do 2 (eapply rtc_l; [exists Waiter; vm_compute; reflexivity|]).
  do 5 (eapply rtc_l; [exists (Adder 0); vm_compute; reflexivity|]).
  do 4 (eapply rtc_l; [exists (Adder 1); vm_compute; reflexivity|]).
  done.
Qed.

Lemma C3_wait_returns_exactly_when_count_is_two_witness :
  rtc condition_variable_cpp (main_init 0) t2_about_to_notify ∧
  (waiter_returned (the_waiter t2_about_to_notify) → count t2_about_to_notify = 2%Z) ∧
  (∀ v, printed t2_about_to_notify = Some v → v = 2%Z) ∧
  (∀ a s',
      step_by 2 a t2_about_to_notify = Some s' →
      ¬ waiter_returned (the_waiter t2_about_to_notify) →
      waiter_returned (the_waiter s') →
      a = Waiter ∧ the_waiter t2_about_to_notify = W_check ∧
      count t2_about_to_notify = 2%Z ∧
      mtx t2_about_to_notify = Some waiter_tid) ∧
  always_reaches condition_variable_cpp (λ s, waiter_returned (the_waiter s))
    t2_about_to_notify.
Proof.
  split; [exact t2_about_to_notify_reachable|].
  exact (C3_wait_returns_exactly_when_count_is_two 0 t2_about_to_notify
           t2_about_to_notify_reachable).
Defined.

(** C10 (the waiter terminates). Whatever the number of spurious wake-ups,
    every interleaving of condition_variable.cpp ends, with the three
    threads finished and 2 printed.  In particular a waiter that only starts
    once both increments are complete takes the mutex, finds the predicate
    true on its first evaluation and returns from [cv.wait] without ever
    blocking on [cv]. *)
Theorem C10_waiter_always_terminates b :
  always_reaches condition_variable_cpp
    (λ s, all_done s ∧ count s = 2%Z ∧ printed s = Some 2%Z)
    (main_init b) ∧
  ∀ s, rtc condition_variable_cpp (main_init b) s →
       Forall (λ a, a = A_done) (adders s) → the_waiter s = W_start →
       ∃ s1 s2,
         step_by 2 Waiter s = Some s1 ∧ the_waiter s1 = W_check ∧
         step_by 2 Waiter s1 = Some s2 ∧ the_waiter s2 = W_print.
Proof.
  split.
  - apply (CondVarFacts.always_finishes 2 _ two_in_range).
    apply CondVarFacts.cv_inv_init.
  - intros s Hr Hall Hw. apply cv_reachable_inv in Hr.
    assert (mtx s = None) as Hm.
    { destruct (mtx s) as [h|] eqn:Hm; [|done].
      pose proof (CondVarFacts.i_owner _ _ Hr _ Hm) as Hown. destruct h as [|i].
      - by rewrite Hw in Hown.
      - destruct Hown as (a & Ha & Hin). rewrite Forall_lookup in Hall.
        by rewrite (Hall _ _ Ha) in Hin. }
    assert (count s = 2%Z) as Hc.
    { rewrite (CondVarFacts.i_count _ _ Hr).
      rewrite (CondVarFacts.all_done_stored _ Hall).
      by rewrite (CondVarFacts.i_len _ _ Hr). }
    eexists _, _. simpl. unfold waiter_step. rewrite Hw, Hm. simpl.
    split; [done|]. split; [done|].
    rewrite decide_True by done. done.
Qed.

(** The situation of C10's second part does arise: both increments complete
    before the waiter has started. *)
Lemma late_waiter_reachable b :
  rtc condition_variable_cpp (main_init b)
    (State 2 None [A_done; A_done] W_start None b).
Proof.
  do 5 (eapply rtc_l; [exists (Adder 0); vm_compute; reflexivity|]).
  do 6 (eapply rtc_l; [exists (Adder 1); vm_compute; reflexivity|]).
  done.
Qed.

End CondVarClaims.

(** ** rwlock.cpp *)
Module RWLockFacts.
Import SharedMutex RWLock.

(** The steps of a thread. *)
Inductive move (p : policy) (s : state)
    : thread → Z → SharedMutex.t → list Z → thread → Prop :=
| mv_acquire_shared :
    admits_reader p (lock s) = true →
    move p s (Reader R_start) (count s)
      (Lock (S (reader_count (lock s))) (writer_active (lock s))
         (writers_waiting (lock s)))
      (output s) (Reader R_locked)
| mv_print :
    move p s (Reader R_locked) (count s) (lock s) (output s ++ [count s])
      (Reader R_printed)
| mv_release_shared r :
    reader_count (lock s) = S r →
    move p s (Reader R_printed) (count s)
      (Lock r (writer_active (lock s)) (writers_waiting (lock s)))
      (output s) (Reader R_done)
| mv_enqueue :
    move p s (Writer Wr_start) (count s)
      (Lock (reader_count (lock s)) (writer_active (lock s))
         (S (writers_waiting (lock s))))
      (output s) (Writer Wr_waiting)
| mv_acquire_exclusive q :
    reader_count (lock s) = 0 → writer_active (lock s) = false →
    writers_waiting (lock s) = S q →
    move p s (Writer Wr_waiting) (count s) (Lock 0 true q) (output s)
      (Writer Wr_locked)
| mv_load :
    move p s (Writer Wr_locked) (count s) (lock s) (output s)
      (Writer (Wr_loaded (count s)))
| mv_store v :
    (v + 3 ≤ int_max)%Z →
    move p s (Writer (Wr_loaded v)) (v + 3) (lock s) (output s) (Writer Wr_stored)
| mv_release_exclusive :
    writer_active (lock s) = true →
    move p s (Writer Wr_stored) (count s)
      (Lock (reader_count (lock s)) false (writers_waiting (lock s)))
      (output s) (Writer Wr_done).

Lemma thread_step_move p s t c l o t' :
  thread_step p s t = Some (c, l, o, t') → move p s t c l o t'.
Proof.
  intros Hs. destruct t as [r|w]; simpl in Hs.
  - destruct r; simpl in Hs; simplify_eq/=.
    + unfold acquire_shared in Hs.
      destruct (admits_reader p (lock s)) eqn:Had; simplify_eq/=. by constructor.
    + constructor.
    + unfold release_shared in Hs.
      destruct (reader_count (lock s)) eqn:Hr; simplify_eq/=. by constructor.
  - destruct w; simpl in Hs; simplify_eq/=.
    + constructor.
    + unfold acquire_exclusive in Hs.
      destruct (reader_count (lock s)) eqn:Hr; simplify_eq/=.
      destruct (writer_active (lock s)) eqn:Hw; simplify_eq/=.
      destruct (writers_waiting (lock s)) eqn:Hq; simplify_eq/=. by constructor.
    + constructor.
    + unfold int_add in Hs. case_decide; simplify_eq/=. constructor. lia.
    + unfold release_exclusive in Hs.
      destruct (writer_active (lock s)) eqn:Hw; simplify_eq/=. by constructor.
Qed.

Lemma step_by_move p i s s' :
  step_by p i s = Some s' →
  ∃ t c l o t',
    pool s !! i = Some t ∧ move p s t c l o t' ∧
    s' = State c l (<[i := t']> (pool s)) o.
Proof.
  unfold step_by. intros H.
  destruct (pool s !! i) as [t|] eqn:Ht; simplify_eq/=.
  destruct (thread_step p s t) as [[[[c l] o] t']|] eqn:Hs; simplify_eq/=.
  apply thread_step_move in Hs. eauto 10.
Qed.

Lemma can_step p i s t r :
  pool s !! i = Some t → thread_step p s t = Some r → ∃ s', step p s s'.
Proof.
  intros Ht Hs. destruct r as [[[c l] o] t'].
  eexists. exists i. unfold step_by. rewrite Ht. simpl. rewrite Hs. done.
Qed.

(** *** Every execution is finite *)

(** Steps a thread can still take. *)
Definition steps_left (t : thread) : nat :=
  match t with
  | Reader R_start => 3 | Reader R_locked => 2 | Reader R_printed => 1
  | Reader R_done => 0
  | Writer Wr_start => 5 | Writer Wr_waiting => 4 | Writer Wr_locked => 3
  | Writer (Wr_loaded _) => 2 | Writer Wr_stored => 1 | Writer Wr_done => 0
  end.

Definition fuel (s : state) : nat := total steps_left (pool s).

Lemma rw_step_fuel p s s' : step p s s' → fuel s' < fuel s.
Proof.
  intros [i Hs].
  apply step_by_move in Hs as (t & c & l & o & t' & Ht & Hmv & ->).
  unfold fuel; cbn [pool].
  pose proof (total_insert steps_left _ _ _ t' Ht) as Htot.
  destruct Hmv; simpl in *; lia.
Qed.

(** *** The invariant *)

Lemma wrote_le_writer t : wrote t ≤ is_writer t.
Proof. destruct t as [r|w]; [done|]. destruct w; simpl; lia. Qed.

Lemma total_spawn (f : thread → nat) roles :
  f (Reader R_start) = 0 → f (Writer Wr_start) = 0 →
  total f (spawn <$> roles) = 0.
Proof.
  intros Hr Hw. unfold total. induction roles as [|r l IH]; [done|].
  change (f (spawn r) + sum_list (f <$> (spawn <$> l)) = 0).
  rewrite IH. destruct r; simpl; lia.
Qed.

Section invariant.
Context (p : policy) (nw : nat).

(** The lock's fields count the threads at the corresponding places, [count]
    is three times the number of completed writes, and everything printed is
    such a number. *)
Record inv (s : state) : Prop := {
  r_readers : reader_count (lock s) = total reading (pool s);
  r_writer : Nat.b2n (writer_active (lock s)) = total writing (pool s);
  r_waiting : writers_waiting (lock s) = total waiting (pool s);
  r_excl : writer_active (lock s) = true → reader_count (lock s) = 0;
  r_count : count s = (3 * Z.of_nat (total wrote (pool s)))%Z;
  r_fresh : ∀ i v, pool s !! i = Some (Writer (Wr_loaded v)) → v = count s;
  r_writers : total is_writer (pool s) = nw;
  r_output : Forall (λ v, ∃ j, j ≤ nw ∧ v = (3 * Z.of_nat j)%Z) (output s)
}.

Lemma inv_wrote_le s : inv s → total wrote (pool s) ≤ nw.
Proof.
  intros H. rewrite <-(r_writers _ H). apply total_le, wrote_le_writer.
Qed.

Lemma rw_inv_init roles :
  nw = total is_writer (spawn <$> roles) → inv (init roles).
Proof.
  intros ->. split; simpl; try done.
  - by rewrite total_spawn.
  - by rewrite total_spawn.
  - by rewrite total_spawn.
  - by rewrite total_spawn.
  - intros i v Hi. apply list_lookup_fmap_Some in Hi as (r & Hr & _). by destruct r.
Qed.

Lemma rw_inv_step s s' : inv s → step p s s' → inv s'.
Proof.
  intros Hinv [i Hs].
  pose proof (inv_wrote_le _ Hinv) as Hwle.
  destruct Hinv as [Hrd Hwr Hwt Hex Hcnt Hfr Hnw Hout].
  apply step_by_move in Hs as (t & c & l & o & t' & Ht & Hmv & ->).
  pose proof (total_insert reading _ _ _ t' Ht) as Hreading.
  pose proof (total_insert writing _ _ _ t' Ht) as Hwriting.
  pose proof (total_insert waiting _ _ _ t' Ht) as Hwaiting.
  pose proof (total_insert wrote _ _ _ t' Ht) as Hwrote.
  pose proof (total_insert is_writer _ _ _ t' Ht) as Hisw.
  pose proof (total_lookup_le reading _ _ _ Ht) as Hrle.
  pose proof (total_lookup_le writing _ _ _ Ht) as Hwrle.
  assert (∀ j v, <[i:=t']> (pool s) !! j = Some (Writer (Wr_loaded v)) →
          t' ≠ Writer (Wr_loaded v) → v = count s) as Hkeep.
  { intros j v Hj Hne.
    apply lookup_update in Hj as [[-> Heq]|[_ Hj]]; [congruence|].
    by eapply Hfr. }
  split; cbn [count lock pool output reader_count writer_active writers_waiting].
  - destruct Hmv; simpl in *; lia.
  - unfold admits_reader in *.
    destruct Hmv; destruct (writer_active (lock s)); simpl in *; lia.
  - destruct Hmv; simpl in *; lia.
  - destruct Hmv as [Hadm| |r Hr| | | | |]; simpl in *; auto; try done.
    + intros Hw. unfold admits_reader in Hadm. by rewrite Hw in Hadm.
    + intros Hw. specialize (Hex Hw). lia.
  - destruct Hmv; simpl in *; try lia.
    specialize (Hfr _ _ Ht). lia.
  - intros j v Hj.
    destruct Hmv as [| | | | | |v0 Hv0|]; simpl in *; try (by apply (Hkeep j)).
    + apply lookup_update in Hj as [[-> Heq]|[_ Hj]]; [congruence|].
      by eapply Hfr.
    + (* the write: no other writer is inside *)
      apply lookup_update in Hj as [[-> Heq]|[Hne Hj]]; [done|].
      exfalso.
      pose proof (total_insert writing _ _ _ (Reader R_done) Ht) as H1.
      assert (<[i:=Reader R_done]> (pool s) !! j = Some (Writer (Wr_loaded v))) as Hj'.
      { by rewrite list_lookup_insert_ne by congruence. }
      pose proof (total_lookup_le writing _ _ _ Hj') as H2.
      simpl in *. destruct (writer_active (lock s)); simpl in *; lia.
  - destruct Hmv; simpl in *; lia.
  - destruct Hmv; simpl in *; try done.
    apply Forall_app. split; [done|]. apply Forall_singleton.
    exists (total wrote (pool s)). split; [lia|done].
Qed.

Lemma rw_inv_reachable roles s :
  nw = total is_writer (spawn <$> roles) →
  rtc (step p) (init roles) s → inv s.
Proof.
  intros Hnw. apply (invariant_rtc _ inv); [by apply rw_inv_init|].
  intros ???. by apply rw_inv_step.
Qed.

(** *** Progress and termination *)

Lemma holder_can_step s i t :
  (3 * Z.of_nat nw ≤ int_max)%Z →
  inv s → pool s !! i = Some t → 0 < reading t + writing t →
  ∃ s', step p s s'.
Proof.
  intros Hrange Hinv Ht Hin.
  pose proof (total_lookup_le reading _ _ _ Ht) as Hrle.
  pose proof (total_lookup_le writing _ _ _ Ht) as Hwle.
  pose proof (r_readers _ Hinv) as Hrd. pose proof (r_writer _ Hinv) as Hwr.
  destruct t as [[]|[]]; simpl in *; try lia.
  - by eapply (can_step p i).
  - destruct (reader_count (lock s)) as [|r] eqn:Hr; [lia|].
    eapply (can_step p i); [done|]. simpl. unfold release_shared. by rewrite Hr.
  - by eapply (can_step p i).
  - eapply (can_step p i); [done|]. simpl.
    pose proof (r_fresh _ Hinv _ _ Ht) as ->.
    pose proof (total_lt wrote is_writer _ _ _ wrote_le_writer Ht) as Hlt.
    rewrite (r_writers _ Hinv) in Hlt. rewrite (r_count _ Hinv).
    unfold int_add. rewrite decide_True; [done|]. unfold int_min. simpl in Hlt. lia.
  - destruct (writer_active (lock s)) eqn:Hw; [|simpl in *; lia].
    eapply (can_step p i); [done|]. simpl. unfold release_exclusive. by rewrite Hw.
Qed.

Lemma rw_inv_progress s :
  (3 * Z.of_nat nw ≤ int_max)%Z →
  inv s → Forall finished (pool s) ∨ ∃ s', step p s s'.
Proof.
  intros Hrange Hinv.
  destruct (decide (Forall finished (pool s))) as [|Hnot]; [by left|right].
  destruct (decide (0 < total reading (pool s) + total writing (pool s))) as [Hheld|Hfree].
  - (* somebody holds the lock *)
    destruct (decide (0 < total reading (pool s))) as [Hr|Hr].
    + destruct (total_positive reading _ Hr) as (i & t & Ht & Hpos).
      eapply (holder_can_step s i t); [done..|lia].
    + destruct (total_positive writing (pool s)) as (i & t & Ht & Hpos); [lia|].
      eapply (holder_can_step s i t); [done..|lia].
  - (* the lock is free *)
    pose proof (r_readers _ Hinv) as Hrd. pose proof (r_writer _ Hinv) as Hwr.
    pose proof (r_waiting _ Hinv) as Hwt.
    assert (reader_count (lock s) = 0) as Hrc by lia.
    assert (writer_active (lock s) = false) as Hwa.
    { destruct (writer_active (lock s)); [simpl in *; lia|done]. }
    assert (∀ i, pool s !! i = Some (Writer Wr_waiting) → ∃ s', step p s s') as Hqueued.
    { intros i Hi.
      pose proof (total_lookup_le waiting _ _ _ Hi) as Hle. simpl in Hle.
      destruct (writers_waiting (lock s)) as [|q] eqn:Hq; [lia|].
      eapply (can_step p i); [done|]. simpl. unfold acquire_exclusive.
      by rewrite Hrc, Hwa, Hq. }
    apply not_Forall_Exists in Hnot; [|apply _].
    apply list.Exists_exists in Hnot as (t & Hel & Hnf).
    apply list_elem_of_lookup in Hel as [i Ht].
    pose proof (total_lookup_le reading _ _ _ Ht) as Hrle.
    pose proof (total_lookup_le writing _ _ _ Ht) as Hwle.
    destruct t as [[]|[]]; simpl in *; try lia.
    + (* a reader at the door *)
      destruct (admits_reader p (lock s)) eqn:Hadm.
      * eapply (can_step p i); [done|]. simpl. unfold acquire_shared.
        by rewrite Hadm.
      * (* kept out by a queued writer, who can enter *)
        unfold admits_reader in Hadm. rewrite Hwa in Hadm. simpl in Hadm.
        destruct p; [done|]. apply bool_decide_eq_false in Hadm.
        destruct (total_positive waiting (pool s)) as (j & u & Hu & Hpos); [lia|].
        apply (Hqueued j). destruct u as [[]|[]]; simpl in Hpos; try lia. done.
    + destruct Hnf. by left.
    + by eapply (can_step p i).
    + by apply (Hqueued i).
    + destruct Hnf. by right.
Qed.

Lemma finished_wrote l : Forall finished l → total wrote l = total is_writer l.
Proof.
  intros Hfin. apply total_ext. eapply list.Forall_impl; [exact Hfin|].
  by intros t [->| ->].
Qed.

(** Every execution ends with all threads finished and three per writer in
    [count]. *)
Definition completed (s : state) : Prop :=
  Forall finished (pool s) ∧ count s = (3 * Z.of_nat nw)%Z.

Lemma always_completes s :
  (3 * Z.of_nat nw ≤ int_max)%Z →
  inv s → always_reaches (step p) completed s.
Proof.
  intros Hrange.
  apply (always_reaches_measure _ inv completed fuel).
  - apply rw_inv_step.
  - intros s1 s2 _. apply rw_step_fuel.
  - intros s1 H1. destruct (rw_inv_progress s1 Hrange H1) as [Hfin|?]; [left|by right].
    split; [done|]. rewrite (r_count _ H1), (finished_wrote _ Hfin).
    by rewrite (r_writers _ H1).
Qed.

End invariant.

Lemma writers_spawn roles : total is_writer (spawn <$> roles) = writers roles.
Proof.
  unfold writers, total. induction roles as [|r l IH]; [done|].
  change (is_writer (spawn r) + sum_list (is_writer <$> (spawn <$> l)) =
          match r with Writes => 1 | Reads => 0 end +
          sum_list ((λ r, match r with Writes => 1 | Reads => 0 end) <$> l)).
  rewrite IH. by destruct r.
Qed.

Lemma rw_reachable_inv p roles s :
  rtc (step p) (init roles) s → inv (writers roles) s.
Proof. apply rw_inv_reachable. by rewrite writers_spawn. Qed.

(** *** A waiting writer gets the lock *)

Lemma steps_left_bound l :
  total steps_left l ≤ 3 * length l + 2 * total is_writer l.
Proof.
  unfold total. induction l as [|t l IH]; [done|].
  change (steps_left t + sum_list (steps_left <$> l) ≤
          3 * S (length l) + 2 * (is_writer t + sum_list (is_writer <$> l))).
  destruct t as [[]|[]]; simpl; lia.
Qed.

Lemma step_pool_length p s s' : step p s s' → length (pool s') = length (pool s).
Proof.
  intros [i Hs].
  apply step_by_move in Hs as (t & c & l & o & t' & _ & _ & ->).
  cbn [pool]. apply length_insert.
Qed.

Lemma pool_length_reachable p roles s :
  rtc (step p) (init roles) s → length (pool s) = length roles.
Proof.
  apply (invariant_rtc _ (λ s, length (pool s) = length roles)).
  - cbn. apply length_fmap.
  - intros s1 s2 H1 H12. by rewrite (step_pool_length _ _ _ H12).
Qed.

(** The request of writer [w] is granted: [w] holds the lock, no reader is
    inside. *)
Definition granted (w : nat) (s : state) : Prop :=
  pool s !! w = Some (Writer Wr_locked) ∧
  writer_active (lock s) = true ∧ reader_count (lock s) = 0.

Section any_policy.
Context (p : policy) (nw : nat).
Hypothesis in_range : (3 * Z.of_nat nw ≤ int_max)%Z.

Lemma unfinished_can_step s w t :
  inv nw s → pool s !! w = Some t → ¬ finished t → ∃ s', step p s s'.
Proof.
  intros Hinv Ht Hnf.
  destruct (rw_inv_progress p nw s in_range Hinv) as [Hfin|?]; [|done].
  rewrite Forall_lookup in Hfin. by destruct (Hnf (Hfin _ _ Ht)).
Qed.

Lemma granted_within b s w :
  inv nw s → pool s !! w = Some (Writer Wr_waiting) → fuel s ≤ b →
  reaches_within (step p) (granted w) b s.
Proof.
  revert s. induction b as [|b IH]; intros s Hinv Hw Hb.
  - pose proof (total_lookup_le steps_left _ _ _ Hw) as Hle.
    unfold fuel in Hb. simpl in Hle. lia.
  - apply within_later.
    + eapply unfinished_can_step; [done..|]. by intros [?|?].
    + intros s' Hs'.
      pose proof (rw_step_fuel _ _ _ Hs') as Hfuel.
      pose proof (rw_inv_step _ _ _ _ Hinv Hs') as Hinv'.
      destruct Hs' as [i Hs].
      apply step_by_move in Hs as (t & c & l & o & t' & Ht & Hmv & ->).
      destruct (decide (i = w)) as [->|Hne].
      * apply within_now. rewrite Hw in Ht. injection Ht as <-.
        inversion Hmv; subst. split; [|done]. cbn [pool].
        apply list_lookup_insert_eq. by eapply lookup_lt_Some.
      * apply IH; [done| |lia]. cbn [pool].
        by rewrite list_lookup_insert_ne by congruence.
Qed.

(** From then on [count] grows by the writer's 3, whatever else is
    written. *)
Lemma written_within c0 b s w t :
  inv nw s → pool s !! w = Some t → is_writer t = 1 →
  (c0 + 3 * Z.of_nat (wrote t) ≤ count s)%Z → fuel s ≤ b →
  reaches_within (step p)
    (λ s', pool s' !! w = Some (Writer Wr_done) ∧ (c0 + 3 ≤ count s')%Z) b s.
Proof.
  revert s t. induction b as [|b IH]; intros s t Hinv Hw Hisw Hc Hb.
  - pose proof (total_lookup_le steps_left _ _ _ Hw) as Hle.
    unfold fuel in Hb.
    destruct t as [r|[]]; simpl in *; try lia.
    apply within_now. split; [done|lia].
  - destruct (decide (t = Writer Wr_done)) as [->|Hnd].
    { apply within_now. split; [done|]. simpl in Hc. lia. }
    apply within_later.
    + eapply unfinished_can_step; [done..|].
      intros [->| ->]; [done|congruence].
    + intros s' Hs'.
      pose proof (rw_step_fuel _ _ _ Hs') as Hfuel.
      pose proof (rw_inv_step _ _ _ _ Hinv Hs') as Hinv'.
      destruct Hs' as [i Hs].
      apply step_by_move in Hs as (u & c & l & o & u' & Hu & Hmv & ->).
      assert (count s ≤ c)%Z as Hmono.
      { destruct Hmv; try lia.
        pose proof (r_fresh _ _ Hinv _ _ Hu) as ->. lia. }
      destruct (decide (i = w)) as [->|Hne].
      * rewrite Hw in Hu. injection Hu as <-.
        eapply (IH _ u'); [done| | | |lia].
        -- cbn [pool]. apply list_lookup_insert_eq. by eapply lookup_lt_Some.
        -- destruct Hmv; simpl in *; done.
        -- cbn [count]. destruct Hmv; simpl in *; try lia.
           pose proof (r_fresh _ _ Hinv _ _ Hw) as ->. lia.
      * eapply (IH _ t); [done| |done| |lia].
        -- cbn [pool]. by rewrite list_lookup_insert_ne by congruence.
        -- cbn [count]. lia.
Qed.

End any_policy.
End RWLockFacts.

(** ** The claims about rwlock.cpp and the shared-exclusive lock *)
Module RWLockClaims.
Import SharedMutex RWLock.

(** C4 (reader/writer exclusivity). Whatever the admission policy and
    whatever threads are started (rwlock.cpp starts four readers and two
    writers), in every reachable state: [writer_active] implies
    [reader_count = 0], a positive [reader_count] implies no active writer,
    and no thread is at a place where it holds the shared lock while another
    is at a place where it holds the exclusive lock. *)
Theorem C4_readers_exclude_writer p roles s :
  rtc (step p) (init roles) s →
  (writer_active (lock s) = true → reader_count (lock s) = 0) ∧
  (0 < reader_count (lock s) → writer_active (lock s) = false) ∧
  (∀ i j ti tj,
      pool s !! i = Some ti → pool s !! j = Some tj →
      ¬ (0 < reading ti ∧ 0 < writing tj)).
Proof.
  intros Hr. apply RWLockFacts.rw_reachable_inv in Hr.
  pose proof (RWLockFacts.r_excl _ _ Hr) as Hex.
  split; [done|]. split.
  - intros Hpos. destruct (writer_active (lock s)); [|done].
    specialize (Hex eq_refl). lia.
  - intros i j ti tj Hi Hj [Hri Hwj].
    pose proof (total_lookup_le reading _ _ _ Hi) as H1.
    pose proof (total_lookup_le writing _ _ _ Hj) as H2.
    rewrite <-(RWLockFacts.r_readers _ _ Hr) in H1.
    rewrite <-(RWLockFacts.r_writer _ _ Hr) in H2.
    destruct (writer_active (lock s)); simpl in *; [|lia].
    specialize (Hex eq_refl). lia.
Qed.

(** rwlock.cpp after t1 has taken the shared lock and t2 has asked for the
    exclusive one. *)
Definition t2_queued : state :=
  State 0 (Lock 1 false 1)
    [Reader R_locked; Writer Wr_waiting; Reader R_start; Reader R_start;
     Writer Wr_start; Reader R_start] [].

Lemma t2_queued_reachable p : rtc (step p) main_init t2_queued.
Proof.
  eapply rtc_l; [exists 0; by destruct p|].
  eapply rtc_l; [exists 1; by destruct p|].
  done.
Qed.

Lemma C4_readers_exclude_writer_witness :
  rtc (step Unspecified) main_init t2_queued ∧
  (writer_active (lock t2_queued) = true → reader_count (lock t2_queued) = 0) ∧
  (0 < reader_count (lock t2_queued) → writer_active (lock t2_queued) = false) ∧
  (∀ i j ti tj,
      pool t2_queued !! i = Some ti → pool t2_queued !! j = Some tj →
      ¬ (0 < reading ti ∧ 0 < writing tj)).
Proof.
  split; [exact (t2_queued_reachable Unspecified)|].
  exact (C4_readers_exclude_writer Unspecified main_roles t2_queued
           (t2_queued_reachable Unspecified)).
Defined.

Lemma main_in_range : (3 * Z.of_nat (writers main_roles) ≤ int_max)%Z.
Proof. vm_compute. by intros [=]. Qed.

(** C9 (what the readers see). Whatever the admission policy: every
    interleaving of rwlock.cpp ends, with the six threads finished and
    [count = 6]; in every reachable state each value a reader has printed is
    0, 3 or 6; and the value a writer has read is still the value of [count]
    when it writes it back, so no [count += 3] is lost or split. *)
Theorem C9_readers_see_multiples_of_three p :
  always_reaches (step p) (λ s, Forall finished (pool s) ∧ count s = 6%Z) main_init ∧
  ∀ s, rtc (step p) main_init s →
       Forall (λ v, v = 0 ∨ v = 3 ∨ v = 6)%Z (output s) ∧
       (count s = 0 ∨ count s = 3 ∨ count s = 6)%Z ∧
       (∀ i v, pool s !! i = Some (Writer (Wr_loaded v)) → v = count s).
Proof.
  split.
  - apply (RWLockFacts.always_completes p (writers main_roles) _ main_in_range).
    by apply (RWLockFacts.rw_reachable_inv p main_roles).
  - intros s Hr. apply RWLockFacts.rw_reachable_inv in Hr.
    assert (∀ j, j ≤ writers main_roles →
            (3 * Z.of_nat j = 0 ∨ 3 * Z.of_nat j = 3 ∨ 3 * Z.of_nat j = 6)%Z) as Hthree.
    { intros j Hj. change (writers main_roles) with 2 in Hj. lia. }
    split; [|split].
    + eapply list.Forall_impl; [apply (RWLockFacts.r_output _ _ Hr)|].
      intros v (j & Hj & ->). by apply Hthree.
    + rewrite (RWLockFacts.r_count _ _ Hr). apply Hthree.
      by apply RWLockFacts.inv_wrote_le.
    + apply (RWLockFacts.r_fresh _ _ Hr).
Qed.

(** rwlock.cpp with [std::shared_mutex] as it is: t1 reads, t2 asks for the
    exclusive lock and waits; t3, t4 and t6 arrive afterwards. *)
Definition t6_inside : state :=
  State 0 (Lock 1 false 1)
    [Reader R_done; Writer Wr_waiting; Reader R_done; Reader R_done;
     Writer Wr_start; Reader R_locked] [0; 0; 0]%Z.

Lemma t6_inside_reachable : rtc (step Unspecified) t2_queued t6_inside.
Proof.
  eapply rtc_l; [exists 2; vm_compute; reflexivity|].
  do 2 (eapply rtc_l; [exists 0; vm_compute; reflexivity|]).
  eapply rtc_l; [exists 3; vm_compute; reflexivity|].
  do 2 (eapply rtc_l; [exists 2; vm_compute; reflexivity|]).
  eapply rtc_l; [exists 5; vm_compute; reflexivity|].
  do 2 (eapply rtc_l; [exists 3; vm_compute; reflexivity|]).
  done.
Qed.

(** C6 as stated fails on rwlock.cpp: "once a writer is waiting, every
    reader that arrives afterward queues behind it instead of joining the
    existing readers".  With t1 inside and t2 waiting for the exclusive lock,
    t3 takes the shared lock next to t1; and t3, t4 and t6 can all enter,
    t3 and t4 even leave again, while t2 still cannot proceed. *)
Lemma C6_late_readers_pass_the_waiting_writer :
  rtc (step Unspecified) main_init t2_queued ∧
  pool t2_queued !! 1 = Some (Writer Wr_waiting) ∧
  pool t2_queued !! 2 = Some (Reader R_start) ∧
  (∃ s', step_by Unspecified 2 t2_queued = Some s' ∧
         pool s' !! 0 = Some (Reader R_locked) ∧
         pool s' !! 2 = Some (Reader R_locked) ∧
         pool s' !! 1 = Some (Writer Wr_waiting) ∧
         reader_count (lock s') = 2) ∧
  rtc (step Unspecified) t2_queued t6_inside ∧
  step_by Unspecified 1 t6_inside = None.
Proof.
  split; [exact (t2_queued_reachable Unspecified)|].
  split; [reflexivity|]. split; [reflexivity|].
  split; [eexists; split; [reflexivity|]; cbn; done|].
  split; [exact t6_inside_reachable|].
  reflexivity.
Qed.

(** C6, amended (a writer's request completes, but later readers are not
    held back). Whatever the lock does with a reader that arrives while a
    writer waits, and whatever threads are started: from the moment writer
    [w] is queued, along every interleaving its request is granted (it holds
    the lock, with [writer_active] set and no reader inside) and then
    completed (it has added its 3 to [count] and released) within
    [3 * threads + 2 * writers] steps of the program, which is 22 for
    rwlock.cpp.  The bound counts every thread, the readers still to arrive
    included. *)
Theorem C6_writer_request_completes_within_the_threads_steps p roles s w :
  (3 * Z.of_nat (writers roles) ≤ int_max)%Z →
  rtc (step p) (init roles) s →
  pool s !! w = Some (Writer Wr_waiting) →
  reaches_within (step p)
    (λ s', pool s' !! w = Some (Writer Wr_locked) ∧
           writer_active (lock s') = true ∧ reader_count (lock s') = 0)
    (3 * length roles + 2 * writers roles) s ∧
  reaches_within (step p)
    (λ s', pool s' !! w = Some (Writer Wr_done) ∧ (count s + 3 ≤ count s')%Z)
    (3 * length roles + 2 * writers roles) s.
Proof.
  intros Hrange Hr Hw.
  pose proof (RWLockFacts.pool_length_reachable _ _ _ Hr) as Hlen.
  apply RWLockFacts.rw_reachable_inv in Hr.
  assert (RWLockFacts.fuel s ≤ 3 * length roles + 2 * writers roles) as Hfuel.
  { unfold RWLockFacts.fuel.
    rewrite <-Hlen, <-(RWLockFacts.r_writers _ _ Hr).
    apply RWLockFacts.steps_left_bound. }
  split.
  - by apply (RWLockFacts.granted_within p (writers roles) Hrange).
  - eapply (RWLockFacts.written_within p (writers roles) Hrange (count s));
      [done|done|done| |done].
    simpl. lia.
Qed.

Lemma C6_writer_request_completes_within_the_threads_steps_witness :
  (3 * Z.of_nat (writers main_roles) ≤ int_max)%Z ∧
  rtc (step Unspecified) main_init t2_queued ∧
  pool t2_queued !! 1 = Some (Writer Wr_waiting) ∧
  reaches_within (step Unspecified)
    (λ s', pool s' !! 1 = Some (Writer Wr_locked) ∧
           writer_active (lock s') = true ∧ reader_count (lock s') = 0)
    (3 * length main_roles + 2 * writers main_roles) t2_queued ∧
  reaches_within (step Unspecified)
    (λ s', pool s' !! 1 = Some (Writer Wr_done) ∧
           (count t2_queued + 3 ≤ count s')%Z)
    (3 * length main_roles + 2 * writers main_roles) t2_queued.
Proof.
  split; [exact main_in_range|].
  split; [exact (t2_queued_reachable Unspecified)|].
  split; [reflexivity|].
  exact (C6_writer_request_completes_within_the_threads_steps Unspecified
           main_roles t2_queued 1 main_in_range
           (t2_queued_reachable Unspecified) eq_refl).
Defined.

(** The specification's policy would have kept the same late reader out;
    [std::shared_mutex] does not promise it. *)
Lemma unspecified_policy_admits_late_reader :
  is_Some (step_by Unspecified 2 t2_queued) ∧
  step_by WriterPreference 2 t2_queued = None.
Proof. split; [by eexists|done]. Qed.

End RWLockClaims.

(** ** MultiLock *)
Module MultiLockFacts.
Import MultiLock.

(** How many of the requested resources the caller holds at each place: a
    prefix of the request. *)
Definition taken (n : nat) (p : pc) : nat :=
  match p with
  | Start | BackOff | Released => 0
  | Trying i | Releasing i | Dropping i => i
  | Held => n
  end.

Section request.
Context (me : tid) (rs : list nat).

Record inv (s : state) : Prop := {
  m_len : ∀ r, r ∈ rs → r < length (locks s);
  m_bound : taken (length rs) (at_pc s) ≤ length rs;
  m_held : ∀ r, held me s r ↔ r ∈ take (taken (length rs) (at_pc s)) rs;
  m_nodup : NoDup (take (taken (length rs) (at_pc s)) rs)
}.














End request.
(** *** The steps of a request *)

Section attempt.
Context (me : tid) (rs : list nat).









End attempt.
End MultiLockFacts.

(** ** The claim about MultiLock *)
Module MultiLockClaims.
Import MultiLock.

(** Two free resources, both requested by thread 0; and the state after its
    blocking [Lock(R0)]. *)
Definition two_free : list (option nat) := [None; None].





(** The request for two resources of which the second is taken by thread 1:
    the caller has R0 and is about to fail on R1. *)
Definition r1_busy : state := State [Some 0; Some 1] (Trying 1).



(** The two ways an attempt goes, run on the two resources.  Meeting R1
    taken, the caller gives R0 back, backs off and is at the start again; with
    both free it returns holding both, and the guard gives both back. *)
Example contended_attempt_backs_off :
  caller_run 0 [0; 1] 4 r1_busy = Some (State [None; Some 1] Start).
Proof. reflexivity. Qed.

Example free_attempt_returns_and_guard_releases :
  caller_run 0 [0; 1] 3 (init two_free) = Some (State [Some 0; Some 0] Held) ∧
  caller_run 0 [0; 1] 4 (State [Some 0; Some 0] Held)
    = Some (State [None; None] Released).
Proof. split; reflexivity. Qed.

End MultiLockClaims.

(** ** More sums over thread pools *)

Section total_more.
Context {A : Type} (f : A → nat).

Lemma total_app (l1 l2 : list A) : total f (l1 ++ l2) = total f l1 + total f l2.
Proof.
  unfold total. induction l1 as [|x l1 IH]; [done|].
  change (f x + sum_list (f <$> (l1 ++ l2)) =
          f x + sum_list (f <$> l1) + sum_list (f <$> l2)).
  lia.
Qed.

(** Two different places of a list weigh no more than the whole list. *)
Lemma total_two (l : list A) i j x y :
  i ≠ j → l !! i = Some x → l !! j = Some y → f x + f y ≤ total f l.
Proof.
  unfold total. revert i j.
  induction l as [|z l IH]; intros [|i] [|j] Hne Hi Hj; simplify_eq/=.
  - pose proof (total_lookup_le f l j y Hj). unfold total in *. lia.
  - pose proof (total_lookup_le f l i x Hi). unfold total in *. lia.
  - assert (i ≠ j) as Hne' by congruence.
    specialize (IH _ _ Hne' Hi Hj). lia.
Qed.

End total_more.

(** ** More about mutex.cpp and scoped_lock.cpp *)
Module CounterProperties.
Import Counter.

Lemma counted_reachable style n k s :
  rtc (step style incr) (init n k) s → CounterFacts.counted n k s.
Proof.
  apply (invariant_rtc _ (CounterFacts.counted n k)).
  - apply CounterFacts.counted_init.
  - intros s1 s2. apply CounterFacts.counted_step.
Qed.

(** With either guard and any number of threads and calls, at every moment
    of every execution [count] is the number of calls of [add_count] that
    have written their increment: it never exceeds the number of calls asked
    for; once all threads have finished it is exactly that number and the
    mutex is unlocked; and [main] prints nothing else. *)
Theorem add_count_never_loses_an_increment style n k s :
  rtc (step style incr) (init n k) s →
  (count s + Z.of_nat (total CounterFacts.remaining (workers s))
     = Z.of_nat (n * k))%Z ∧
  (0 ≤ count s ≤ Z.of_nat (n * k))%Z ∧
  (Forall finished (workers s) → mtx s = None ∧ count s = Z.of_nat (n * k)) ∧
  (∀ v, printed s = Some v → v = Z.of_nat (n * k)).
Proof.
  intros Hr. apply counted_reachable in Hr.
  destruct Hr as [Hex Hfr Hown Hsh Hsum Hnn Hpr].
  split; [done|]. split; [lia|]. split.
  - intros Hfin. split.
    + destruct (mtx s) as [i|] eqn:Hm; [|done].
      destruct (Hown _ eq_refl) as (t & Ht & Hin).
      rewrite Forall_lookup in Hfin. destruct (Hfin _ _ Ht) as [Hat _].
      unfold in_critical_section in Hin. by rewrite Hat in Hin.
    + apply CounterFacts.finished_remaining in Hfin. lia.
  - intros v Hv. by destruct (Hpr _ Hv).
Qed.

(** mutex.cpp when t1 has returned from [add_count] and t2 has not begun. *)
Definition t1_returned : state :=
  State 1 None [Thread Idle 0; Thread Idle 1] None.

Lemma t1_returned_reachable : rtc mutex_cpp main_init t1_returned.
Proof.
  do 4 (eapply rtc_l; [exists (Worker 0); vm_compute; reflexivity|]). done.
Qed.

Lemma add_count_never_loses_an_increment_witness :
  rtc mutex_cpp main_init t1_returned ∧
  (count t1_returned + Z.of_nat (total CounterFacts.remaining (workers t1_returned))
     = Z.of_nat (2 * 1))%Z ∧
  (0 ≤ count t1_returned ≤ Z.of_nat (2 * 1))%Z ∧
  (Forall finished (workers t1_returned) →
   mtx t1_returned = None ∧ count t1_returned = Z.of_nat (2 * 1)) ∧
  (∀ v, printed t1_returned = Some v → v = Z.of_nat (2 * 1)).
Proof.
  split; [exact t1_returned_reachable|].
  exact (add_count_never_loses_an_increment Manual 2 1 t1_returned
           t1_returned_reachable).
Defined.

(** [add_count] with any number of threads, each calling it any number of
    times: as long as the total fits an [int], every interleaving ends, with
    all threads finished and the total in [count] and printed. *)
Theorem add_count_adds_up_for_any_threads style n k :
  (Z.of_nat (n * k) ≤ int_max)%Z →
  always_reaches (step style incr)
    (λ s, Forall finished (workers s) ∧ count s = Z.of_nat (n * k) ∧
          printed s = Some (Z.of_nat (n * k)))
    (init n k).
Proof.
  intros Hrange.
  eapply always_reaches_mono; [|by apply (CounterFacts.counter_completes style n k)].
  intros s (Hfin & Hc & Hp). done.
Qed.

Lemma add_count_adds_up_for_any_threads_witness :
  always_reaches (step Scoped incr)
    (λ s, Forall finished (workers s) ∧ count s = Z.of_nat (3 * 5) ∧
          printed s = Some (Z.of_nat (3 * 5)))
    (init 3 5).
Proof.
  apply (add_count_adds_up_for_any_threads Scoped 3 5).
  unfold int_max. cbn. lia.
Defined.

End CounterProperties.

(** ** More about condition_variable.cpp *)
Module CondVarProperties.
Import CondVar.

(** In condition_variable.cpp at most one of the three threads is between
    taking and giving back the mutex, and the waiter does not hold the mutex
    while it is blocked in [cv.wait]. *)
Theorem cv_one_thread_inside b s :
  rtc condition_variable_cpp (main_init b) s →
  (∀ i j a a', adders s !! i = Some a → adders s !! j = Some a' →
               adder_inside a → adder_inside a' → i = j) ∧
  (∀ i a, adders s !! i = Some a → adder_inside a →
          ¬ waiter_inside (the_waiter s)) ∧
  (the_waiter s = W_asleep → mtx s ≠ Some waiter_tid).
Proof.
  intros Hr. apply (CondVarFacts.cv_inv_reachable 2 b s) in Hr.
  split; [|split].
  - intros i j a a' Hi Hj Hin Hin'.
    pose proof (CondVarFacts.i_adder_in _ _ Hr _ _ Hi Hin) as H1.
    pose proof (CondVarFacts.i_adder_in _ _ Hr _ _ Hj Hin') as H2.
    unfold adder_tid in *. congruence.
  - intros i a Hi Hin Hw.
    pose proof (CondVarFacts.i_adder_in _ _ Hr _ _ Hi Hin) as H1.
    pose proof (CondVarFacts.i_waiter_in _ _ Hr Hw) as H2.
    unfold adder_tid, waiter_tid in *. congruence.
  - intros Hw Hm.
    pose proof (CondVarFacts.i_owner _ _ Hr _ Hm) as Hown. cbn in Hown.
    by rewrite Hw in Hown.
Qed.

(** The waiter blocked, t1 done, t2 between its store and its test. *)
Definition t2_stored : state :=
  State 2 (Some (adder_tid 1)) [A_done; A_stored] W_asleep None 0.

Lemma t2_stored_reachable : rtc condition_variable_cpp (main_init 0) t2_stored.
Proof.
  do 2 (eapply rtc_l; [exists Waiter; vm_compute; reflexivity|]).
  do 5 (eapply rtc_l; [exists (Adder 0); vm_compute; reflexivity|]).
  do 3 (eapply rtc_l; [exists (Adder 1); vm_compute; reflexivity|]).
  done.
Qed.

Lemma cv_one_thread_inside_witness :
  rtc condition_variable_cpp (main_init 0) t2_stored ∧
  (∀ i j a a', adders t2_stored !! i = Some a → adders t2_stored !! j = Some a' →
               adder_inside a → adder_inside a' → i = j) ∧
  (∀ i a, adders t2_stored !! i = Some a → adder_inside a →
          ¬ waiter_inside (the_waiter t2_stored)) ∧
  (the_waiter t2_stored = W_asleep → mtx t2_stored ≠ Some waiter_tid).
Proof.
  split; [exact t2_stored_reachable|].
  exact (cv_one_thread_inside 0 t2_stored t2_stored_reachable).
Defined.

(** No wake-up is lost: whenever the waiter is blocked in [cv.wait] although
    [count] is already 2, the thread that wrote the 2 has not yet passed its
    [cv.notify_one()]; it is at the test [count == 2], which it will find
    true, or at the call itself. *)
Theorem cv_no_lost_wakeup b s :
  rtc condition_variable_cpp (main_init b) s →
  the_waiter s = W_asleep → count s = 2%Z →
  ∃ i, (adders s !! i = Some A_stored ∧
        ∃ s', step_by 2 (Adder i) s = Some s' ∧ adders s' !! i = Some A_notify) ∨
       (adders s !! i = Some A_notify ∧
        ∃ s', step_by 2 (Adder i) s = Some s' ∧ the_waiter s' = W_woken).
Proof.
  intros Hr Hw Hc. apply (CondVarFacts.cv_inv_reachable 2 b s) in Hr.
  destruct (CondVarFacts.i_asleep _ _ Hr Hw) as [Hlt|[i [Hi|Hi]]].
  - cbn in Hlt. lia.
  - exists i. left. split; [done|].
    assert (i < length (adders s)) by by eapply lookup_lt_Some.
    eexists. cbn. rewrite Hi. cbn. rewrite decide_True by done.
    split; [done|]. cbn. by apply list_lookup_insert_eq.
  - exists i. right. split; [done|].
    eexists. cbn. rewrite Hi. cbn. split; [done|]. cbn. by rewrite Hw.
Qed.

Lemma cv_no_lost_wakeup_witness :
  rtc condition_variable_cpp (main_init 0) t2_stored ∧
  ∃ i, (adders t2_stored !! i = Some A_stored ∧
        ∃ s', step_by 2 (Adder i) t2_stored = Some s' ∧
              adders s' !! i = Some A_notify) ∨
       (adders t2_stored !! i = Some A_notify ∧
        ∃ s', step_by 2 (Adder i) t2_stored = Some s' ∧ the_waiter s' = W_woken).
Proof.
  split; [exact t2_stored_reachable|].
  exact (cv_no_lost_wakeup 0 t2_stored t2_stored_reachable eq_refl eq_refl).
Defined.

(** [count] in condition_variable.cpp is the number of threads that have
    written their increment, so it stays between 0 and 2; the value a thread
    has read is still the value of [count] when it writes; and
    [cv.notify_one()] is only called with [count == 2]. *)
Theorem cv_count_tracks_the_increments b s :
  rtc condition_variable_cpp (main_init b) s →
  count s = Z.of_nat (total CondVarFacts.stored (adders s)) ∧
  (0 ≤ count s ≤ 2)%Z ∧
  (∀ i v, adders s !! i = Some (A_loaded v) → v = count s) ∧
  (∀ i, adders s !! i = Some A_notify → count s = 2%Z).
Proof.
  intros Hr. apply (CondVarFacts.cv_inv_reachable 2 b s) in Hr.
  pose proof (CondVarFacts.inv_count_le _ _ Hr) as Hle.
  pose proof (CondVarFacts.i_count _ _ Hr) as Hc.
  split; [done|]. split; [cbn in Hle; lia|]. split.
  - apply (CondVarFacts.i_fresh _ _ Hr).
  - apply (CondVarFacts.i_notify _ _ Hr).
Qed.

Lemma cv_count_tracks_the_increments_witness :
  rtc condition_variable_cpp (main_init 0) t2_stored ∧
  count t2_stored = Z.of_nat (total CondVarFacts.stored (adders t2_stored)) ∧
  (0 ≤ count t2_stored ≤ 2)%Z ∧
  (∀ i v, adders t2_stored !! i = Some (A_loaded v) → v = count t2_stored) ∧
  (∀ i, adders t2_stored !! i = Some A_notify → count t2_stored = 2%Z).
Proof.
  split; [exact t2_stored_reachable|].
  exact (cv_count_tracks_the_increments 0 t2_stored t2_stored_reachable).
Defined.

End CondVarProperties.

(** ** More about rwlock.cpp *)
Module RWLockProperties.
Import SharedMutex RWLock.

(** Whatever the admission policy and the threads started, no two threads
    are at the same time between taking and giving back the exclusive lock:
    [count += 3] is never run by two writers at once. *)
Theorem writers_write_one_at_a_time p roles s i j ti tj :
  rtc (step p) (init roles) s →
  pool s !! i = Some ti → pool s !! j = Some tj → i ≠ j →
  0 < writing ti → writing tj = 0.
Proof.
  intros Hr Hi Hj Hne Hwi. apply RWLockFacts.rw_reachable_inv in Hr.
  pose proof (total_two writing _ _ _ _ _ Hne Hi Hj) as Htwo.
  rewrite <-(RWLockFacts.r_writer _ _ Hr) in Htwo.
  destruct (writer_active (lock s)); simpl in Htwo; lia.
Qed.

(** rwlock.cpp with t2 holding the exclusive lock and t5 queued for it. *)
Definition t2_writing : state :=
  State 0 (Lock 0 true 1)
    [Reader R_start; Writer Wr_locked; Reader R_start; Reader R_start;
     Writer Wr_waiting; Reader R_start] [].

Lemma t2_writing_reachable p : rtc (step p) main_init t2_writing.
Proof.
  eapply rtc_l; [exists 1; by destruct p|].
  eapply rtc_l; [exists 1; by destruct p|].
  eapply rtc_l; [exists 4; by destruct p|].
  done.
Qed.

Lemma writers_write_one_at_a_time_witness :
  rtc (step Unspecified) main_init t2_writing ∧
  writing (Writer Wr_waiting) = 0.
Proof.
  split; [exact (t2_writing_reachable Unspecified)|].
  refine (writers_write_one_at_a_time Unspecified main_roles t2_writing 1 4
            (Writer Wr_locked) (Writer Wr_waiting)
            (t2_writing_reachable Unspecified) eq_refl eq_refl _ _);
    [discriminate|cbn; lia].
Defined.

(** The shared lock is shared: with either policy and whatever threads are
    started, the readers can all be inside [read_value] holding the lock at
    once (the writers not having asked for it yet). *)
Definition entered (r : role) : thread :=
  match r with
  | Reads => Reader R_locked
  | Writes => Writer Wr_start
  end.

Definition readers (roles : list role) : nat :=
  total (λ r, match r with Reads => 1 | Writes => 0 end) roles.

Lemma readers_snoc l r :
  readers (l ++ [r]) = readers l + match r with Reads => 1 | Writes => 0 end.
Proof. unfold readers. rewrite total_app. f_equal. unfold total. cbn. lia. Qed.

Lemma readers_enter p l1 l2 :
  rtc (step p)
    (State 0 (Lock (readers l1) false 0) ((entered <$> l1) ++ (spawn <$> l2)) [])
    (State 0 (Lock (readers (l1 ++ l2)) false 0) (entered <$> (l1 ++ l2)) []).
Proof.
  revert l1. induction l2 as [|r l2 IH]; intros l1.
  - rewrite !app_nil_r. done.
  - replace (l1 ++ r :: l2) with ((l1 ++ [r]) ++ l2) by by rewrite <-app_assoc.
    destruct r.
    + eapply rtc_l; [|apply IH].
      exists (length l1). unfold step_by. cbn.
      rewrite lookup_app_r by by rewrite length_fmap.
      rewrite length_fmap, Nat.sub_diag. cbn.
      unfold acquire_shared, admits_reader. cbn.
      replace (match p with Unspecified => true
               | WriterPreference => bool_decide (0 = 0) end) with true
        by by destruct p.
      cbn. f_equal. f_equal.
      * rewrite readers_snoc. f_equal. lia.
      * rewrite fmap_app. cbn. rewrite <-app_assoc. cbn.
        replace (length l1) with (length (entered <$> l1) + 0)
          by (rewrite length_fmap; lia).
        by rewrite insert_app_r.
    + replace (State 0 (Lock (readers l1) false 0)
                 ((entered <$> l1) ++ (spawn <$> Writes :: l2)) [])
        with (State 0 (Lock (readers (l1 ++ [Writes])) false 0)
                 ((entered <$> (l1 ++ [Writes])) ++ (spawn <$> l2)) []);
        [apply IH|].
      f_equal.
      * rewrite readers_snoc. do 2 f_equal. lia.
      * rewrite fmap_app. cbn. by rewrite <-app_assoc.
Qed.

Theorem readers_share_the_lock p roles :
  rtc (step p) (init roles)
    (State 0 (Lock (readers roles) false 0) (entered <$> roles) []) ∧
  ∀ i, roles !! i = Some Reads →
       (entered <$> roles) !! i = Some (Reader R_locked).
Proof.
  split.
  - apply (readers_enter p [] roles).
  - intros i Hi. by rewrite list_lookup_fmap, Hi.
Qed.

(** *** What the readers print *)

Definition has_printed (t : thread) : nat :=
  match t with Reader R_printed | Reader R_done => 1 | _ => 0 end.

Definition is_reader (t : thread) : nat :=
  match t with Reader _ => 1 | Writer _ => 0 end.

(** The values come in non-decreasing order. *)
Definition in_order (o : list Z) : Prop :=
  ∀ i j x y, i ≤ j → o !! i = Some x → o !! j = Some y → (x ≤ y)%Z.

Lemma in_order_snoc o c :
  in_order o → Forall (λ v, (v ≤ c)%Z) o → in_order (o ++ [c]).
Proof.
  intros Ho Hc i j x y Hij Hi Hj.
  apply lookup_app_Some in Hj as [Hj|[Hlen Hj]].
  - apply lookup_app_Some in Hi as [Hi|[Hlen _]].
    + by eapply Ho.
    + apply lookup_lt_Some in Hj. lia.
  - apply list_lookup_singleton_Some in Hj as [_ <-].
    apply lookup_app_Some in Hi as [Hi|[_ Hi]].
    + rewrite Forall_lookup in Hc. by eapply Hc.
    + apply list_lookup_singleton_Some in Hi as [_ <-]. lia.
Qed.

Record printing (nr : nat) (s : state) : Prop := {
  o_order : in_order (output s);
  o_below : Forall (λ v, (v ≤ count s)%Z) (output s);
  o_len : length (output s) = total has_printed (pool s);
  o_readers : total is_reader (pool s) = nr
}.

Lemma readers_spawn roles : total is_reader (spawn <$> roles) = readers roles.
Proof.
  unfold readers, total. induction roles as [|r l IH]; [done|].
  change (is_reader (spawn r) + sum_list (is_reader <$> (spawn <$> l)) =
          match r with Reads => 1 | Writes => 0 end +
          sum_list ((λ r, match r with Reads => 1 | Writes => 0 end) <$> l)).
  rewrite IH. by destruct r.
Qed.

Lemma printing_init roles : printing (readers roles) (init roles).
Proof.
  split; simpl.
  - intros i j x y _ Hi. done.
  - constructor.
  - by rewrite RWLockFacts.total_spawn.
  - apply readers_spawn.
Qed.

Lemma printing_step p nw nr s s' :
  RWLockFacts.inv nw s → printing nr s → step p s s' → printing nr s'.
Proof.
  intros Hinv [Hord Hbel Hlen Hrd] [i Hs].
  apply RWLockFacts.step_by_move in Hs as (t & c & l & o & t' & Ht & Hmv & ->).
  pose proof (total_insert has_printed _ _ _ t' Ht) as Hpr.
  pose proof (total_insert is_reader _ _ _ t' Ht) as Hir.
  split; cbn [count lock pool output].
  - destruct Hmv; try done. by apply in_order_snoc.
  - destruct Hmv as [| | | | | |v Hv|]; try done.
    + apply Forall_app. split; [done|]. apply Forall_singleton. lia.
    + pose proof (RWLockFacts.r_fresh _ _ Hinv _ _ Ht) as ->.
      eapply list.Forall_impl; [exact Hbel|]. intros x Hx. cbn in Hx. lia.
  - destruct Hmv; cbn in *; try lia.
    rewrite length_app. cbn. lia.
  - destruct Hmv; cbn in *; lia.
Qed.

Lemma finished_printed l :
  Forall finished l → total has_printed l = total is_reader l.
Proof.
  intros Hfin. apply total_ext. eapply list.Forall_impl; [exact Hfin|].
  by intros t [->| ->].
Qed.

(** Whatever the admission policy and whatever readers and writers are
    started: the values printed so far are in non-decreasing order, none
    exceeds [count], and there is one for each reader that has passed its
    output statement; and every interleaving ends with all threads finished,
    three per writer in [count], and exactly one value printed per reader. *)
Theorem readers_print_once_in_order p roles :
  (3 * Z.of_nat (writers roles) ≤ int_max)%Z →
  (∀ s, rtc (step p) (init roles) s →
        in_order (output s) ∧
        Forall (λ v, (v ≤ count s)%Z) (output s) ∧
        length (output s) = total has_printed (pool s)) ∧
  always_reaches (step p)
    (λ s, Forall finished (pool s) ∧
          count s = (3 * Z.of_nat (writers roles))%Z ∧
          length (output s) = readers roles ∧
          in_order (output s))
    (init roles).
Proof.
  intros Hrange.
  set (I := λ s, RWLockFacts.inv (writers roles) s ∧ printing (readers roles) s).
  assert (Hinit : I (init roles)).
  { split; [by apply (RWLockFacts.rw_reachable_inv p roles)|apply printing_init]. }
  assert (Hstep : ∀ s s', I s → step p s s' → I s').
  { intros s s' [H1 H2] Hs. split.
    - by eapply RWLockFacts.rw_inv_step.
    - by eapply printing_step. }
  split.
  - intros s Hr.
    destruct (invariant_rtc (step p) I _ Hinit Hstep s Hr) as [_ [Ho Hb Hl _]].
    done.
  - apply (always_reaches_measure _ I _ RWLockFacts.fuel); [done| | |done].
    + intros s s' _. apply RWLockFacts.rw_step_fuel.
    + intros s [H1 H2].
      destruct (RWLockFacts.rw_inv_progress p _ s Hrange H1) as [Hfin|?];
        [left|by right].
      split; [done|]. split; [|split].
      * rewrite (RWLockFacts.r_count _ _ H1), (RWLockFacts.finished_wrote _ Hfin).
        by rewrite (RWLockFacts.r_writers _ _ H1).
      * rewrite (o_len _ _ H2), (finished_printed _ Hfin). apply (o_readers _ _ H2).
      * apply (o_order _ _ H2).
Qed.

Lemma readers_print_once_in_order_witness :
  (∀ s, rtc (step Unspecified) main_init s →
        in_order (output s) ∧
        Forall (λ v, (v ≤ count s)%Z) (output s) ∧
        length (output s) = total has_printed (pool s)) ∧
  always_reaches (step Unspecified)
    (λ s, Forall finished (pool s) ∧
          count s = (3 * Z.of_nat (writers main_roles))%Z ∧
          length (output s) = readers main_roles ∧
          in_order (output s))
    main_init.
Proof.
  apply (readers_print_once_in_order Unspecified main_roles).
  vm_compute. by intros [=].
Defined.

End RWLockProperties.

(** ** iterator.cpp *)
Module DllFacts.
Import Dll.

Fixpoint is_seg (h : gmap nat Node) (prev cur : option nat)
    (cells : list (nat * Z)) : Prop :=
  match cells with
  | [] => cur = None
  | (a, v) :: rest =>
      ∃ nxt, cur = Some a ∧ h !! a = Some (MkNode nxt prev v) ∧
             is_seg h (Some a) nxt rest
  end.

Record is_dll (h0 h : gmap nat Node) (d : DLL) (cells : list (nat * Z)) : Prop := {
  dll_seg : is_seg h None (head_ d) cells;
  dll_nodup : NoDup cells.*1;
  dll_size : size_ d = (Z.of_nat (length cells) `mod` size_modulus)%Z;
  dll_fresh : ∀ a, a ∈ cells.*1 → h0 !! a = None;
  dll_frame : ∀ a, a ∉ cells.*1 → h !! a = h0 !! a
}.

Lemma is_seg_frame h h' prev cur cells :
  (∀ a, a ∈ cells.*1 → h' !! a = h !! a) →
  is_seg h prev cur cells → is_seg h' prev cur cells.
Proof.
  revert prev cur. induction cells as [|[a v] rest IH]; intros prev cur Hf; cbn; [done|].
  intros (nxt & -> & Ha & Hs). exists nxt. split; [done|]. split.
  - rewrite Hf; [done|]. cbn. apply elem_of_cons. by left.
  - apply IH; [|done]. intros b Hb. apply Hf. cbn. apply elem_of_cons. by right.
Qed.

Lemma is_seg_live h prev cur cells a :
  is_seg h prev cur cells → a ∈ cells.*1 → is_Some (h !! a).
Proof.
  revert prev cur. induction cells as [|[b v] rest IH]; intros prev cur; cbn.
  - intros _ Ha. by apply elem_of_nil in Ha.
  - intros (nxt & -> & Hb & Hs) [->|Ha]%elem_of_cons; [by eexists|]. by eapply IH.
Qed.

Lemma empty_is_dll h0 : is_dll h0 h0 empty [].
Proof.
  split; cbn; try done.
  - constructor.
  - intros a Ha. by apply elem_of_nil in Ha.
Qed.

Lemma first_free_fresh (h : gmap nat Node) : h !! first_free h = None.
Proof.
  apply (not_elem_of_dom (D:=gset nat)). unfold first_free.
  apply (is_fresh (dom h)).
Qed.

Lemma size_step (sz : Z) (n : nat) :
  sz = (Z.of_nat n `mod` size_modulus)%Z →
  ((sz + 1) `mod` size_modulus = Z.of_nat (S n) `mod` size_modulus)%Z.
Proof.
  intros ->. rewrite Nat2Z.inj_succ. unfold Z.succ.
  by rewrite Zplus_mod_idemp_l.
Qed.

Section allocator.
Context (alloc : gmap nat Node → nat).
Hypothesis alloc_fresh : ∀ h, h !! alloc h = None.

Lemma InsertAtHead_is_dll v h0 h d cells :
  is_dll h0 h d cells →
  ∃ h' d', InsertAtHead alloc v h d = Some (h', d') ∧
           is_dll h0 h' d' ((alloc h, v) :: cells).
Proof.
  intros [Hseg Hnd Hsz Hfr Hframe].
  assert (Hnew : alloc h ∉ cells.*1).
  { intros Hin. eapply is_seg_live in Hin; [|done].
    rewrite alloc_fresh in Hin. by destruct Hin. }
  unfold InsertAtHead, set_next. rewrite lookup_insert_eq. cbn.
  rewrite insert_insert_eq.
  destruct d as [hd sz]. cbn in *.
  destruct cells as [|[b w] rest]; cbn in Hseg.
  - subst hd. cbn. eexists _, _. split; [done|].
    split; cbn.
    + exists None. by rewrite lookup_insert_eq.
    + apply NoDup_singleton.
    + by apply size_step.
    + intros a ->%list_elem_of_singleton.
      rewrite <-Hframe by done. apply alloc_fresh.
    + intros a Ha%not_elem_of_cons. destruct Ha as [Ha _].
      rewrite lookup_insert_ne by congruence. apply Hframe, not_elem_of_nil.
  - destruct Hseg as (nxt & -> & Hb & Hrest). cbn.
    apply not_elem_of_cons in Hnew as [Hab Hnew]. cbn in Hab.
    apply NoDup_cons in Hnd as Hnd'. destruct Hnd' as [Hb' Hnd'].
    unfold set_prev. rewrite lookup_insert_ne by congruence. rewrite Hb. cbn.
    eexists _, _. split; [done|].
    split; cbn.
    + exists (Some b). split; [done|]. split.
      * rewrite lookup_insert_ne by congruence. by rewrite lookup_insert_eq.
      * exists nxt. split; [done|]. split; [by rewrite lookup_insert_eq|].
        eapply is_seg_frame; [|done].
        intros a Ha.
        assert (a ≠ b) by (intros ->; done).
        assert (a ≠ alloc h) by (intros ->; done).
        by rewrite !lookup_insert_ne by congruence.
    + apply NoDup_cons. split; [|done].
      apply not_elem_of_cons. done.
    + by apply size_step.
    + intros a [->|Ha]%elem_of_cons; [|by apply Hfr].
      rewrite <-Hframe; [apply alloc_fresh|].
      apply not_elem_of_cons. done.
    + intros a [Ha1 [Ha2 Ha3]%not_elem_of_cons]%not_elem_of_cons.
      rewrite !lookup_insert_ne by congruence. apply Hframe.
      apply not_elem_of_cons. done.
Qed.

Lemma insert_all_is_dll vs h0 h d cells :
  is_dll h0 h d cells →
  ∃ h' d' cells', insert_all alloc vs h d = Some (h', d') ∧
                  is_dll h0 h' d' (cells' ++ cells) ∧
                  cells'.*2 = rev vs.
Proof.
  revert h d cells. induction vs as [|v vs IH]; intros h d cells Hd; cbn.
  - by exists h, d, [].
  - destruct (InsertAtHead_is_dll v _ _ _ _ Hd) as (h1 & d1 & -> & Hd1). cbn.
    destruct (IH _ _ _ Hd1) as (h' & d' & cells' & -> & Hd' & Hvals).
    exists h', d', (cells' ++ [(alloc h, v)]). split; [done|]. split.
    + by rewrite <-app_assoc.
    + rewrite fmap_app, Hvals. done.
Qed.

End allocator.

(** *** Traversal *)

Lemma print_prefix_seg fuel h prev it cells out :
  is_seg h prev (curr_ it) cells → length cells ≤ fuel →
  print_prefix fuel h it (MkIter None) out = Returns (out ++ cells.*2).
Proof.
  revert fuel prev it out.
  induction cells as [|[a v] rest IH]; intros fuel prev [cur] out; cbn.
  - intros -> _. rewrite app_nil_r. by destruct fuel.
  - intros (nxt & -> & Ha & Hrest) Hlen.
    destruct fuel as [|fuel]; [lia|]. cbn.
    unfold deref, pre_incr. cbn. rewrite Ha. cbn.
    erewrite IH; [|exact Hrest|lia]. by rewrite <-app_assoc.
Qed.

Lemma print_postfix_seg fuel h prev it cells out :
  is_seg h prev (curr_ it) cells → length cells ≤ fuel →
  print_postfix fuel h it (MkIter None) out = Returns (out ++ cells.*2).
Proof.
  revert fuel prev it out.
  induction cells as [|[a v] rest IH]; intros fuel prev [cur] out; cbn.
  - intros -> _. rewrite app_nil_r. by destruct fuel.
  - intros (nxt & -> & Ha & Hrest) Hlen.
    destruct fuel as [|fuel]; [lia|]. cbn.
    unfold deref, post_incr, pre_incr. cbn. rewrite Ha. cbn.
    erewrite IH; [|exact Hrest|lia]. by rewrite <-app_assoc.
Qed.

(** *** The destructor *)

Lemma delete_nodes_seg fuel h prev cur cells :
  is_seg h prev cur cells → NoDup cells.*1 → length cells ≤ fuel →
  ∃ h', delete_nodes fuel h cur = Returns h' ∧
        ∀ a, h' !! a = if decide (a ∈ cells.*1) then None else h !! a.
Proof.
  revert fuel h prev cur.
  induction cells as [|[a v] rest IH]; intros fuel h prev cur; cbn.
  - intros -> _ _. exists h. split; [by destruct fuel|].
    intros a. destruct (decide _) as [Hin|]; [|done]. by apply elem_of_nil in Hin.
  - intros (nxt & -> & Ha & Hrest) [Hnew Hnd]%NoDup_cons Hlen.
    destruct fuel as [|fuel]; [lia|]. cbn. rewrite Ha. cbn.
    destruct (IH fuel (delete a h) (Some a) nxt) as (h' & -> & Hh'); [|done|lia|].
    { eapply is_seg_frame; [|done]. intros b Hb.
      rewrite lookup_delete_ne; [done|]. intros ->. done. }
    exists h'. split; [done|]. intros b. rewrite Hh'.
    destruct (decide (b ∈ rest.*1)) as [Hb|Hb].
    + rewrite decide_True; [done|]. apply elem_of_cons. by right.
    + destruct (decide (b = a)) as [->|Hne].
      * rewrite decide_True; [|apply elem_of_cons; by left].
        apply lookup_delete_eq.
      * rewrite decide_False.
        -- by rewrite lookup_delete_ne by congruence.
        -- apply not_elem_of_cons. done.
Qed.

Lemma cells_fit h prev cur cells :
  is_seg h prev cur cells → NoDup cells.*1 → length cells ≤ size h.
Proof.
  intros Hseg Hnd.
  rewrite <-(length_fmap fst), <-(size_list_to_set (C:=gset nat)) by done.
  rewrite <-size_dom. apply subseteq_size.
  intros a Ha%elem_of_list_to_set. apply elem_of_dom. by eapply is_seg_live.
Qed.

Lemma destructor_is_dll h0 h d cells :
  is_dll h0 h d cells → destructor h d = Returns (h0, MkDLL None (size_ d)).
Proof.
  intros [Hseg Hnd Hsz Hfr Hframe]. unfold destructor.
  destruct (delete_nodes_seg (size h) h None (head_ d) cells)
    as (h' & -> & Hh'); [done|done|by eapply cells_fit|].
  do 2 f_equal. apply map_eq. intros a. rewrite Hh'.
  destruct (decide _) as [Hin|Hout].
  - symmetry. by apply Hfr.
  - by apply Hframe.
Qed.

(** Every round of the destructor's loop frees a node, so as many rounds as
    there are nodes allocated are enough. *)
Lemma delete_nodes_ends fuel (h : gmap nat Node) cur :
  size h ≤ fuel → delete_nodes fuel h cur ≠ OutOfFuel.
Proof.
  revert h cur. induction fuel as [|fuel IH]; intros h [c|] Hsize; cbn; try done.
  - destruct (h !! c) as [n|] eqn:Hc; [|done].
    assert (size h ≠ 0) by (eapply map_size_ne_0_lookup_2; by eexists). lia.
  - destruct (h !! c) as [n|] eqn:Hc; [|done].
    apply IH.
    assert (size (delete c h) = pred (size h)) as ->
      by (apply map_size_delete_Some; by eexists).
    lia.
Qed.

(** *** The links *)

Lemma seg_head h prev cur cells :
  is_seg h prev cur cells → cur = fst <$> cells !! 0.
Proof. destruct cells as [|[a v] rest]; cbn; [done|]. by intros (nxt & -> & _). Qed.

Lemma seg_links h prev cur cells i a v :
  is_seg h prev cur cells → cells !! i = Some (a, v) →
  h !! a = Some (MkNode (fst <$> cells !! S i)
                        (match i with 0 => prev | S j => fst <$> cells !! j end) v).
Proof.
  revert prev cur i. induction cells as [|[b w] rest IH]; intros prev cur i; cbn; [done|].
  intros (nxt & -> & Hb & Hrest) Hi. destruct i as [|i]; cbn in *.
  - injection Hi as -> ->. rewrite Hb. do 2 f_equal.
    exact (seg_head _ _ _ _ Hrest).
  - rewrite (IH _ _ _ Hrest Hi). do 2 f_equal. by destruct i.
Qed.

Lemma dll_member h0 h d cells a n :
  is_dll h0 h d cells → h !! a = Some n → h0 !! a = None →
  ∃ i, cells !! i = Some (a, value_ n) ∧ h !! a = Some n.
Proof.
  intros Hd Ha H0a.
  destruct (decide (a ∈ cells.*1)) as [Hin|Hout].
  - apply list_elem_of_fmap in Hin as ([a' v] & -> & Hin).
    apply list_elem_of_lookup in Hin as [i Hi]. exists i.
    pose proof (seg_links _ _ _ _ _ _ _ (dll_seg _ _ _ _ Hd) Hi) as Hn.
    cbn in Ha. rewrite Ha in Hn. injection Hn as ->. done.
  - rewrite (dll_frame _ _ _ _ Hd) in Ha by done. congruence.
Qed.

Lemma dll_links h0 h d cells a n :
  is_dll h0 h d cells → h !! a = Some n → h0 !! a = None →
  (∀ b, next_ n = Some b → ∃ m, h !! b = Some m ∧ prev_ m = Some a) ∧
  (∀ b, prev_ n = Some b → ∃ m, h !! b = Some m ∧ next_ m = Some a) ∧
  (prev_ n = None ↔ head_ d = Some a).
Proof.
  intros Hd Ha H0a.
  destruct (dll_member _ _ _ _ _ _ Hd Ha H0a) as (i & Hi & _).
  pose proof (dll_seg _ _ _ _ Hd) as Hseg.
  pose proof (seg_links _ _ _ _ _ _ _ Hseg Hi) as Hn.
  rewrite Ha in Hn. injection Hn as Hn. rewrite Hn. cbn.
  split; [|split].
  - intros b Hb. destruct (cells !! S i) as [[b' w]|] eqn:Hsi; [|done].
    cbn in Hb. injection Hb as ->.
    rewrite (seg_links _ _ _ _ _ _ _ Hseg Hsi). eexists. split; [done|].
    cbn. by rewrite Hi.
  - intros b Hb. destruct i as [|j]; [done|].
    destruct (cells !! j) as [[b' w]|] eqn:Hj; [|done].
    cbn in Hb. injection Hb as ->.
    rewrite (seg_links _ _ _ _ _ _ _ Hseg Hj). eexists. split; [done|].
    cbn. by rewrite Hi.
  - rewrite (seg_head _ _ _ _ Hseg). split.
    + destruct i as [|j]; [by rewrite Hi|].
      intros Hj. apply fmap_None in Hj. apply lookup_ge_None in Hj.
      apply lookup_lt_Some in Hi. lia.
    + intros H0. destruct (cells !! 0) as [[b w]|] eqn:Hc0; [|done].
      cbn in H0. injection H0 as ->.
      assert (i = 0) as ->; [|done].
      eapply (NoDup_lookup cells.*1 _ _ a); [apply (dll_nodup _ _ _ _ Hd)| |].
      * by rewrite list_lookup_fmap, Hi.
      * by rewrite list_lookup_fmap, Hc0.
Qed.

(** *** Stepping an iterator *)

(** [k] times [++iter] *)
Fixpoint incr_times (k : nat) (h : gmap nat Node) (it : DLLIterator)
    : option DLLIterator :=
  match k with
  | 0 => Some it
  | S k' => it' ← pre_incr h it; incr_times k' h it'
  end.

Lemma incr_times_seg k h prev cur cells :
  is_seg h prev cur cells → k ≤ length cells →
  incr_times k h (MkIter cur) = Some (MkIter (fst <$> cells !! k)).
Proof.
  revert prev cur cells. induction k as [|k IH]; intros prev cur cells Hseg Hk; cbn.
  - by rewrite (seg_head _ _ _ _ Hseg).
  - destruct cells as [|[a v] rest]; cbn in *; [lia|].
    destruct Hseg as (nxt & -> & Ha & Hrest).
    unfold pre_incr. cbn. rewrite Ha. cbn. eapply IH; [done|lia].
Qed.

Lemma incr_times_past k h prev cur cells :
  is_seg h prev cur cells → length cells < k →
  incr_times k h (MkIter cur) = None.
Proof.
  revert prev cur cells. induction k as [|k IH]; intros prev cur cells Hseg Hk; [lia|].
  cbn. destruct cells as [|[a v] rest]; cbn in *.
  - by subst cur.
  - destruct Hseg as (nxt & -> & Ha & Hrest).
    unfold pre_incr. cbn. rewrite Ha. cbn. eapply IH; [done|lia].
Qed.

(** A list of one node, for the examples. *)
Definition one_node : gmap nat Node := {[ 0 := MkNode None None 7 ]}.

Lemma one_node_is_dll : is_dll ∅ one_node (MkDLL (Some 0) 1) [(0, 7%Z)].
Proof.
  split; cbn.
  - exists None. done.
  - apply NoDup_singleton.
  - done.
  - intros a _. apply lookup_empty.
  - intros a Ha%not_elem_of_cons. unfold one_node.
    rewrite lookup_singleton_ne by (destruct Ha; congruence). by rewrite lookup_empty.
Qed.

End DllFacts.

Module DllProperties.
Import Dll DllFacts.

(** [InsertAtHead] on a well-formed list never dereferences a dead pointer;
    it puts the new value in front, links the old head back to the new node,
    adds one to [size_] (modulo 2^64) and leaves every node that is not of
    the list as it was. *)
Theorem insert_at_head_extends_list (alloc : gmap nat Node → nat) v h0 h d cells :
  (∀ h, h !! alloc h = None) →
  is_dll h0 h d cells →
  ∃ h', InsertAtHead alloc v h d
          = Some (h', MkDLL (Some (alloc h)) ((size_ d + 1) `mod` size_modulus)) ∧
        is_dll h0 h' (MkDLL (Some (alloc h)) ((size_ d + 1) `mod` size_modulus))
               ((alloc h, v) :: cells).
Proof.
  intros Hfresh Hd.
  destruct (InsertAtHead_is_dll alloc Hfresh v _ _ _ _ Hd) as (h' & d' & Hins & Hd').
  assert (d' = MkDLL (Some (alloc h)) ((size_ d + 1) `mod` size_modulus)) as ->.
  { unfold InsertAtHead in Hins.
    destruct (set_next _ _ _) as [h1|]; [|done]. cbn in Hins.
    destruct (match head_ d with Some _ => _ | None => _ end); [|done].
    cbn in Hins. congruence. }
  by exists h'.
Qed.

Lemma insert_at_head_extends_list_witness :
  (∀ h, h !! first_free h = None) ∧
  is_dll ∅ one_node (MkDLL (Some 0) 1) [(0, 7%Z)] ∧
  ∃ h', InsertAtHead first_free 5 one_node (MkDLL (Some 0) 1)
          = Some (h', MkDLL (Some (first_free one_node)) ((1 + 1) `mod` size_modulus)) ∧
        is_dll ∅ h' (MkDLL (Some (first_free one_node)) ((1 + 1) `mod` size_modulus))
               [(first_free one_node, 5%Z); (0, 7%Z)].
Proof.
  split; [exact first_free_fresh|]. split; [exact one_node_is_dll|].
  exact (insert_at_head_extends_list first_free 5 ∅ one_node (MkDLL (Some 0) 1)
           [(0, 7%Z)] first_free_fresh one_node_is_dll).
Defined.

(** Both loops of [main], over any well-formed list and with at least as many
    rounds as it has nodes, end without a fault and print the values from the
    head on; [++iter] and [iter++] print the same. *)
Theorem both_loops_print_the_list fuel h0 h d cells out :
  is_dll h0 h d cells → length cells ≤ fuel →
  print_prefix fuel h (Begin d) (End_ d) out = Returns (out ++ cells.*2) ∧
  print_postfix fuel h (Begin d) (End_ d) out = Returns (out ++ cells.*2).
Proof.
  intros Hd Hlen. split.
  - eapply print_prefix_seg; [apply (dll_seg _ _ _ _ Hd)|done].
  - eapply print_postfix_seg; [apply (dll_seg _ _ _ _ Hd)|done].
Qed.

Lemma both_loops_print_the_list_witness :
  is_dll ∅ one_node (MkDLL (Some 0) 1) [(0, 7%Z)] ∧
  print_prefix 1 one_node (Begin (MkDLL (Some 0) 1)) (End_ (MkDLL (Some 0) 1)) []
    = Returns [7%Z] ∧
  print_postfix 1 one_node (Begin (MkDLL (Some 0) 1)) (End_ (MkDLL (Some 0) 1)) []
    = Returns [7%Z].
Proof.
  split; [exact one_node_is_dll|].
  apply (both_loops_print_the_list 1 ∅ one_node (MkDLL (Some 0) 1) [(0, 7%Z)] []
           one_node_is_dll).
  cbn. lia.
Defined.

(** A run of [InsertAtHead] calls on a new list, as [main] makes them, never
    faults; the list then holds as many values as were inserted (modulo
    2^64) and both loops print them last inserted first. *)
Theorem inserted_values_print_in_reverse (alloc : gmap nat Node → nat) vs h0 fuel :
  (∀ h, h !! alloc h = None) → length vs ≤ fuel →
  ∃ h' d', insert_all alloc vs h0 empty = Some (h', d') ∧
           size_ d' = (Z.of_nat (length vs) `mod` size_modulus)%Z ∧
           print_prefix fuel h' (Begin d') (End_ d') [] = Returns (rev vs) ∧
           print_postfix fuel h' (Begin d') (End_ d') [] = Returns (rev vs).
Proof.
  intros Hfresh Hlen.
  destruct (insert_all_is_dll alloc Hfresh vs h0 h0 empty [] (empty_is_dll h0))
    as (h' & d' & cells & Hins & Hd & Hvals).
  rewrite app_nil_r in Hd.
  assert (Hcells : length cells = length vs).
  { by rewrite <-(length_fmap snd cells), Hvals, length_rev. }
  exists h', d'. split; [done|]. split.
  - by rewrite (dll_size _ _ _ _ Hd), Hcells.
  - rewrite <-Hvals. split.
    + eapply (print_prefix_seg _ _ _ _ _ []); [apply (dll_seg _ _ _ _ Hd)|lia].
    + eapply (print_postfix_seg _ _ _ _ _ []); [apply (dll_seg _ _ _ _ Hd)|lia].
Qed.

(** [main] itself: 6, 5, 4, 3, 2, 1 inserted, then 1 2 3 4 5 6 printed twice. *)
Lemma inserted_values_print_in_reverse_witness :
  ∃ h' d', insert_all first_free [6; 5; 4; 3; 2; 1]%Z ∅ empty = Some (h', d') ∧
           size_ d' = (Z.of_nat 6 `mod` size_modulus)%Z ∧
           print_prefix 6 h' (Begin d') (End_ d') [] = Returns [1; 2; 3; 4; 5; 6]%Z ∧
           print_postfix 6 h' (Begin d') (End_ d') [] = Returns [1; 2; 3; 4; 5; 6]%Z.
Proof.
  apply (inserted_values_print_in_reverse first_free [6; 5; 4; 3; 2; 1]%Z ∅ 6
           first_free_fresh).
  cbn. lia.
Defined.

(** [~DLL()] on a well-formed list ends without a fault, frees every node of
    the list once and no other node, and leaves [head_] null; run again on
    what it left, it frees nothing. *)
Theorem destructor_frees_exactly_the_list h0 h d cells :
  is_dll h0 h d cells →
  destructor h d = Returns (h0, MkDLL None (size_ d)) ∧
  destructor h0 (MkDLL None (size_ d)) = Returns (h0, MkDLL None (size_ d)).
Proof.
  intros Hd. split; [by eapply destructor_is_dll|].
  unfold destructor. cbn. by destruct (size h0).
Qed.

Lemma destructor_frees_exactly_the_list_witness :
  is_dll ∅ one_node (MkDLL (Some 0) 1) [(0, 7%Z)] ∧
  destructor one_node (MkDLL (Some 0) 1) = Returns (∅, MkDLL None 1) ∧
  destructor ∅ (MkDLL None 1) = Returns (∅, MkDLL None 1).
Proof.
  split; [exact one_node_is_dll|].
  exact (destructor_frees_exactly_the_list ∅ one_node (MkDLL (Some 0) 1)
           [(0, 7%Z)] one_node_is_dll).
Defined.

(** [DLL] has the compiler's copy constructor, which copies [head_]: once the
    list is destroyed, the destructor of a copy of a list that was not empty
    deletes a node a second time, which is undefined. *)
Theorem destructor_of_a_copy_faults h0 h d cells h' d' :
  is_dll h0 h d cells → cells ≠ [] →
  destructor h d = Returns (h', d') →
  destructor h' d = Faults.
Proof.
  intros Hd Hne Hdes.
  rewrite (destructor_is_dll _ _ _ _ Hd) in Hdes. injection Hdes as <- <-.
  destruct cells as [|[a v] rest]; [done|].
  destruct (dll_seg _ _ _ _ Hd) as (nxt & Hhead & _).
  unfold destructor. rewrite Hhead.
  assert (h0 !! a = None) as Ha.
  { apply (dll_fresh _ _ _ _ Hd). cbn. apply elem_of_cons. by left. }
  destruct (size h0); cbn; by rewrite Ha.
Qed.

Lemma destructor_of_a_copy_faults_witness :
  destructor one_node (MkDLL (Some 0) 1) = Returns (∅, MkDLL None 1) ∧
  destructor ∅ (MkDLL (Some 0) 1) = Faults.
Proof.
  assert (H : destructor one_node (MkDLL (Some 0) 1) = Returns (∅, MkDLL None 1)).
  { vm_compute. reflexivity. }
  split; [exact H|].
  exact (destructor_of_a_copy_faults ∅ one_node (MkDLL (Some 0) 1) [(0, 7%Z)] ∅
           (MkDLL None 1) one_node_is_dll ltac:(discriminate) H).
Defined.

(** [~DLL()] on any heap and any [head_], well-formed or not (a list that
    runs into a cycle or into freed memory): the loop ends, by returning or
    by reaching a node that is no longer allocated, which is undefined. *)
Theorem destructor_returns_or_faults (h : gmap nat Node) d :
  (∃ h', destructor h d = Returns (h', MkDLL None (size_ d))) ∨
  destructor h d = Faults.
Proof.
  unfold destructor.
  pose proof (delete_nodes_ends (size h) h (head_ d) (le_n _)).
  destruct (delete_nodes _ _ _) as [h'| |]; [left; by exists h'|by right|done].
Qed.

(** After any run of [InsertAtHead] calls on a new list the nodes are doubly
    linked: a node's [next_] has that node as its [prev_], a node's [prev_]
    has that node as its [next_], and the only node without a [prev_] is the
    head. *)
Theorem inserted_nodes_are_doubly_linked (alloc : gmap nat Node → nat) vs h0 h' d' a n :
  (∀ h, h !! alloc h = None) →
  insert_all alloc vs h0 empty = Some (h', d') →
  h' !! a = Some n → h0 !! a = None →
  (∀ b, next_ n = Some b → ∃ m, h' !! b = Some m ∧ prev_ m = Some a) ∧
  (∀ b, prev_ n = Some b → ∃ m, h' !! b = Some m ∧ next_ m = Some a) ∧
  (prev_ n = None ↔ head_ d' = Some a).
Proof.
  intros Hfresh Hins Ha H0a.
  destruct (insert_all_is_dll alloc Hfresh vs h0 h0 empty [] (empty_is_dll h0))
    as (h1 & d1 & cells & Hins' & Hd & _).
  rewrite Hins in Hins'. injection Hins' as <- <-.
  by eapply dll_links.
Qed.

Definition two_inserted : gmap nat Node :=
  <[1 := MkNode (Some 0) None 1]> (<[0 := MkNode None (Some 1) 2]> ∅).

Lemma inserted_nodes_are_doubly_linked_witness :
  insert_all first_free [2; 1]%Z ∅ empty = Some (two_inserted, MkDLL (Some 1) 2) ∧
  (∀ b, Some 0 = Some b →
        ∃ m, two_inserted !! b = Some m ∧ prev_ m = Some 1) ∧
  (∀ b, @None nat = Some b →
        ∃ m, two_inserted !! b = Some m ∧ next_ m = Some 1) ∧
  (@None nat = None ↔ Some 1 = Some 1).
Proof.
  assert (H : insert_all first_free [2; 1]%Z ∅ empty
              = Some (two_inserted, MkDLL (Some 1) 2)).
  { vm_compute. reflexivity. }
  split; [exact H|].
  exact (inserted_nodes_are_doubly_linked first_free [2; 1]%Z ∅ two_inserted
           (MkDLL (Some 1) 2) 1 (MkNode (Some 0) None 1) first_free_fresh H
           eq_refl eq_refl).
Defined.

(** Stepping an iterator from [Begin()]: after [k] increments it stands on the
    [k]-th node, differs from [End()] and yields that node's value; after as
    many increments as there are nodes it equals [End()]; one more increment
    dereferences the null pointer. *)
Theorem iterator_walks_the_list h0 h d cells :
  is_dll h0 h d cells →
  (∀ k a v, cells !! k = Some (a, v) →
     ∃ it, incr_times k h (Begin d) = Some it ∧
           iter_ne it (End_ d) = true ∧ iter_eq it (End_ d) = false ∧
           deref h it = Some v) ∧
  (∃ it, incr_times (length cells) h (Begin d) = Some it ∧
         iter_eq it (End_ d) = true ∧ iter_ne it (End_ d) = false ∧
         deref h it = None) ∧
  (∀ k, length cells < k → incr_times k h (Begin d) = None).
Proof.
  intros Hd. pose proof (dll_seg _ _ _ _ Hd) as Hseg.
  split; [|split].
  - intros k a v Hk. eexists. split.
    + unfold Begin. eapply incr_times_seg; [done|].
      apply lookup_lt_Some in Hk. lia.
    + rewrite Hk. cbn. unfold deref. cbn.
      rewrite (seg_links _ _ _ _ _ _ _ Hseg Hk). done.
  - eexists. split.
    + unfold Begin. eapply incr_times_seg; [done|lia].
    + by rewrite lookup_ge_None_2 by lia.
  - intros k Hk. unfold Begin. by eapply incr_times_past.
Qed.

Lemma iterator_walks_the_list_witness :
  is_dll ∅ one_node (MkDLL (Some 0) 1) [(0, 7%Z)] ∧
  incr_times 2 one_node (Begin (MkDLL (Some 0) 1)) = None.
Proof.
  split; [exact one_node_is_dll|].
  refine (proj2 (proj2 (iterator_walks_the_list ∅ one_node (MkDLL (Some 0) 1)
                          [(0, 7%Z)] one_node_is_dll)) 2 _).
  cbn. lia.
Defined.

End DllProperties.

(** ** wrapper_class.cpp *)
Module IntPtrManagerFacts.
Import IntPtrManager.

(** Every manager that is not moved-from owns an allocated [int], no two
    managers own the same one, and every allocated [int] has an owner. *)
Record owned (s : state) : Prop := {
  o_live : ∀ o a, objs s !! o = Some (Some a) → is_Some (mem s !! a);
  o_unique : ∀ o1 o2 a,
    objs s !! o1 = Some (Some a) → objs s !! o2 = Some (Some a) → o1 = o2;
  o_no_leak : ∀ a, is_Some (mem s !! a) → ∃ o, objs s !! o = Some (Some a)
}.

Lemma lowest_free_unused (m : gmap nat Z) : m !! lowest_free m = None.
Proof.
  apply (not_elem_of_dom (D:=gset nat)). unfold lowest_free.
  apply (is_fresh (dom m)).
Qed.

Lemma owned_nothing : owned (MkState ∅ ∅).
Proof.
  split; cbn.
  - intros o a H. by rewrite lookup_empty in H.
  - intros o1 o2 a H. by rewrite lookup_empty in H.
  - intros a [v H]. by rewrite lookup_empty in H.
Qed.

Section allocator.
Context (alloc : gmap nat Z → nat).
Hypothesis alloc_fresh : ∀ m, m !! alloc m = None.

Lemma owned_construct this val s :
  owned s → objs s !! this = None → owned (construct alloc this val s).
Proof.
  intros [Hlive Huniq Hleak] Hnew. pose proof (alloc_fresh (mem s)) as Hp.
  assert (Hnot : ∀ o, objs s !! o ≠ Some (Some (alloc (mem s)))).
  { intros o Ho. apply Hlive in Ho. rewrite Hp in Ho. by destruct Ho. }
  split; unfold construct; cbn.
  - intros o a Ho. destruct (decide (o = this)) as [->|Hne].
    + rewrite lookup_insert_eq in Ho. injection Ho as <-.
      rewrite lookup_insert_eq. by eexists.
    + rewrite lookup_insert_ne in Ho by congruence.
      apply lookup_insert_is_Some'. right. by eapply Hlive.
  - intros o1 o2 a H1 H2.
    destruct (decide (o1 = this)) as [->|Hne1], (decide (o2 = this)) as [->|Hne2];
      [done| | |].
    + rewrite lookup_insert_eq in H1. rewrite lookup_insert_ne in H2 by congruence.
      injection H1 as <-. by apply Hnot in H2.
    + rewrite lookup_insert_eq in H2. rewrite lookup_insert_ne in H1 by congruence.
      injection H2 as <-. by apply Hnot in H1.
    + rewrite lookup_insert_ne in H1, H2 by congruence. by eapply Huniq.
  - intros a Ha. destruct (decide (a = alloc (mem s))) as [->|Hne].
    + exists this. by rewrite lookup_insert_eq.
    + rewrite lookup_insert_ne in Ha by congruence.
      destruct (Hleak a Ha) as [o Ho]. exists o.
      rewrite lookup_insert_ne; [done|]. intros <-. congruence.
Qed.

End allocator.

Lemma release_owned s o p :
  owned s → objs s !! o = Some p →
  ∃ m, release p (mem s) = Some m ∧
       ∀ a, m !! a = if decide (p = Some a) then None else mem s !! a.
Proof.
  intros Hs Ho. destruct p as [b|]; cbn.
  - destruct (o_live _ Hs _ _ Ho) as [v ->]. eexists. split; [done|].
    intros a. destruct (decide _) as [[= ->]|Hne].
    + apply lookup_delete_eq.
    + rewrite lookup_delete_ne; [done|]. congruence.
  - exists (mem s). split; [done|]. intros a. by rewrite decide_False.
Qed.

Lemma owned_destroy this s :
  owned s → is_Some (objs s !! this) →
  ∃ s', destroy this s = Some s' ∧ owned s'.
Proof.
  intros Hs [p Hp]. unfold destroy. rewrite Hp. cbn.
  destruct (release_owned _ _ _ Hs Hp) as (m & -> & Hm). cbn.
  eexists. split; [done|]. destruct Hs as [Hlive Huniq Hleak].
  split; cbn.
  - intros o a Ho. apply lookup_delete_Some in Ho as [Hne Ho].
    rewrite Hm. rewrite decide_False; [by eapply Hlive|].
    intros ->. apply Hne. by eapply Huniq.
  - intros o1 o2 a [_ H1]%lookup_delete_Some [_ H2]%lookup_delete_Some.
    by eapply Huniq.
  - intros a Ha. rewrite Hm in Ha. destruct (decide (p = Some a)) as [->|Hne].
    + by destruct Ha.
    + destruct (Hleak a Ha) as [o Ho]. exists o.
      apply lookup_delete_Some. split; [|done]. intros <-. congruence.
Qed.

(** The objects after a move from [other] to [this]. *)
Lemma moved_lookup this other q (os : gmap nat (option nat)) o r :
  <[other := None]> (<[this := q]> os) !! o = Some (Some r) →
  o ≠ other ∧ (o = this ∧ q = Some r ∨ o ≠ this ∧ os !! o = Some (Some r)).
Proof.
  intros H. destruct (decide (o = other)) as [->|Hne].
  { by rewrite lookup_insert_eq in H. }
  rewrite lookup_insert_ne in H by congruence. split; [done|].
  destruct (decide (o = this)) as [->|Hne'].
  - rewrite lookup_insert_eq in H. left. split; congruence.
  - rewrite lookup_insert_ne in H by congruence. by right.
Qed.

Lemma owned_moved this other s m p q :
  owned s → this ≠ other →
  objs s !! this = p → objs s !! other = Some q →
  (∀ b, m !! b = if decide (p = Some (Some b)) then None else mem s !! b) →
  owned (MkState m (<[other := None]> (<[this := q]> (objs s)))).
Proof.
  intros [Hlive Huniq Hleak] Hne Hthis Hother Hm.
  assert (Hpq : ∀ r, q = Some r → p ≠ Some (Some r)).
  { intros r -> ->. apply Hne. by eapply Huniq. }
  split; cbn.
  - intros o r Ho. apply moved_lookup in Ho as [Ho [[-> Hq]|[Ho' Hor]]]; rewrite Hm.
    + rewrite decide_False by auto. subst q. by eapply Hlive.
    + rewrite decide_False; [by eapply Hlive|].
      intros ->. apply Ho'. by eapply Huniq.
  - intros o1 o2 r H1 H2.
    apply moved_lookup in H1 as [Ho1 [[-> Hq1]|[Ho1' H1]]];
      apply moved_lookup in H2 as [Ho2 [[-> Hq2]|[Ho2' H2]]]; try done.
    + subst q. exfalso. apply Ho2. by eapply Huniq.
    + subst q. exfalso. apply Ho1. by eapply Huniq.
    + by eapply Huniq.
  - intros b Hb. rewrite Hm in Hb.
    destruct (decide (p = Some (Some b))) as [->|Hpb]; [by destruct Hb|].
    destruct (Hleak b Hb) as [o Ho].
    destruct (decide (o = other)) as [->|Hoo].
    + exists this. rewrite lookup_insert_ne by congruence.
      rewrite lookup_insert_eq. congruence.
    + exists o. rewrite lookup_insert_ne by congruence.
      rewrite lookup_insert_ne; [done|]. intros <-. congruence.
Qed.

Lemma owned_move_construct this other s :
  owned s → objs s !! this = None → is_Some (objs s !! other) →
  ∃ s', move_construct this other s = Some s' ∧ owned s'.
Proof.
  intros Hs Hnew [q Hq]. unfold move_construct. rewrite Hq. cbn.
  eexists. split; [done|].
  eapply owned_moved; [done| |exact Hnew|exact Hq|].
  - intros ->. congruence.
  - intros b. by rewrite decide_False.
Qed.

Lemma owned_move_assign this other s :
  owned s → is_Some (objs s !! this) → is_Some (objs s !! other) →
  ∃ s', move_assign this other s = Some s' ∧ owned s'.
Proof.
  intros Hs [p Hp] [q Hq]. unfold move_assign. rewrite Hp, Hq. cbn.
  destruct (decide (p = q)) as [->|Hpq]; [by exists s|].
  destruct (release_owned _ _ _ Hs Hp) as (m & -> & Hm). cbn.
  eexists. split; [done|].
  eapply owned_moved; [done| |exact Hp|exact Hq|].
  - intros ->. congruence.
  - intros b. rewrite Hm.
    destruct (decide (p = Some b)) as [->|Hne].
    + by rewrite decide_True.
    + rewrite decide_False; [done|]. congruence.
Qed.

Lemma owned_SetVal this val s a :
  owned s → objs s !! this = Some (Some a) →
  ∃ s', SetVal this val s = Some s' ∧ owned s'.
Proof.
  intros Hs Hp. unfold SetVal. rewrite Hp. cbn.
  destruct (o_live _ Hs _ _ Hp) as [v Hv]. rewrite Hv. cbn.
  eexists. split; [done|]. destruct Hs as [Hlive Huniq Hleak].
  split; cbn.
  - intros o b Ho. apply lookup_insert_is_Some'. right. by eapply Hlive.
  - done.
  - intros b [Hb|Hb]%lookup_insert_is_Some'.
    + subst b. by exists this.
    + by apply Hleak.
Qed.

(** What a program can do with managers: declare one, let one go out of
    scope, move-construct, move-assign, [SetVal]. *)
Inductive call :=
| Construct (this : nat) (val : Z)
| Destroy (this : nat)
| MoveConstruct (this other : nat)
| MoveAssign (this other : nat)
| Set_ (this : nat) (val : Z).

Definition exec (alloc : gmap nat Z → nat) (c : call) (s : state) : option state :=
  match c with
  | Construct this val => Some (construct alloc this val s)
  | Destroy this => destroy this s
  | MoveConstruct this other => move_construct this other s
  | MoveAssign this other => move_assign this other s
  | Set_ this val => SetVal this val s
  end.

(** The calls a program may make: constructors make new objects, the others
    act on objects that are alive, and [SetVal] on one that was not moved
    from. *)
Definition allowed (c : call) (s : state) : Prop :=
  match c with
  | Construct this _ => objs s !! this = None
  | Destroy this => is_Some (objs s !! this)
  | MoveConstruct this other => objs s !! this = None ∧ is_Some (objs s !! other)
  | MoveAssign this other => is_Some (objs s !! this) ∧ is_Some (objs s !! other)
  | Set_ this _ => ∃ a, objs s !! this = Some (Some a)
  end.

Inductive runs (alloc : gmap nat Z → nat) : list call → state → state → Prop :=
| runs_nil s : runs alloc [] s s
| runs_cons c cs s s' s'' :
    allowed c s → exec alloc c s = Some s' → runs alloc cs s' s'' →
    runs alloc (c :: cs) s s''.

Lemma owned_runs alloc cs s s' :
  (∀ m, m !! alloc m = None) → owned s → runs alloc cs s s' → owned s'.
Proof.
  intros Hfresh Hs Hrun. induction Hrun as [|c cs s s' s'' Hc Hex _ IH]; [done|].
  apply IH. clear IH.
  destruct c as [this val|this|this other|this other|this val]; cbn in *.
  - injection Hex as <-. by apply owned_construct.
  - destruct (owned_destroy this s Hs Hc) as (s1 & Hex' & Hs1). congruence.
  - destruct Hc as [Hnew Hother].
    destruct (owned_move_construct this other s Hs Hnew Hother) as (s1 & Hex' & Hs1).
    congruence.
  - destruct Hc as [Hthis Hother].
    destruct (owned_move_assign this other s Hs Hthis Hother) as (s1 & Hex' & Hs1).
    congruence.
  - destruct Hc as [a Ha].
    destruct (owned_SetVal this val s a Hs Ha) as (s1 & Hex' & Hs1). congruence.
Qed.

End IntPtrManagerFacts.

Module IntPtrManagerProperties.
Import IntPtrManager IntPtrManagerFacts.

(** Unique ownership is kept by every call a program may make, and no such
    call is undefined: no constructor, destructor, move or [SetVal] deletes
    an [int] twice, shares one between two managers or loses one. *)
Theorem calls_keep_unique_ownership (alloc : gmap nat Z → nat) c s :
  (∀ m, m !! alloc m = None) → owned s → allowed c s →
  ∃ s', exec alloc c s = Some s' ∧ owned s'.
Proof.
  intros Hfresh Hs Hc.
  destruct c as [this val|this|this other|this other|this val]; cbn in *.
  - eexists. split; [done|]. by apply owned_construct.
  - by apply owned_destroy.
  - destruct Hc. by apply owned_move_construct.
  - destruct Hc. by apply owned_move_assign.
  - destruct Hc as [a Ha]. by eapply owned_SetVal.
Qed.

Lemma calls_keep_unique_ownership_witness :
  (∀ m, m !! lowest_free m = None) ∧ owned (MkState ∅ ∅) ∧
  allowed (Construct 0 445) (MkState ∅ ∅) ∧
  ∃ s', exec lowest_free (Construct 0 445) (MkState ∅ ∅) = Some s' ∧ owned s'.
Proof.
  split; [exact lowest_free_unused|]. split; [exact owned_nothing|].
  split; [reflexivity|].
  exact (calls_keep_unique_ownership lowest_free (Construct 0 445) (MkState ∅ ∅)
           lowest_free_unused owned_nothing eq_refl).
Defined.

(** A program that starts with no manager and makes only such calls never
    leaks: whatever is allocated has an owner, so when the last manager is
    gone nothing is left allocated. *)
Theorem programs_leak_nothing (alloc : gmap nat Z → nat) cs s :
  (∀ m, m !! alloc m = None) →
  runs alloc cs (MkState ∅ ∅) s →
  owned s ∧ (objs s = ∅ → mem s = ∅).
Proof.
  intros Hfresh Hrun.
  assert (Hs : owned s) by (eapply owned_runs; [done|exact owned_nothing|done]).
  split; [done|]. intros Hobjs. apply map_empty. intros a.
  destruct (mem s !! a) as [v|] eqn:Ha; [|done].
  destruct (o_no_leak _ Hs a) as [o Ho]; [by eexists|].
  rewrite Hobjs in Ho. by rewrite lookup_empty in Ho.
Qed.

Lemma programs_leak_nothing_witness :
  ∃ s, runs lowest_free [Construct 0 445; MoveConstruct 1 0; Destroy 1; Destroy 0]
         (MkState ∅ ∅) s ∧
       owned s ∧ (objs s = ∅ → mem s = ∅).
Proof.
  assert (H : runs lowest_free
                [Construct 0 445; MoveConstruct 1 0; Destroy 1; Destroy 0]
                (MkState ∅ ∅) (MkState ∅ ∅)).
  { eapply runs_cons; [reflexivity|reflexivity|].
    eapply runs_cons; [split; [reflexivity|by eexists]|reflexivity|].
    eapply runs_cons; [by eexists|reflexivity|].
    eapply runs_cons; [by eexists|vm_compute; reflexivity|].
    apply runs_nil. }
  exists (MkState ∅ ∅). split; [exact H|].
  exact (programs_leak_nothing lowest_free _ _ lowest_free_unused H).
Defined.

(** [SetVal] then [GetVal] on the same manager gives the value back, and no
    other manager sees a change. *)
Theorem set_val_is_private this val s s' :
  owned s → SetVal this val s = Some s' →
  GetVal this s' = Some val ∧
  (∀ o, o ≠ this → GetVal o s' = GetVal o s) ∧
  objs s' = objs s.
Proof.
  intros Hs Hset. unfold SetVal in Hset.
  destruct (objs s !! this) as [[a|]|] eqn:Hthis; try done. cbn in Hset.
  destruct (mem s !! a) as [v|] eqn:Ha; [|done]. cbn in Hset.
  injection Hset as <-. cbn. split; [|split; [|done]].
  - unfold GetVal. cbn. rewrite Hthis. cbn. by rewrite lookup_insert_eq.
  - intros o Ho. unfold GetVal. cbn.
    destruct (objs s !! o) as [[b|]|] eqn:Hb; try done. cbn.
    rewrite lookup_insert_ne; [done|]. intros <-.
    apply Ho. by eapply (o_unique _ Hs).
Qed.

Definition two_managers : state :=
  MkState (<[0 := 445%Z]> (<[1 := 15%Z]> ∅)) (<[0 := Some 0]> (<[1 := Some 1]> ∅)).

Lemma two_managers_owned : owned two_managers.
Proof.
  apply (owned_runs lowest_free [Construct 0 445; Construct 1 15] (MkState ∅ ∅));
    [exact lowest_free_unused|exact owned_nothing|].
  eapply runs_cons; [reflexivity|reflexivity|].
  eapply runs_cons; [reflexivity|reflexivity|].
  assert (construct lowest_free 1 15 (construct lowest_free 0 445 (MkState ∅ ∅))
          = two_managers) as ->; [|apply runs_nil].
  unfold two_managers, construct. cbn. by f_equal.
Qed.

Lemma set_val_is_private_witness :
  owned two_managers ∧
  SetVal 0 645 two_managers
    = Some (MkState (<[0 := 645%Z]> (mem two_managers)) (objs two_managers)) ∧
  GetVal 0 (MkState (<[0 := 645%Z]> (mem two_managers)) (objs two_managers))
    = Some 645%Z ∧
  (∀ o, o ≠ 0 →
        GetVal o (MkState (<[0 := 645%Z]> (mem two_managers)) (objs two_managers))
        = GetVal o two_managers) ∧
  objs (MkState (<[0 := 645%Z]> (mem two_managers)) (objs two_managers))
    = objs two_managers.
Proof.
  assert (H : SetVal 0 645 two_managers
              = Some (MkState (<[0 := 645%Z]> (mem two_managers)) (objs two_managers))).
  { reflexivity. }
  split; [exact two_managers_owned|]. split; [exact H|].
  exact (set_val_is_private 0 645 two_managers _ two_managers_owned H).
Defined.

(** Move assignment between two different managers, the source not moved
    from: it is defined, [this] then reads what [other] read before, [other]
    is left unusable ([GetVal] and [SetVal] on it are undefined), the [int]
    [this] owned before is freed, and no other manager sees a change. *)
Theorem move_assign_transfers_ownership this other s a :
  owned s → this ≠ other →
  is_Some (objs s !! this) → objs s !! other = Some (Some a) →
  ∃ s', move_assign this other s = Some s' ∧ owned s' ∧
        GetVal this s' = GetVal other s ∧
        GetVal other s' = None ∧ (∀ v, SetVal other v s' = None) ∧
        (∀ b, objs s !! this = Some (Some b) → mem s' !! b = None) ∧
        (∀ o, o ≠ this → o ≠ other → GetVal o s' = GetVal o s).
Proof.
  intros Hs Hne [p Hp] Hq.
  destruct (owned_move_assign this other s Hs) as (s' & Hmove & Hs');
    [by eexists|by eexists|].
  exists s'. split; [done|]. split; [done|].
  unfold move_assign in Hmove. rewrite Hp, Hq in Hmove. cbn in Hmove.
  destruct (decide (p = Some a)) as [->|Hpa].
  { exfalso. apply Hne. by eapply (o_unique _ Hs). }
  destruct (release_owned _ _ _ Hs Hp) as (m & Hrel & Hm).
  rewrite Hrel in Hmove. cbn in Hmove. injection Hmove as <-.
  assert (Hthis' : <[other:=None]> (<[this:=Some a]> (objs s)) !! this = Some (Some a)).
  { rewrite lookup_insert_ne by congruence. by rewrite lookup_insert_eq. }
  assert (Hother' : <[other:=None]> (<[this:=Some a]> (objs s)) !! other = Some None).
  { by rewrite lookup_insert_eq. }
  split; [|split; [|split; [|split]]].
  - unfold GetVal. cbn. rewrite Hthis', Hq. cbn. rewrite Hm.
    by rewrite decide_False.
  - unfold GetVal. cbn. by rewrite Hother'.
  - intros v. unfold SetVal. cbn. by rewrite Hother'.
  - intros b Hb. cbn. rewrite Hm. rewrite decide_True; [done|]. congruence.
  - intros o Ho1 Ho2. unfold GetVal. cbn.
    rewrite !lookup_insert_ne by congruence.
    destruct (objs s !! o) as [[c|]|] eqn:Hc; try done. cbn.
    rewrite Hm. rewrite decide_False; [done|].
    intros ->. apply Ho1. by eapply (o_unique _ Hs).
Qed.

Lemma move_assign_transfers_ownership_witness :
  owned two_managers ∧
  ∃ s', move_assign 0 1 two_managers = Some s' ∧ owned s' ∧
        GetVal 0 s' = GetVal 1 two_managers ∧
        GetVal 1 s' = None ∧ (∀ v, SetVal 1 v s' = None) ∧
        (∀ b, objs two_managers !! 0 = Some (Some b) → mem s' !! b = None) ∧
        (∀ o, o ≠ 0 → o ≠ 1 → GetVal o s' = GetVal o two_managers).
Proof.
  split; [exact two_managers_owned|].
  apply (move_assign_transfers_ownership 0 1 two_managers 1 two_managers_owned).
  - discriminate.
  - by eexists.
  - reflexivity.
Defined.

(** [main] for any two values: construct [a], set it, move it into a new
    [b]; [b] reads the value set, [a] can no longer be read, and the two
    destructors ([b]'s, then [a]'s) end without a double delete and leave
    memory as it was before [a] was made. *)
Theorem main_hands_over_and_frees (alloc : gmap nat Z → nat) s a b v w :
  (∀ m, m !! alloc m = None) →
  objs s !! a = None → objs s !! b = None → a ≠ b →
  let s1 := construct alloc a v s in
  GetVal a s1 = Some v ∧
  ∃ s2, SetVal a w s1 = Some s2 ∧ GetVal a s2 = Some w ∧
  ∃ s3, move_construct b a s2 = Some s3 ∧
        GetVal b s3 = Some w ∧ GetVal a s3 = None ∧
  ∃ s4, destroy b s3 = Some s4 ∧ destroy a s4 = Some s.
Proof.
  intros Hfresh Ha Hb Hab s1. subst s1.
  pose proof (Hfresh (mem s)) as Hp. set (p := alloc (mem s)) in *.
  unfold construct. fold p. split.
  { unfold GetVal. cbn. rewrite lookup_insert_eq. cbn. by rewrite lookup_insert_eq. }
  unfold SetVal. cbn. rewrite lookup_insert_eq. cbn. rewrite lookup_insert_eq. cbn.
  rewrite insert_insert_eq.
  eexists. split; [done|]. split.
  { unfold GetVal. cbn. rewrite lookup_insert_eq. cbn. by rewrite lookup_insert_eq. }
  unfold move_construct. cbn. rewrite lookup_insert_eq. cbn.
  eexists. split; [done|]. split; [|split].
  { unfold GetVal. cbn. rewrite lookup_insert_ne by congruence.
    rewrite lookup_insert_eq. cbn. by rewrite lookup_insert_eq. }
  { unfold GetVal. cbn. by rewrite lookup_insert_eq. }
  unfold destroy. cbn. rewrite lookup_insert_ne by congruence.
  rewrite lookup_insert_eq. cbn. rewrite lookup_insert_eq. cbn.
  eexists. split; [done|]. cbn.
  rewrite lookup_delete_ne by congruence. rewrite lookup_insert_eq. cbn.
  destruct s as [m os]. cbn in *.
  rewrite delete_insert_eq, (delete_id m p) by done. do 2 f_equal.
  apply map_eq. intros o.
  destruct (decide (o = a)) as [->|Hoa]; [by rewrite lookup_delete_eq|].
  rewrite lookup_delete_ne by congruence.
  destruct (decide (o = b)) as [->|Hob]; [by rewrite lookup_delete_eq|].
  rewrite lookup_delete_ne by congruence.
  by rewrite !lookup_insert_ne by congruence.
Qed.

(** [main] as written: 445, then 645, from nothing allocated. *)
Lemma main_hands_over_and_frees_witness :
  let s1 := construct lowest_free 0 445 (MkState ∅ ∅) in
  GetVal 0 s1 = Some 445%Z ∧
  ∃ s2, SetVal 0 645 s1 = Some s2 ∧ GetVal 0 s2 = Some 645%Z ∧
  ∃ s3, move_construct 1 0 s2 = Some s3 ∧
        GetVal 1 s3 = Some 645%Z ∧ GetVal 0 s3 = None ∧
  ∃ s4, destroy 1 s3 = Some s4 ∧ destroy 0 s4 = Some (MkState ∅ ∅).
Proof.
  apply (main_hands_over_and_frees lowest_free (MkState ∅ ∅) 0 1 445 645
           lowest_free_unused); [reflexivity|reflexivity|discriminate].
Defined.

End IntPtrManagerProperties.

(** ** move_constructors.cpp *)
Module PersonProperties.
Import Person.

(** Move assignment between two different objects. *)
Lemma move_assign_between moved_from this other s p o :
  this ≠ other → s !! this = Some p → s !! other = Some o →
  ∃ s', move_assign moved_from this other s = Some s' ∧
        s' !! this = Some (MkPerson (age_ o) (nicknames_ o) true) ∧
        s' !! other = Some (MkPerson (age_ o) (moved_from (nicknames_ o)) false) ∧
        (∀ x, x ≠ this → x ≠ other → s' !! x = s !! x).
Proof.
  intros Hne Hp Ho. unfold move_assign, set_age, set_nicknames, set_valid.
  rewrite Ho. cbn. rewrite Hp. cbn.
  repeat (rewrite ?lookup_insert_eq, ?(lookup_insert_ne _ this other),
            ?(lookup_insert_ne _ other this), ?Ho by congruence; cbn).
  eexists. split; [done|].
  repeat (rewrite ?lookup_insert_eq, ?(lookup_insert_ne _ this other),
            ?(lookup_insert_ne _ other this) by congruence; cbn).
  split; [done|]. split; [done|].
  intros x Hx1 Hx2. by rewrite !lookup_insert_ne by congruence.
Qed.

(** Move assignment always leaves [other] invalid, and leaves [this] valid
    exactly when the two are different objects: there is no test for
    self-assignment, so [p = std::move(p)] invalidates [p].  Between
    different objects [this] gets the age and the nicknames [other] had, and
    no third object changes. *)
Theorem move_assign_invalidates_the_source moved_from this other s p o :
  s !! this = Some p → s !! other = Some o →
  ∃ s', move_assign moved_from this other s = Some s' ∧
        PrintValid other s' = Some false ∧
        PrintValid this s' = Some (bool_decide (this ≠ other)) ∧
        (this ≠ other →
         s' !! this = Some (MkPerson (age_ o) (nicknames_ o) true)) ∧
        (∀ x, x ≠ this → x ≠ other → s' !! x = s !! x).
Proof.
  intros Hp Ho. destruct (decide (this = other)) as [->|Hne].
  - (* the object is assigned to itself: the last write to [valid_] wins *)
    unfold move_assign, set_age, set_nicknames, set_valid.
    rewrite Ho. cbn.
    repeat (rewrite ?lookup_insert_eq; cbn).
    eexists. split; [done|]. unfold PrintValid.
    repeat (rewrite ?lookup_insert_eq; cbn). split; [done|].
    split; [by rewrite bool_decide_eq_false_2 by auto|]. split; [done|].
    intros x Hx _. by rewrite !lookup_insert_ne by congruence.
  - destruct (move_assign_between moved_from _ _ _ _ _ Hne Hp Ho)
      as (s' & Hmove & Hthis & Hother & Hrest).
    exists s'. split; [done|]. unfold PrintValid. rewrite Hthis, Hother. cbn.
    split; [done|]. split; [by rewrite bool_decide_eq_true_2|]. done.
Qed.

(** A state left by the first lines of [main]: andy and andy1 made. *)
Definition andy_and_andy1 : gmap nat t :=
  construct_default 1 (construct 0 15445 ["andy"; "pavlo"]%string ∅).

Lemma move_assign_invalidates_the_source_witness :
  ∃ s', move_assign (λ _, []) 0 0 andy_and_andy1 = Some s' ∧
        PrintValid 0 s' = Some false ∧
        PrintValid 0 s' = Some (bool_decide (0 ≠ 0)) ∧
        (0 ≠ 0 →
         s' !! 0 = Some (MkPerson 15445 ["andy"; "pavlo"]%string true)) ∧
        (∀ x, x ≠ 0 → x ≠ 0 → s' !! x = andy_and_andy1 !! x).
Proof.
  exact (move_assign_invalidates_the_source (λ _, []) 0 0 andy_and_andy1
           (MkPerson 15445 ["andy"; "pavlo"]%string true)
           (MkPerson 15445 ["andy"; "pavlo"]%string true) eq_refl eq_refl).
Defined.

(** [main] for any age and nicknames: the data made for [andy] is moved to
    [andy1] by assignment and on to [andy2] by construction.  At each moment
    only the object that was moved to last is valid, and [andy2] ends with
    the age and nicknames [andy] was made with; [andy1], the source of a
    move construction, ends with no nicknames. *)
Theorem main_moves_down_the_chain moved_from s andy andy1 andy2 age ns :
  andy ≠ andy1 → andy ≠ andy2 → andy1 ≠ andy2 →
  let s1 := construct andy age ns s in
  let s2 := construct_default andy1 s1 in
  PrintValid andy s1 = Some true ∧
  ∃ s3, move_assign moved_from andy1 andy s2 = Some s3 ∧
        PrintValid andy1 s3 = Some true ∧ PrintValid andy s3 = Some false ∧
  ∃ s4, move_construct andy2 andy1 s3 = Some s4 ∧
        PrintValid andy2 s4 = Some true ∧ PrintValid andy1 s4 = Some false ∧
        PrintValid andy s4 = Some false ∧
        s4 !! andy2 = Some (MkPerson age ns true) ∧
        s4 !! andy1 = Some (MkPerson age [] false).
Proof.
  intros H01 H02 H12 s1 s2. subst s1 s2.
  assert (H10 : andy1 ≠ andy) by congruence.
  assert (H20 : andy2 ≠ andy) by congruence.
  assert (H21 : andy2 ≠ andy1) by congruence.
  unfold construct, construct_default. split.
  { unfold PrintValid. by rewrite lookup_insert_eq. }
  set (s2 := <[andy1:=_]> _).
  assert (Ha : s2 !! andy = Some (MkPerson age ns true)).
  { unfold s2. rewrite lookup_insert_ne by congruence. by rewrite lookup_insert_eq. }
  assert (Hb : s2 !! andy1 = Some (MkPerson 0 [] true)).
  { unfold s2. by rewrite lookup_insert_eq. }
  destruct (move_assign_between moved_from andy1 andy s2 _ _ H10 Hb Ha)
    as (s3 & Hmove & Hdata & Ha3 & _).
  cbn in Hdata, Ha3.
  exists s3. split; [done|]. unfold PrintValid at 1 2. rewrite Hdata, Ha3. cbn.
  split; [done|]. split; [done|].
  unfold move_construct, set_nicknames, set_valid. rewrite Hdata. cbn.
  repeat (rewrite ?lookup_insert_eq, ?(lookup_insert_ne _ andy2 andy1),
            ?Hdata by congruence; cbn).
  eexists. split; [done|]. unfold PrintValid.
  repeat (rewrite ?lookup_insert_eq, ?(lookup_insert_ne _ andy1 andy2),
            ?(lookup_insert_ne _ andy1 andy), ?(lookup_insert_ne _ andy2 andy),
            ?Ha3 by congruence; cbn).
  done.
Qed.

(** [main] as written: andy is 15445 with two nicknames. *)
Lemma main_moves_down_the_chain_witness :
  let s1 := construct 0 15445 ["andy"; "pavlo"]%string ∅ in
  let s2 := construct_default 1 s1 in
  PrintValid 0 s1 = Some true ∧
  ∃ s3, move_assign (λ _, []) 1 0 s2 = Some s3 ∧
        PrintValid 1 s3 = Some true ∧ PrintValid 0 s3 = Some false ∧
  ∃ s4, move_construct 2 1 s3 = Some s4 ∧
        PrintValid 2 s4 = Some true ∧ PrintValid 1 s4 = Some false ∧
        PrintValid 0 s4 = Some false ∧
        s4 !! 2 = Some (MkPerson 15445 ["andy"; "pavlo"]%string true) ∧
        s4 !! 1 = Some (MkPerson 15445 [] false).
Proof.
  apply (main_moves_down_the_chain (λ _, []) ∅ 0 1 2 15445 ["andy"; "pavlo"]%string);
    discriminate.
Defined.

End PersonProperties.
